(** * Canora: promotion engine, edge registry and lineage graph builder

    A shallow embedding of the request handlers of the Canora archive
    (Next.js route handlers over a Prisma store) and the properties of
    the tier state machine, the edge registry and the breadth-first
    lineage traversal.

    Conventions.
    - The Prisma store is an explicit value ([Store]): one list of rows per
      table, in table order.  A handler is a function from the store (and
      the request) to a response and the store after the request.
    - Identifiers, slugs and table keys are [string]s: the handlers only
      compare and concatenate them.  Free text whose length and
      white space matter (titles, descriptions, justifications) is a list
      of UTF-16 code units ([text]), as [String.prototype.trim] and
      [.length] see it.
    - Values a handler does not compute itself (the clock, generated row
      ids) come from an environment record [Env]; a write the store may
      refuse, and whether the webhook dispatch that follows a committed
      promotion returns or throws, is decided by a [Fault].
    - Left out: the relations joined into a response by [include].  The
      deliveries of a webhook dispatch work on the subscription table,
      which is modelled apart from the four tables below. *)

From Stdlib Require Import ZArith NArith List Lia.
From stdpp Require Import base gmap strings list sorting.

Local Open Scope Z_scope.
#[local] Set Warnings "-clear-no-such-hyp".

(* ===================================================================== *)
(** ** JavaScript values and strings *)
(* ===================================================================== *)

Module Js.

(** A JavaScript string as its sequence of UTF-16 code units. *)
Definition text := list N.

(** Code units of an ASCII/Latin-1 literal. *)
Fixpoint of_string (s : string) : text :=
  match s with
  | EmptyString => []
  | String c r => Ascii.N_of_ascii c :: of_string r
  end.

(** WhiteSpace and LineTerminator code points of ECMAScript, the ones
    [String.prototype.trim] strips. *)
Definition isWhiteSpace (c : N) : bool :=
  ((9 <=? c) && (c <=? 13) || (c =? 32) || (c =? 160) || (c =? 5760)
   || (8192 <=? c) && (c <=? 8202) || (c =? 8232) || (c =? 8233)
   || (c =? 8239) || (c =? 8287) || (c =? 12288) || (c =? 65279))%N.

Fixpoint trimStart (s : text) : text :=
  match s with
  | [] => []
  | c :: r => if isWhiteSpace c then trimStart r else s
  end.

Definition trimEnd (s : text) : text := rev (trimStart (rev s)).

(** [s.trim()] *)
Definition trim (s : text) : text := trimEnd (trimStart s).

(** [s.length] *)
Definition length (s : text) : Z := Z.of_nat (List.length s).

(** The JSON values a request body member can hold ([JUndefined]: the
    member is absent). *)
Inductive value :=
| JUndefined
| JNull
| JBool (b : bool)
| JNumber (n : Z)
| JString (s : text)
| JObject.

(** ToBoolean *)
Definition truthy (v : value) : bool :=
  match v with
  | JUndefined | JNull => false
  | JObject => true
  | JBool b => b
  | JNumber n => negb (n =? 0)
  | JString s => match s with [] => false | _ => true end
  end.

(** A number as [parseInt] returns it: an integer or NaN. *)
Inductive number :=
| NaN
| Int (z : Z).

(** [a >= b] for an integer [a]; every comparison with NaN is false. *)
Definition ge (a : Z) (b : number) : bool :=
  match b with
  | NaN => false
  | Int z => z <=? a
  end.

End Js.

(** [s] is the empty string (the only falsy string). *)
Definition str_empty (s : string) : bool :=
  match s with EmptyString => true | _ => false end.

(** [a || b] on optional strings: [b] when [a] is null, undefined or empty. *)
Definition str_or (a : option string) (b : string) : string :=
  match a with
  | Some s => if str_empty s then b else s
  | None => b
  end.

(* ===================================================================== *)
(** ** Data model (the Prisma tables the handlers read and write) *)
(* ===================================================================== *)

Inductive WorkStatus := JAM | PLATE | CANON.
Inductive EdgeType := FORK | MERGE | DERIVED.
Inductive Role := VIEWER | CREATOR | CURATOR | ADMIN.

#[global] Instance WorkStatus_eq_dec : EqDecision WorkStatus.
Proof. solve_decision. Defined.
#[global] Instance EdgeType_eq_dec : EqDecision EdgeType.
Proof. solve_decision. Defined.
#[global] Instance Role_eq_dec : EqDecision Role.
Proof. solve_decision. Defined.

(** The part of a CTAD record (src/types/ctad.ts) that a handler rewrites;
    the members it only copies through a spread are kept together in
    [ai_other] and [ctad_other]. *)
Record CtadPlatform := {
  platform_name : string;
  platform_version : option string;
  platform_role : string
}.

Record CtadAi := {
  ai_involved : bool;
  ai_platforms : option (list CtadPlatform);
  ai_o8ProvenanceId : option string;
  ai_other : string
}.

Record CtadTimestamps := {
  ts_created : string;
  ts_modified : option string;
  ts_generated : option string;
  ts_released : option string
}.

Record CTADMetadata := {
  ctad_ai : option CtadAi;
  ctad_timestamps : CtadTimestamps;
  ctad_other : string
}.

Record Work := {
  work_id : string;
  work_slug : string;
  work_title : Js.text;
  work_description : option Js.text;
  work_audioUrl : option string;
  work_status : WorkStatus;
  work_ctadMetadata : option CTADMetadata;
  work_createdAt : Z;
  work_canonLockedAt : option Z;
  work_canonLockedByUserId : option string
}.

Record WorkEdge := {
  edge_id : string;
  edge_fromWorkId : string;
  edge_toWorkId : string;
  edge_type : EdgeType
}.

Record PromotionEvent := {
  pe_id : string;
  pe_workId : string;
  pe_fromStatus : WorkStatus;
  pe_toStatus : WorkStatus;
  pe_justification : Js.text;
  pe_signedByUserId : string;
  pe_signedByDisplayName : string;
  pe_createdAt : Z
}.

Record O8Provenance := {
  prov_id : string;
  prov_workId : string;
  prov_platform : string;
  prov_platformVersion : option string;
  prov_generatedAt : string;
  prov_prompt : string;
  prov_negativePrompt : option string;
  prov_parameters : option string;
  prov_originalAudioUrl : option string;
  prov_originalTitle : option string;
  prov_creatorPlatformId : string;
  prov_creatorPlatformName : option string;
  prov_signatureAlgorithm : string;
  prov_publicKey : string;
  prov_signature : string;
  prov_signedAt : string;
  prov_verified : bool
}.

Record Store := {
  works : list Work;
  workEdges : list WorkEdge;
  promotionEvents : list PromotionEvent;
  o8Provenances : list O8Provenance
}.

(** What the database and the runtime supply to one request: the clock
    ([new Date()], also as ISO text) and the id of a row it creates. *)
Record Env := {
  now : Z;
  nowIso : string;
  freshId : string
}.

(** A JSON response: status code, and the payload or the error text. *)
Inductive Response (A : Type) :=
| Ok (status : Z) (data : A)
| Err (status : Z) (error : string).
Arguments Ok {A} status data.
Arguments Err {A} status error.

(* ===================================================================== *)
(** ** Store queries *)
(* ===================================================================== *)

(** [prisma.work.findFirst({ where: { OR: [{ id }, { slug: id }] } })] *)
Definition findFirst_id_or_slug (ws : list Work) (id : string) : option Work :=
  find (fun w => bool_decide (work_id w = id) || bool_decide (work_slug w = id)) ws.

(** [prisma.work.findUnique({ where: { id } })] *)
Definition findUnique_id (ws : list Work) (id : string) : option Work :=
  find (fun w => bool_decide (work_id w = id)) ws.

(** [prisma.work.update({ where: { id }, data })]: rewrites the row with
    that id; fails (record not found) when there is none. *)
Fixpoint work_update (ws : list Work) (id : string) (data : Work -> Work)
  : option (list Work) :=
  match ws with
  | [] => None
  | w :: r =>
      if bool_decide (work_id w = id) then Some (data w :: r)
      else option_map (cons w) (work_update r id data)
  end.

(** [prisma.workEdge.findUnique({ where: { fromWorkId_toWorkId } })] *)
Definition findEdge (es : list WorkEdge) (from to : string) : option WorkEdge :=
  find (fun e => bool_decide (edge_fromWorkId e = from)
                 && bool_decide (edge_toWorkId e = to)) es.

(** [prisma.workEdge.findMany({ where: { toWorkId } })] and
    [findMany({ where: { fromWorkId } })], rows in table order. *)
Definition edges_to (es : list WorkEdge) (id : string) : list WorkEdge :=
  filter (fun e => edge_toWorkId e = id) es.

Definition edges_from (es : list WorkEdge) (id : string) : list WorkEdge :=
  filter (fun e => edge_fromWorkId e = id) es.

(** [include: { fromWork: true }] / [include: { toWork: true }]: each edge
    row joined with the work row its foreign key names (an inner join: the
    foreign key leaves no edge without its work). *)
Definition include_work (ws : list Work) (key : WorkEdge -> string)
    (es : list WorkEdge) : list (WorkEdge * Work) :=
  omap (fun e => option_map (pair e) (findUnique_id ws (key e))) es.

(** A storage fault: the store refuses the n-th write of the request
    (constraint violation, lost connection) and the Prisma call throws; or
    every write goes through and the look-up of the subscriptions, with
    which the webhook dispatch after a promotion begins, throws. *)
Inductive Fault :=
| NoFault
| WriteFails (n : nat)
| DispatchFails.

Definition attempt {A} (fault : Fault) (n : nat) (write : Store -> option (A * Store))
    (s : Store) : option (A * Store) :=
  match fault with
  | WriteFails m => if Nat.eqb m n then None else write s
  | NoFault | DispatchFails => write s
  end.

(** [await dispatchWebhook(webhookEvent, ...)]: it returns, or it throws.
    Its deliveries never throw and touch only the subscription table (see
    [dispatchWebhook] below); its first statement, the unguarded
    [findMany] of the subscriptions, can. *)
Definition dispatch_throws (fault : Fault) : bool :=
  match fault with
  | DispatchFails => true
  | _ => false
  end.

(** [prisma.$transaction([first, second])]: the writes run in order inside
    one database transaction; when either throws, the transaction is rolled
    back and the call throws, so the caller never sees a store with only
    one of them. *)
Definition transaction {A B} (fault : Fault)
    (first : Store -> option (A * Store)) (second : Store -> option (B * Store))
    (s : Store) : option ((A * B) * Store) :=
  match attempt fault 0 first s with
  | None => None
  | Some (a, s1) =>
      match attempt fault 1 second s1 with
      | None => None
      | Some (b, s2) => Some ((a, b), s2)
      end
  end.

Definition set_works (s : Store) (ws : list Work) : Store :=
  {| works := ws; workEdges := workEdges s;
     promotionEvents := promotionEvents s; o8Provenances := o8Provenances s |}.

(** [prisma.promotionEvent.create({ data })] *)
Definition promotionEvent_create (ev : PromotionEvent) (s : Store)
  : option (PromotionEvent * Store) :=
  Some (ev, {| works := works s; workEdges := workEdges s;
               promotionEvents := promotionEvents s ++ [ev];
               o8Provenances := o8Provenances s |}).

(** [prisma.work.update] as a write on the store; returns the row written. *)
Definition work_update_write (id : string) (data : Work -> Work) (s : Store)
  : option (Work * Store) :=
  match work_update (works s) id data with
  | None => None
  | Some ws' =>
      match findUnique_id ws' id with
      | Some w' => Some (w', set_works s ws')
      | None => None
      end
  end.

(** [prisma.workEdge.create({ data })]; the table carries the compound
    unique key [fromWorkId_toWorkId]. *)
Definition workEdge_create (e : WorkEdge) (s : Store) : option (WorkEdge * Store) :=
  match findEdge (workEdges s) (edge_fromWorkId e) (edge_toWorkId e) with
  | Some _ => None
  | None =>
      Some (e, {| works := works s; workEdges := workEdges s ++ [e];
                  promotionEvents := promotionEvents s;
                  o8Provenances := o8Provenances s |})
  end.

(** [prisma.o8Provenance.create({ data })] *)
Definition o8Provenance_create (p : O8Provenance) (s : Store)
  : option (O8Provenance * Store) :=
  Some (p, {| works := works s; workEdges := workEdges s;
              promotionEvents := promotionEvents s;
              o8Provenances := o8Provenances s ++ [p] |}).

(* ===================================================================== *)
(** ** Sessions and roles (src/lib/roles.ts, rbac) *)
(* ===================================================================== *)

Record SessionUser := {
  user_id : string;
  user_name : option string;
  user_role : Role
}.

Definition ROLE_HIERARCHY : list Role := [VIEWER; CREATOR; CURATOR; ADMIN].

(** [ROLE_HIERARCHY.indexOf(r)] *)
Definition role_index (r : Role) : Z :=
  match list_find (fun x => x = r) ROLE_HIERARCHY with
  | Some (i, _) => Z.of_nat i
  | None => -1
  end.

Definition hasRole (userRole requiredRole : Role) : bool :=
  role_index requiredRole <=? role_index userRole.

Inductive AuthResult :=
| Authorized (user : SessionUser)
| Unauthorized (status : Z) (error : string).

Definition requireAuth (session : option SessionUser) : AuthResult :=
  match session with
  | None => Unauthorized 401 "Authentication required"
  | Some u => Authorized u
  end.

Definition role_name (r : Role) : string :=
  match r with
  | VIEWER => "VIEWER" | CREATOR => "CREATOR"
  | CURATOR => "CURATOR" | ADMIN => "ADMIN"
  end.

Definition requireRole (requiredRole : Role) (session : option SessionUser)
  : AuthResult :=
  match requireAuth session with
  | Unauthorized st e => Unauthorized st e
  | Authorized u =>
      if hasRole (user_role u) requiredRole then Authorized u
      else Unauthorized 403
             ("Requires " +:+ role_name requiredRole +:+ " role or higher")
  end.

Definition requireCreator := requireRole CREATOR.
Definition requireCurator := requireRole CURATOR.

(* ===================================================================== *)
(** ** Promotion engine: POST /api/works/[id]/promote *)
(* ===================================================================== *)

(** Valid promotion paths *)
Definition VALID_PROMOTIONS (st : WorkStatus) : option WorkStatus :=
  match st with
  | JAM => Some PLATE
  | PLATE => Some CANON
  | CANON => None
  end.

(** [!justification || typeof justification !== 'string'
     || justification.trim().length < 10] *)
Definition is_string (v : Js.value) : bool :=
  match v with Js.JString _ => true | _ => false end.

Definition text_of (v : Js.value) : Js.text :=
  match v with Js.JString s => s | _ => [] end.

Definition justification_rejected (justification : Js.value) : bool :=
  negb (Js.truthy justification)
  || negb (is_string justification)
  || (Js.length (Js.trim (text_of justification)) <? 10).

Record Promotion := {
  promoted_work : Work;
  promoted_event : PromotionEvent
}.

Definition NotFound {A} : Response A := Err 404 "Work not found".
Definition ValidationError {A} : Response A :=
  Err 400 "Justification is required (minimum 10 characters)".
Definition TerminalState {A} : Response A :=
  Err 400 "Work cannot be promoted further (already CANON)".

(** The data of the [work.update] of a promotion: the new status and, for
    CANON, the lock. *)
Definition promote_data (env : Env) (user : SessionUser) (nextStatus : WorkStatus)
    (w : Work) : Work :=
  {| work_id := work_id w; work_slug := work_slug w; work_title := work_title w;
     work_description := work_description w; work_audioUrl := work_audioUrl w;
     work_status := nextStatus;
     work_ctadMetadata := work_ctadMetadata w;
     work_createdAt := work_createdAt w;
     work_canonLockedAt :=
       if decide (nextStatus = CANON) then Some (now env) else work_canonLockedAt w;
     work_canonLockedByUserId :=
       if decide (nextStatus = CANON) then Some (user_id user)
       else work_canonLockedByUserId w |}.

(** The data of the [promotionEvent.create] of a promotion. *)
Definition promotion_event (env : Env) (user : SessionUser) (work : Work)
    (nextStatus : WorkStatus) (justification : Js.value) : PromotionEvent :=
  {| pe_id := freshId env;
     pe_workId := work_id work;
     pe_fromStatus := work_status work;
     pe_toStatus := nextStatus;
     pe_justification := Js.trim (text_of justification);
     pe_signedByUserId := user_id user;
     pe_signedByDisplayName := str_or (user_name user) "Anonymous Curator";
     pe_createdAt := now env |}.

(** The handler once the curator is authorised and the body parsed:
    [promote(workId, justification, curator)]. *)
Definition promote (env : Env) (fault : Fault) (user : SessionUser)
    (id : string) (justification : Js.value) (s : Store)
  : Response Promotion * Store :=
  if justification_rejected justification then (ValidationError, s)
  else
    match findFirst_id_or_slug (works s) id with
    | None => (NotFound, s)
    | Some work =>
        match VALID_PROMOTIONS (work_status work) with
        | None => (TerminalState, s)
        | Some nextStatus =>
            match transaction fault
                    (promotionEvent_create
                       (promotion_event env user work nextStatus justification))
                    (work_update_write (work_id work)
                       (promote_data env user nextStatus)) s with
            | Some ((promotionEvent, updatedWork), s') =>
                (* the dispatch is awaited inside the [try], after the
                   transaction has committed *)
                if dispatch_throws fault
                then (Err 500 "Failed to promote work", s')
                else (Ok 200 {| promoted_work := updatedWork;
                                promoted_event := promotionEvent |}, s')
            | None => (Err 500 "Failed to promote work", s)
            end
        end
    end.

(** The route handler: [requireCurator], then [request.json()] ([None]: the
    body is not JSON or is null, the destructuring throws), then the above. *)
Definition POST_promote (env : Env) (fault : Fault) (session : option SessionUser)
    (id : string) (body : option Js.value) (s : Store)
  : Response Promotion * Store :=
  match requireCurator session with
  | Unauthorized st e => (Err st e, s)
  | Authorized user =>
      match body with
      | None => (Err 500 "Failed to promote work", s)
      | Some justification => promote env fault user id justification s
      end
  end.

(* ===================================================================== *)
(** ** Work update: PATCH /api/works/[id] *)
(* ===================================================================== *)

(** A member of a request body: absent ([undefined]), [null], or a value. *)
Inductive Member (A : Type) :=
| Absent
| Null
| Val (a : A).
Arguments Absent {A}.
Arguments Null {A}.
Arguments Val {A} a.

Record PatchBody := {
  patch_title : Member Js.text;
  patch_description : Member Js.text;
  patch_audioUrl : Member string
}.

(** [description?.trim() || null] *)
Definition trim_or_null (d : Member Js.text) : option Js.text :=
  match d with
  | Val t => match Js.trim t with [] => None | t' => Some t' end
  | _ => None
  end.

(** The [data] object of the update, built from three conditional spreads. *)
Definition patch_data (body : PatchBody) (w : Work) : Work :=
  {| work_id := work_id w; work_slug := work_slug w;
     work_title :=
       match patch_title body with
       | Val (c :: r) => Js.trim (c :: r)
       | _ => work_title w
       end;
     work_description :=
       match patch_description body with
       | Absent => work_description w
       | d => trim_or_null d
       end;
     work_audioUrl :=
       match patch_audioUrl body with
       | Absent => work_audioUrl w
       | Null => None
       | Val u => Some u
       end;
     work_status := work_status w;
     work_ctadMetadata := work_ctadMetadata w;
     work_createdAt := work_createdAt w;
     work_canonLockedAt := work_canonLockedAt w;
     work_canonLockedByUserId := work_canonLockedByUserId w |}.

Definition PATCH_work (fault : Fault) (session : option SessionUser)
    (id : string) (body : option PatchBody) (s : Store)
  : Response Work * Store :=
  match requireCreator session with
  | Unauthorized st e => (Err st e, s)
  | Authorized _ =>
      match findFirst_id_or_slug (works s) id with
      | None => (NotFound, s)
      | Some existingWork =>
          if decide (work_status existingWork = CANON)
          then (Err 403 "Cannot modify canonized works", s)
          else
            match body with
            | None => (Err 500 "Failed to update work", s)
            | Some b =>
                match attempt fault 0
                        (work_update_write (work_id existingWork) (patch_data b)) s with
                | Some (work, s') => (Ok 200 work, s')
                | None => (Err 500 "Failed to update work", s)
                end
            end
      end
  end.

(* ===================================================================== *)
(** ** Edge registry: POST /api/edges *)
(* ===================================================================== *)

Record EdgeBody := {
  body_fromWorkId : option string;
  body_toWorkId : option string;
  body_type : option string
}.

(** [!x] for an optional string member *)
Definition missing (x : option string) : bool :=
  match x with
  | None => true
  | Some s => str_empty s
  end.

Definition EdgeType_name (t : EdgeType) : string :=
  match t with FORK => "FORK" | MERGE => "MERGE" | DERIVED => "DERIVED" end.

(** [Object.values(EdgeType)] *)
Definition EdgeType_values : list EdgeType := [FORK; MERGE; DERIVED].

(** The member of [Object.values(EdgeType)] that [type] names, if any. *)
Definition EdgeType_of (type : string) : option EdgeType :=
  find (fun t => bool_decide (EdgeType_name t = type)) EdgeType_values.

Definition ImmutableTarget {A} : Response A :=
  Err 403 "Cannot create edges to canonized works".
Definition DuplicateEdge {A} : Response A :=
  Err 409 "Edge already exists between these works".
Definition EdgeNotFound {A} : Response A :=
  Err 404 "One or both works not found".

(** The handler once the creator is authorised and the body parsed. *)
Definition edges_request (env : Env) (fault : Fault) (b : EdgeBody) (s : Store)
  : Response WorkEdge * Store :=
  if missing (body_fromWorkId b) || missing (body_toWorkId b)
  then (Err 400 "Both fromWorkId and toWorkId are required", s)
  else
    match body_type b ≫= EdgeType_of with
    | None => (Err 400 "Valid edge type is required (FORK, MERGE, DERIVED)", s)
    | Some type =>
        let fromWorkId := default "" (body_fromWorkId b) in
        let toWorkId := default "" (body_toWorkId b) in
        match findUnique_id (works s) fromWorkId,
              findUnique_id (works s) toWorkId with
        | Some fromWork, Some toWork =>
            if decide (work_status toWork = CANON)
            then (ImmutableTarget, s)
            else
              match findEdge (workEdges s) fromWorkId toWorkId with
              | Some _ => (DuplicateEdge, s)
              | None =>
                  match attempt fault 0
                          (workEdge_create
                             {| edge_id := freshId env;
                                edge_fromWorkId := fromWorkId;
                                edge_toWorkId := toWorkId;
                                edge_type := type |}) s with
                  | Some (edge, s') => (Ok 201 edge, s')
                  | None => (Err 500 "Failed to create edge", s)
                  end
              end
        | _, _ => (EdgeNotFound, s)
        end
    end.

(** The route handler: [requireCreator], then [request.json()] ([None]: the
    body is not JSON or is null), then the above. *)
Definition POST_edges (env : Env) (fault : Fault) (session : option SessionUser)
    (body : option EdgeBody) (s : Store) : Response WorkEdge * Store :=
  match requireCreator session with
  | Unauthorized st e => (Err st e, s)
  | Authorized _ =>
      match body with
      | None => (Err 500 "Failed to create edge", s)
      | Some b => edges_request env fault b s
      end
  end.

(** [createEdge(sourceId, targetId, type)]: the request whose body carries
    the two ids and the name of the type, with the store answering every
    write. *)
Definition createEdge (env : Env) (sourceId targetId : string) (type : EdgeType)
    (s : Store) : Response WorkEdge * Store :=
  edges_request env NoFault
    {| body_fromWorkId := Some sourceId; body_toWorkId := Some targetId;
       body_type := Some (EdgeType_name type) |} s.

(* ===================================================================== *)
(** ** Provenance: POST /api/v1/works/[id]/provenance *)
(* ===================================================================== *)

Record ProvenanceBody := {
  pv_platform : option string;
  pv_platformVersion : option string;
  pv_generatedAt : option string;
  pv_prompt : option string;
  pv_negativePrompt : option string;
  pv_parameters : option string;
  pv_originalAudioUrl : option string;
  pv_originalTitle : option string;
  pv_creatorPlatformId : option string;
  pv_creatorPlatformName : option string;
  pv_signature : option string;
  pv_publicKey : option string;
  pv_signedAt : option string;
  pv_signatureAlgorithm : option string
}.

(** [x || null] *)
Definition or_null (x : option string) : option string :=
  if missing x then None else x.

(** [prisma.o8Provenance.findUnique({ where: { workId } })] *)
Definition findProvenance (ps : list O8Provenance) (workId : string)
  : option O8Provenance :=
  find (fun p => bool_decide (prov_workId p = workId)) ps.

(** The CTAD written back: [{ ...ctad, ai: updatedAi, timestamps:
    { ...ctad.timestamps, generated, modified } }]. *)
Definition provenance_ctad (env : Env) (b : ProvenanceBody) (provenanceId : string)
    (ctad : CTADMetadata) : CTADMetadata :=
  let platforms :=
    match ctad_ai ctad ≫= ai_platforms with
    | Some l => l
    | None => []
    end in
  {| ctad_ai :=
       Some {| ai_involved := true;
               ai_platforms :=
                 Some (platforms ++
                       [ {| platform_name := default "" (pv_platform b);
                            platform_version := pv_platformVersion b;
                            platform_role := "full_generation" |} ]);
               ai_o8ProvenanceId := Some provenanceId;
               ai_other :=
                 match ctad_ai ctad with Some a => ai_other a | None => "" end |};
     ctad_timestamps :=
       {| ts_created := ts_created (ctad_timestamps ctad);
          ts_modified := Some (nowIso env);
          ts_generated := pv_generatedAt b;
          ts_released := ts_released (ctad_timestamps ctad) |};
     ctad_other := ctad_other ctad |}.

Definition set_ctadMetadata (c : CTADMetadata) (w : Work) : Work :=
  {| work_id := work_id w; work_slug := work_slug w; work_title := work_title w;
     work_description := work_description w; work_audioUrl := work_audioUrl w;
     work_status := work_status w;
     work_ctadMetadata := Some c;
     work_createdAt := work_createdAt w;
     work_canonLockedAt := work_canonLockedAt w;
     work_canonLockedByUserId := work_canonLockedByUserId w |}.

Inductive ProvenanceReply :=
| ProvenanceAttached (provenanceId : string) (verified : bool).

(** [handlePost] of the provenance route, behind the API-key check.  The
    two writes are separate calls: a fault in the second leaves the first
    in place. *)
Definition POST_provenance (env : Env) (fault : Fault) (workId : string)
    (body : option ProvenanceBody) (s : Store)
  : Response ProvenanceReply * Store :=
  match body with
  | None => (Err 500 "Failed to create provenance", s)
  | Some b =>
      if missing (pv_platform b) then (Err 400 "platform is required", s)
      else if missing (pv_generatedAt b) then (Err 400 "generatedAt is required", s)
      else if missing (pv_prompt b) then (Err 400 "prompt is required", s)
      else if missing (pv_signature b) then (Err 400 "signature is required", s)
      else if missing (pv_publicKey b) then (Err 400 "publicKey is required", s)
      else if missing (pv_signedAt b) then (Err 400 "signedAt is required", s)
      else if missing (pv_creatorPlatformId b)
      then (Err 400 "creatorPlatformId is required", s)
      else
        match findUnique_id (works s) workId with
        | None => (NotFound, s)
        | Some work =>
            match findProvenance (o8Provenances s) workId with
            | Some _ => (Err 409 "Provenance already exists for this work", s)
            | None =>
                match attempt fault 0
                        (o8Provenance_create
                           {| prov_id := freshId env;
                              prov_workId := workId;
                              prov_platform := default "" (pv_platform b);
                              prov_platformVersion := or_null (pv_platformVersion b);
                              prov_generatedAt := default "" (pv_generatedAt b);
                              prov_prompt := default "" (pv_prompt b);
                              prov_negativePrompt := or_null (pv_negativePrompt b);
                              prov_parameters := or_null (pv_parameters b);
                              prov_originalAudioUrl := or_null (pv_originalAudioUrl b);
                              prov_originalTitle := or_null (pv_originalTitle b);
                              prov_creatorPlatformId :=
                                default "" (pv_creatorPlatformId b);
                              prov_creatorPlatformName :=
                                or_null (pv_creatorPlatformName b);
                              prov_signatureAlgorithm :=
                                str_or (pv_signatureAlgorithm b) "ed25519";
                              prov_publicKey := default "" (pv_publicKey b);
                              prov_signature := default "" (pv_signature b);
                              prov_signedAt := default "" (pv_signedAt b);
                              prov_verified := false |}) s with
                | None => (Err 500 "Failed to create provenance", s)
                | Some (provenance, s1) =>
                    match work_ctadMetadata work with
                    | None =>
                        (Ok 200 (ProvenanceAttached (prov_id provenance) false), s1)
                    | Some ctad =>
                        match attempt fault 1
                                (work_update_write workId
                                   (set_ctadMetadata
                                      (provenance_ctad env b (prov_id provenance) ctad)))
                                s1 with
                        | Some (_, s2) =>
                            (Ok 200 (ProvenanceAttached (prov_id provenance) false), s2)
                        | None => (Err 500 "Failed to create provenance", s1)
                        end
                    end
                end
            end
        end
  end.

(* ===================================================================== *)
(** ** CTAD update: POST /api/v1/works/[id]/ctad *)
(* ===================================================================== *)

Section CtadUpdate.

(** [mergeCTAD] and [validateCTAD] of src/lib/ctad only look at the CTAD
    values; the handler is stated for any such pair. *)
Variable Updates : Type.
Variable mergeCTAD : CTADMetadata -> Updates -> CTADMetadata.
Variable validateCTAD : CTADMetadata -> bool.

Definition POST_ctad (fault : Fault) (workId : string)
    (body : option (option Updates)) (s : Store)
  : Response CTADMetadata * Store :=
  match body with
  | None => (Err 500 "Failed to update CTAD", s)
  | Some None => (Err 400 "CTAD updates required", s)
  | Some (Some ctadUpdates) =>
      match findUnique_id (works s) workId with
      | None => (NotFound, s)
      | Some work =>
          if decide (work_status work = CANON)
          then (Err 403 "Cannot update CTAD for CANON works - they are immutable", s)
          else
            match work_ctadMetadata work with
            | None => (Err 400 "Work has no CTAD metadata to update", s)
            | Some existingCTAD =>
                let mergedCTAD := mergeCTAD existingCTAD ctadUpdates in
                if negb (validateCTAD mergedCTAD)
                then (Err 400 "Invalid CTAD after merge", s)
                else
                  match attempt fault 0
                          (work_update_write workId (set_ctadMetadata mergedCTAD))
                          s with
                  | Some (_, s') => (Ok 200 mergedCTAD, s')
                  | None => (Err 500 "Failed to update CTAD", s)
                  end
            end
      end
  end.

End CtadUpdate.

(* ===================================================================== *)
(** ** Lineage graph builder: GET /api/works/[id]/lineage *)
(* ===================================================================== *)

Inductive Direction := Up | Down.

#[global] Instance Direction_eq_dec : EqDecision Direction.
Proof. solve_decision. Defined.

Definition Direction_name (d : Direction) : string :=
  match d with Up => "up" | Down => "down" end.

Record LineageNode := {
  node_id : string;
  node_slug : string;
  node_title : Js.text;
  node_status : WorkStatus;
  node_depth : Z
}.

Record LineageEdge := {
  ledge_id : string;
  ledge_source : string;
  ledge_target : string;
  ledge_type : EdgeType
}.

Record LineageGraph := {
  graph_nodes : list LineageNode;
  graph_edges : list LineageEdge
}.

Record QueueItem := {
  item_workId : string;
  item_direction : Direction;
  item_currentDepth : Z
}.

(** A [Map<string, LineageNode>]: entries in insertion order. *)
Definition NodeMap := list (string * LineageNode).

(** [nodes.has(k)] *)
Definition nodes_has (m : NodeMap) (k : string) : bool :=
  existsb (fun kv => bool_decide (kv.1 = k)) m.

(** [nodes.get(k)] *)
Definition nodes_get (m : NodeMap) (k : string) : option LineageNode :=
  snd <$> find (fun kv => bool_decide (kv.1 = k)) m.

(** [nodes.set(k, v)]: replaces the value of an existing key in place,
    appends a new key. *)
Fixpoint nodes_set (m : NodeMap) (k : string) (v : LineageNode) : NodeMap :=
  match m with
  | [] => [(k, v)]
  | kv :: r => if bool_decide (kv.1 = k) then (k, v) :: r else kv :: nodes_set r k v
  end.

(** The state of the traversal: the four mutable locals of the handler. *)
Record Traversal := {
  nodes : NodeMap;
  edges : list LineageEdge;
  visited : gset string;
  queue : list QueueItem
}.

(** [`${workId}-${direction}`] *)
Definition visitKey (workId : string) (direction : Direction) : string :=
  workId +:+ "-" +:+ Direction_name direction.

Definition lineage_edge (e : WorkEdge) : LineageEdge :=
  {| ledge_id := edge_id e; ledge_source := edge_fromWorkId e;
     ledge_target := edge_toWorkId e; ledge_type := edge_type e |}.

(** [edges.find(e => e.source === from && e.target === to)] as a test *)
Definition edges_find (es : list LineageEdge) (from to : string) : bool :=
  existsb (fun e => bool_decide (ledge_source e = from)
                    && bool_decide (ledge_target e = to)) es.

(** One iteration of [for (const edge of parentEdges)]. *)
Definition visit_parent (currentDepth : Z) (t : Traversal) (row : WorkEdge * Work)
  : Traversal :=
  let '(edge, fromWork) := row in
  {| nodes :=
       if nodes_has (nodes t) (edge_fromWorkId edge) then nodes t
       else nodes_set (nodes t) (edge_fromWorkId edge)
              {| node_id := edge_fromWorkId edge;
                 node_slug := work_slug fromWork;
                 node_title := work_title fromWork;
                 node_status := work_status fromWork;
                 node_depth := - (currentDepth + 1) |};
     edges := edges t ++ [lineage_edge edge];
     visited := visited t;
     queue := queue t ++ [ {| item_workId := edge_fromWorkId edge;
                              item_direction := Up;
                              item_currentDepth := currentDepth + 1 |} ] |}.

(** One iteration of [for (const edge of childEdges)]. *)
Definition visit_child (currentDepth : Z) (t : Traversal) (row : WorkEdge * Work)
  : Traversal :=
  let '(edge, toWork) := row in
  {| nodes :=
       if nodes_has (nodes t) (edge_toWorkId edge) then nodes t
       else nodes_set (nodes t) (edge_toWorkId edge)
              {| node_id := edge_toWorkId edge;
                 node_slug := work_slug toWork;
                 node_title := work_title toWork;
                 node_status := work_status toWork;
                 node_depth := currentDepth + 1 |};
     edges :=
       (* Avoid duplicate edges *)
       if edges_find (edges t) (edge_fromWorkId edge) (edge_toWorkId edge)
       then edges t
       else edges t ++ [lineage_edge edge];
     visited := visited t;
     queue := queue t ++ [ {| item_workId := edge_toWorkId edge;
                              item_direction := Down;
                              item_currentDepth := currentDepth + 1 |} ] |}.

(** The rows the item's query fetches. *)
Definition fetch (s : Store) (workId : string) (d : Direction)
  : list (WorkEdge * Work) :=
  match d with
  | Up => include_work (works s) edge_fromWorkId (edges_to (workEdges s) workId)
  | Down => include_work (works s) edge_toWorkId (edges_from (workEdges s) workId)
  end.

(** The item is taken off the queue and skipped: it is at the depth bound,
    or its visit key was seen. *)
Definition skipped (depth : Js.number) (vis : gset string) (i : QueueItem) : bool :=
  Js.ge (item_currentDepth i) depth
  || bool_decide (visitKey (item_workId i) (item_direction i) ∈ vis).

(** The body of the [while] loop on a non-empty queue. *)
Definition iteration (s : Store) (depth : Js.number) (i : QueueItem)
    (t : Traversal) : Traversal :=
  if skipped depth (visited t) i then t
  else
    let t1 := {| nodes := nodes t; edges := edges t;
                 visited := {[ visitKey (item_workId i) (item_direction i) ]}
                            ∪ visited t;
                 queue := queue t |} in
    match item_direction i with
    | Up =>
        foldl (visit_parent (item_currentDepth i)) t1
          (fetch s (item_workId i) Up)
    | Down =>
        foldl (visit_child (item_currentDepth i)) t1
          (fetch s (item_workId i) Down)
    end.

(** [queue.shift()] followed by the body; [None] when the queue is empty
    and the loop exits. *)
Definition step (s : Store) (depth : Js.number) (t : Traversal) : option Traversal :=
  match queue t with
  | [] => None
  | i :: rest =>
      Some (iteration s depth i
              {| nodes := nodes t; edges := edges t; visited := visited t;
                 queue := rest |})
  end.

(** The [while (queue.length > 0)] loop, run for at most [fuel] iterations;
    [None] when the fuel does not suffice. *)
Fixpoint loop (s : Store) (depth : Js.number) (fuel : nat) (t : Traversal)
  : option Traversal :=
  match step s depth t with
  | None => Some t
  | Some t' =>
      match fuel with
      | O => None
      | S fuel' => loop s depth fuel' t'
      end
  end.

(** The locals before the loop: both directions queued at the start work,
    which is already a node at depth 0. *)
Definition start (startWork : Work) : Traversal :=
  {| nodes :=
       nodes_set [] (work_id startWork)
         {| node_id := work_id startWork; node_slug := work_slug startWork;
            node_title := work_title startWork;
            node_status := work_status startWork; node_depth := 0 |};
     edges := [];
     visited := ∅;
     queue := [ {| item_workId := work_id startWork; item_direction := Up;
                   item_currentDepth := 0 |};
                {| item_workId := work_id startWork; item_direction := Down;
                   item_currentDepth := 0 |} ] |}.

(** [{ nodes: Array.from(nodes.values()), edges }] *)
Definition graph_of (t : Traversal) : LineageGraph :=
  {| graph_nodes := snd <$> nodes t; graph_edges := edges t |}.

(** A number of iterations that always suffices (see [loop_terminates]):
    every work id met is the start or an end of a stored edge, each id is
    expanded at most once per direction, and an expansion queues at most
    one item per stored edge. *)
Definition traversal_fuel (s : Store) : nat :=
  let E := length (workEdges s) in
  (2 * (1 + 2 * E) * (E + 1) + 2)%nat.

(** The traversal from a resolved start work. *)
Definition buildGraph (s : Store) (startWork : Work) (depth : Js.number)
  : option LineageGraph :=
  graph_of <$> loop s depth (traversal_fuel s) (start startWork).

(** The route handler; [depth] is what [parseInt] made of the query
    parameter (or of the default ['3']). *)
Definition GET_lineage (s : Store) (id : string) (depth : Js.number)
  : option (Response LineageGraph) :=
  match findFirst_id_or_slug (works s) id with
  | None => Some NotFound
  | Some startWork => Ok 200 <$> buildGraph s startWork depth
  end.

(* ===================================================================== *)
(** ** Specification vocabulary *)
(* ===================================================================== *)

(** The keys of the work table are sound: ids are unique, slugs are unique,
    and a slug names no other work's id. *)
Definition keys_ok (ws : list Work) : Prop :=
  NoDup (work_id <$> ws)
  /\ NoDup (work_slug <$> ws)
  /\ forall w w', w ∈ ws -> w' ∈ ws -> work_slug w = work_id w' -> w = w'.

(** At most one stored edge per ordered (source, target) pair. *)
Definition edges_unique (es : list WorkEdge) : Prop :=
  NoDup ((fun e => (edge_fromWorkId e, edge_toWorkId e)) <$> es).

(** The ordered pairs of a returned edge list. *)
Definition pairs (es : list LineageEdge) : list (string * string) :=
  (fun e => (ledge_source e, ledge_target e)) <$> es.

(** [hops es a b k]: [k] stored edges lead from [a] to [b], each from its
    source to its target. *)
Inductive hops (es : list WorkEdge) : string -> string -> Z -> Prop :=
| hops_here a : hops es a a 0
| hops_edge e c k :
    e ∈ es -> hops es (edge_toWorkId e) c k ->
    hops es (edge_fromWorkId e) c (k + 1).

(** One step of the traversal, as a relation. *)
Definition steps_to (s : Store) (depth : Js.number) (t t' : Traversal) : Prop :=
  step s depth t = Some t'.

(** The (work, direction) pairs expanded by the first [fuel] iterations. *)
Fixpoint expansions (s : Store) (depth : Js.number) (fuel : nat) (t : Traversal)
  : list (string * Direction) :=
  match fuel, queue t, step s depth t with
  | S fuel', i :: _, Some t' =>
      (if skipped depth (visited t) i then []
       else [(item_workId i, item_direction i)])
      ++ expansions s depth fuel' t'
  | _, _, _ => []
  end.

(** The work ids the traversal of [s] from [root] can meet: the start and
    the ends of the stored edges. *)
Definition known_ids (s : Store) (root : Work) : list string :=
  work_id root :: (workEdges s ≫= fun e => [edge_fromWorkId e; edge_toWorkId e]).

(** Every visit key it can form. *)
Definition known_keys (s : Store) (root : Work) : list string :=
  known_ids s root ≫= fun id => [visitKey id Up; visitKey id Down].

(** The queue item an expansion in direction [dir] at depth [d] appends for
    a fetched row. *)
Definition queued (dir : Direction) (d : Z) (row : WorkEdge * Work) : QueueItem :=
  {| item_workId :=
       match dir with
       | Up => edge_fromWorkId row.1
       | Down => edge_toWorkId row.1
       end;
     item_direction := dir;
     item_currentDepth := d + 1 |}.

(** Every queued work id is the start or an end of a stored edge. *)
Definition queue_known (s : Store) (root : Work) (t : Traversal) : Prop :=
  Forall (fun i => item_workId i ∈ known_ids s root) (queue t).

(** The known keys not yet visited. *)
Definition pending (keys : list string) (vis : gset string) : nat :=
  length (filter (fun k => k ∉ vis) keys).

(** The termination measure of the loop. *)
Definition measure (s : Store) (root : Work) (t : Traversal) : nat :=
  (pending (known_keys s root) (visited t) * (length (workEdges s) + 1)
   + length (queue t))%nat.

(** The outcome of a promotion request is all or nothing in the store:
    either the request failed and the store is the one it started from, or
    both writes are stored: an event is the one row added to the event
    table and the work row has the event's target tier.  In the second
    case the answer is that event and work, or, when the webhook dispatch
    after the transaction threw, the handler's error 500. *)
Definition all_or_nothing (s : Store) (out : Response Promotion * Store) : Prop :=
  (out.2 = s /\ exists st e, out.1 = Err st e)
  \/ (exists ev w old before after,
        (out.1 = Ok 200 {| promoted_work := w; promoted_event := ev |}
         \/ out.1 = Err 500 "Failed to promote work")
        /\ promotionEvents out.2 = promotionEvents s ++ [ev]
        /\ works s = before ++ old :: after
        /\ works out.2 = before ++ w :: after
        /\ work_id old = pe_workId ev
        /\ work_id w = pe_workId ev
        /\ work_status w = pe_toStatus ev
        /\ workEdges out.2 = workEdges s
        /\ o8Provenances out.2 = o8Provenances s).

(** The edge row a successful [createEdge] stores. *)
Definition new_edge (env : Env) (sourceId targetId : string) (type : EdgeType)
  : WorkEdge :=
  {| edge_id := freshId env; edge_fromWorkId := sourceId;
     edge_toWorkId := targetId; edge_type := type |}.

Definition add_edge (s : Store) (e : WorkEdge) : Store :=
  {| works := works s; workEdges := workEdges s ++ [e];
     promotionEvents := promotionEvents s; o8Provenances := o8Provenances s |}.

(** What the depth of a node says about the work: the start work is at
    0; a node at a negative depth [-k] is [k] stored edges upstream of the
    start (an ancestor), one at a positive depth [k] is [k] stored edges
    downstream (a descendant); and the item it was discovered from, at
    depth [k - 1], passed the depth test. *)
Definition node_ok (s : Store) (root : Work) (depth : Js.number)
    (n : LineageNode) : Prop :=
  (node_id n = work_id root /\ node_depth n = 0)
  \/ (node_id n <> work_id root /\ node_depth n < 0
      /\ Js.ge (- node_depth n - 1) depth = false
      /\ hops (workEdges s) (node_id n) (work_id root) (- node_depth n))
  \/ (node_id n <> work_id root /\ 0 < node_depth n
      /\ Js.ge (node_depth n - 1) depth = false
      /\ hops (workEdges s) (work_id root) (node_id n) (node_depth n)).

(** A queue item carries its distance from the start, in its direction. *)
Definition item_ok (s : Store) (root : Work) (i : QueueItem) : Prop :=
  0 <= item_currentDepth i
  /\ match item_direction i with
     | Up => hops (workEdges s) (item_workId i) (work_id root) (item_currentDepth i)
     | Down => hops (workEdges s) (work_id root) (item_workId i) (item_currentDepth i)
     end.

(** The invariant of the traversal loop on nodes and queue. *)
Definition traversal_ok (s : Store) (root : Work) (depth : Js.number)
    (t : Traversal) : Prop :=
  NoDup ((nodes t).*1)
  /\ nodes_has (nodes t) (work_id root) = true
  /\ Forall (fun kv => node_id kv.2 = kv.1 /\ node_ok s root depth kv.2) (nodes t)
  /\ Forall (item_ok s root) (queue t).

(* ===================================================================== *)
(** ** Concrete stores *)
(* ===================================================================== *)

Module Sample.

Definition work (id slug : string) (st : WorkStatus) : Work :=
  {| work_id := id; work_slug := slug; work_title := Js.of_string slug;
     work_description := None; work_audioUrl := None; work_status := st;
     work_ctadMetadata := None; work_createdAt := 1718409600;
     work_canonLockedAt := None; work_canonLockedByUserId := None |}.

Definition edge (id from to : string) (ty : EdgeType) : WorkEdge :=
  {| edge_id := id; edge_fromWorkId := from; edge_toWorkId := to;
     edge_type := ty |}.

Definition store (ws : list Work) (es : list WorkEdge) : Store :=
  {| works := ws; workEdges := es; promotionEvents := []; o8Provenances := [] |}.

Definition env : Env :=
  {| now := 1735689600; nowIso := "2025-01-01T00:00:00.000Z";
     freshId := "cm5d0new0000" |}.

Definition curator : SessionUser :=
  {| user_id := "u-curator"; user_name := Some "Elena Voss";
     user_role := CURATOR |}.

Definition jam := work "w1" "night-walk-k3x9" JAM.
Definition plate := work "w2" "glass-hours-p0q1" PLATE.

Definition canon : Work :=
  {| work_id := "w3"; work_slug := "midnight-echoes-a3b2";
     work_title := Js.of_string "Midnight Echoes";
     work_description := None; work_audioUrl := None; work_status := CANON;
     work_ctadMetadata :=
       Some {| ctad_ai := None;
               ctad_timestamps :=
                 {| ts_created := "2024-06-01T00:00:00.000Z";
                    ts_modified := None; ts_generated := None;
                    ts_released := None |};
               ctad_other := "" |};
     work_createdAt := 1717200000;
     work_canonLockedAt := Some 1718409600;
     work_canonLockedByUserId := Some "u-curator" |}.

Definition archive : Store := store [jam; plate; canon] [].

Definition good : Js.value :=
  Js.JString (Js.of_string "Exceptional craftsmanship and lasting cultural resonance.").
Definition confirmed : Js.value :=
  Js.JString (Js.of_string "Confirmed after community review period.").
Definition anything : Js.text := Js.of_string "anything".

(** Two works that derive from each other. *)
Definition r := work "r" "root-take-0001" JAM.
Definition a := work "a" "answer-take-0002" JAM.
Definition cycle : Store :=
  store [r; a] [edge "e1" "r" "a" FORK; edge "e2" "a" "r" MERGE].

(** A chain a -> b -> c. *)
Definition chain : Store :=
  store [work "a" "first-0001" JAM; work "b" "second-0002" JAM;
         work "c" "third-0003" JAM]
    [edge "e1" "a" "b" FORK; edge "e2" "b" "c" DERIVED].

(** A work whose slug is another work's id. *)
Definition clash : Store :=
  store [work "b" "c" JAM; work "a" "b" PLATE] [].

Definition provenance : ProvenanceBody :=
  {| pv_platform := Some "suno"; pv_platformVersion := Some "v4";
     pv_generatedAt := Some "2024-05-30T10:00:00.000Z";
     pv_prompt := Some "rain on a tin roof";
     pv_negativePrompt := None; pv_parameters := None;
     pv_originalAudioUrl := None; pv_originalTitle := None;
     pv_creatorPlatformId := Some "creator-17";
     pv_creatorPlatformName := None;
     pv_signature := Some "c2ln"; pv_publicKey := Some "cHVi";
     pv_signedAt := Some "2024-05-30T10:00:05.000Z";
     pv_signatureAlgorithm := None |}.

End Sample.

(* ===================================================================== *)
(** ** Requests in sequence *)
(* ===================================================================== *)

Section Requests.

(** [mergeCTAD] and [validateCTAD] as for [POST_ctad]. *)
Variable Updates : Type.
Variable mergeCTAD : CTADMetadata -> Updates -> CTADMetadata.
Variable validateCTAD : CTADMetadata -> bool.

(** A request to one of the handlers that write to the store. *)
Inductive Request :=
| ReqPromote (session : option SessionUser) (id : string) (body : option Js.value)
| ReqPatch (session : option SessionUser) (id : string) (body : option PatchBody)
| ReqEdge (session : option SessionUser) (body : option EdgeBody)
| ReqProvenance (workId : string) (body : option ProvenanceBody)
| ReqCtad (workId : string) (body : option (option Updates)).

(** The store a request leaves. *)
Definition handle (env : Env) (fault : Fault) (r : Request) (s : Store) : Store :=
  match r with
  | ReqPromote session id body => (POST_promote env fault session id body s).2
  | ReqPatch session id body => (PATCH_work fault session id body s).2
  | ReqEdge session body => (POST_edges env fault session body s).2
  | ReqProvenance workId body => (POST_provenance env fault workId body s).2
  | ReqCtad workId body =>
      (POST_ctad Updates mergeCTAD validateCTAD fault workId body s).2
  end.

(** Requests served one after the other, each with its own clock, fresh id
    and storage fault. *)
Definition serve (reqs : list (Env * Fault * Request)) (s : Store) : Store :=
  foldl (fun s '(env, fault, r) => handle env fault r s) s reqs.

End Requests.

(** The order of the tiers. *)
Definition tier_index (t : WorkStatus) : Z :=
  match t with JAM => 0 | PLATE => 1 | CANON => 2 end.

Definition tier_le (a b : WorkStatus) : Prop := tier_index a <= tier_index b.

(** What a work row keeps from one store to a later one: its id, slug and
    creation time; a tier that is the same or further along; and, once at
    CANON, its lock, title, description and audio URL. *)
Definition row_forward (old new : Work) : Prop :=
  work_id new = work_id old
  /\ work_slug new = work_slug old
  /\ work_createdAt new = work_createdAt old
  /\ tier_le (work_status old) (work_status new)
  /\ (work_status old = CANON ->
      work_status new = CANON
      /\ work_canonLockedAt new = work_canonLockedAt old
      /\ work_canonLockedByUserId new = work_canonLockedByUserId old
      /\ work_title new = work_title old
      /\ work_description new = work_description old
      /\ work_audioUrl new = work_audioUrl old).

(** A later store: the same work rows, each moved forward, and tables of
    events, edges and provenance that only grew at their end. *)
Definition forward (s s' : Store) : Prop :=
  Forall2 row_forward (works s) (works s')
  /\ promotionEvents s `prefix_of` promotionEvents s'
  /\ workEdges s `prefix_of` workEdges s'
  /\ o8Provenances s `prefix_of` o8Provenances s'.

(** The tier a list of promotion events leads to from [tier], when each
    event starts where the one before ended and follows
    [VALID_PROMOTIONS]. *)
Fixpoint replay (evs : list PromotionEvent) (tier : WorkStatus) : option WorkStatus :=
  match evs with
  | [] => Some tier
  | ev :: rest =>
      if decide (pe_fromStatus ev = tier
                 /\ VALID_PROMOTIONS tier = Some (pe_toStatus ev))
      then replay rest (pe_toStatus ev)
      else None
  end.

(** The events of a work, oldest first. *)
Definition events_of (s : Store) (id : string) : list PromotionEvent :=
  filter (fun ev => pe_workId ev = id) (promotionEvents s).

(** The events of every work, replayed from JAM, give its tier. *)
Definition history_ok (s : Store) : Prop :=
  forall w, w ∈ works s ->
            replay (events_of s (work_id w)) JAM = Some (work_status w).

(** The lock is set exactly at CANON, and the locking curator signed a
    promotion of the work to CANON. *)
Definition lock_ok (s : Store) : Prop :=
  forall w, w ∈ works s ->
    (work_status w = CANON <-> is_Some (work_canonLockedAt w))
    /\ (work_status w = CANON <-> is_Some (work_canonLockedByUserId w))
    /\ (work_status w = CANON ->
        exists ev, ev ∈ promotionEvents s
                   /\ pe_workId ev = work_id w
                   /\ pe_toStatus ev = CANON
                   /\ work_canonLockedByUserId w = Some (pe_signedByUserId ev)).

(** Every row that names a work names a stored one. *)
Definition references_ok (s : Store) : Prop :=
  (forall e, e ∈ workEdges s ->
             edge_fromWorkId e ∈ work_id <$> works s
             /\ edge_toWorkId e ∈ work_id <$> works s)
  /\ (forall ev, ev ∈ promotionEvents s -> pe_workId ev ∈ work_id <$> works s)
  /\ (forall p, p ∈ o8Provenances s -> prov_workId p ∈ work_id <$> works s).

(** The invariant of the store. *)
Definition store_ok (s : Store) : Prop :=
  NoDup (work_id <$> works s)
  /\ history_ok s
  /\ lock_ok s
  /\ edges_unique (workEdges s)
  /\ NoDup (prov_workId <$> o8Provenances s)
  /\ references_ok s.

Definition add_provenance (s : Store) (p : O8Provenance) : Store :=
  {| works := works s; workEdges := workEdges s;
     promotionEvents := promotionEvents s;
     o8Provenances := o8Provenances s ++ [p] |}.

(** An edit of a work row that is no promotion: id, slug, creation time,
    tier and lock stay, and at CANON so do title, description and audio
    URL. *)
Definition row_edit (old new : Work) : Prop :=
  work_id new = work_id old
  /\ work_slug new = work_slug old
  /\ work_createdAt new = work_createdAt old
  /\ work_status new = work_status old
  /\ work_canonLockedAt new = work_canonLockedAt old
  /\ work_canonLockedByUserId new = work_canonLockedByUserId old
  /\ (work_status old = CANON ->
      work_title new = work_title old
      /\ work_description new = work_description old
      /\ work_audioUrl new = work_audioUrl old).

(** The footprints a request can leave on the store. *)
Inductive change : Store -> Store -> Prop :=
| change_none s : change s s
| change_edit s before old new after :
    works s = before ++ old :: after ->
    row_edit old new ->
    change s (set_works s (before ++ new :: after))
| change_promote s env user w nxt j before after :
    works s = before ++ w :: after ->
    VALID_PROMOTIONS (work_status w) = Some nxt ->
    change s {| works := before ++ promote_data env user nxt w :: after;
                workEdges := workEdges s;
                promotionEvents :=
                  promotionEvents s ++ [promotion_event env user w nxt j];
                o8Provenances := o8Provenances s |}
| change_edge s e t :
    is_Some (findUnique_id (works s) (edge_fromWorkId e)) ->
    findUnique_id (works s) (edge_toWorkId e) = Some t ->
    work_status t <> CANON ->
    findEdge (workEdges s) (edge_fromWorkId e) (edge_toWorkId e) = None ->
    change s (add_edge s e)
| change_provenance s p :
    is_Some (findUnique_id (works s) (prov_workId p)) ->
    findProvenance (o8Provenances s) (prov_workId p) = None ->
    change s (add_provenance s p)
| change_then s1 s2 s3 : change s1 s2 -> change s2 s3 -> change s1 s3.

(* ===================================================================== *)
(** ** Concrete requests *)
(* ===================================================================== *)

Module Demo.

(** A CTAD merge that keeps the stored record, and a validation that
    accepts it. *)
Definition keep (c : CTADMetadata) (u : unit) : CTADMetadata := c.
Definition accept (c : CTADMetadata) : bool := true.

Definition creator : SessionUser :=
  {| user_id := "u-creator"; user_name := Some "Marcus Chen";
     user_role := CREATOR |}.

(** A promotion of [a], an edge closing the chain into a cycle, and a new
    title for [b]. *)
Definition requests : list (Env * Fault * Request unit) :=
  [ (Sample.env, NoFault,
     ReqPromote unit (Some Sample.curator) "a" (Some Sample.good));
    (Sample.env, NoFault,
     ReqEdge unit (Some creator)
       (Some {| body_fromWorkId := Some "c"; body_toWorkId := Some "a";
                body_type := Some "MERGE" |}));
    (Sample.env, WriteFails 0,
     ReqPatch unit (Some creator) "b"
       (Some {| patch_title := Val (Js.of_string "  Second take ");
                patch_description := Absent; patch_audioUrl := Absent |})) ].

Definition retitle : PatchBody :=
  {| patch_title := Val (Js.of_string "  Second take ");
     patch_description := Val (Js.of_string "   ");
     patch_audioUrl := Null |}.

End Demo.

(* ===================================================================== *)
(** ** Vocabulary for the returned graph *)
(* ===================================================================== *)

(** The node is a snapshot of a stored work: of the start work, or of the
    work row carrying the node's id. *)
Definition snapshot_of (s : Store) (root : Work) (n : LineageNode) : Prop :=
  exists w,
    (w = root \/ findUnique_id (works s) (node_id n) = Some w)
    /\ node_id n = work_id w
    /\ node_slug n = work_slug w
    /\ node_title n = work_title w
    /\ node_status n = work_status w.

(** Edges and queue stay inside the node map, edges are stored edges and
    nodes are snapshots. *)
Definition graph_closed (s : Store) (root : Work) (t : Traversal) : Prop :=
  (forall e, e ∈ edges t ->
     (exists se, se ∈ workEdges s /\ e = lineage_edge se)
     /\ ledge_source e ∈ (nodes t).*1
     /\ ledge_target e ∈ (nodes t).*1)
  /\ (forall i, i ∈ queue t -> item_workId i ∈ (nodes t).*1)
  /\ (forall kv, kv ∈ nodes t -> kv.1 = node_id kv.2 /\ snapshot_of s root kv.2).

(** No stored edges lead from a work back to itself. *)
Definition acyclic (es : list WorkEdge) : Prop :=
  forall a k, hops es a a k -> k <= 0.

(** Each ordered pair is recorded once, and every recorded edge was met
    either going up into an expanded target or going down from a work
    downstream of the start. *)
Definition recorded_once (s : Store) (root : Work) (t : Traversal) : Prop :=
  NoDup (pairs (edges t))
  /\ forall e, e ∈ edges t ->
       visitKey (ledge_target e) Up ∈ visited t
       \/ exists k, hops (workEdges s) (work_id root) (ledge_source e) k.

(* ===================================================================== *)
(** ** Promotion dialog and curator page
       (src/components/forms/PromotionDialog.tsx, src/app/curator/page.tsx) *)
(* ===================================================================== *)

(** The [nextStatus] table of the dialog. *)
Definition nextStatus (st : WorkStatus) : option WorkStatus :=
  match st with
  | JAM => Some PLATE
  | PLATE => Some CANON
  | CANON => None
  end.

(** The state of a mounted dialog: its three [useState] cells, and whether
    the parent still shows it. *)
Record Dialog := {
  dlg_justification : Js.text;
  dlg_loading : bool;
  dlg_confirmed : bool;
  dlg_open : bool
}.

Definition dialog_opened : Dialog :=
  {| dlg_justification := []; dlg_loading := false; dlg_confirmed := false;
     dlg_open := true |}.

(** How the promise returned by [onConfirm] settles. *)
Inductive Settled := Fulfilled | Rejected.

(** [targetStatus === 'CANON'] *)
Definition isCanonPromotion (currentStatus : WorkStatus) : bool :=
  bool_decide (nextStatus currentStatus = Some CANON).

(** [handleSubmit]: the state it leaves, and the justification it passed to
    [onConfirm], if it called it. *)
Definition handleSubmit (currentStatus : WorkStatus)
    (onConfirm : Js.text -> Settled) (d : Dialog) : Dialog * option Js.text :=
  if Js.length (Js.trim (dlg_justification d)) <? 10 then (d, None)
  else if isCanonPromotion currentStatus && negb (dlg_confirmed d)
  then ({| dlg_justification := dlg_justification d;
           dlg_loading := dlg_loading d; dlg_confirmed := true;
           dlg_open := dlg_open d |}, None)
  else
    match onConfirm (dlg_justification d) with
    | Fulfilled =>
        ({| dlg_justification := []; dlg_loading := false;
            dlg_confirmed := false; dlg_open := false |},
         Some (dlg_justification d))
    | Rejected =>
        ({| dlg_justification := dlg_justification d; dlg_loading := false;
            dlg_confirmed := dlg_confirmed d; dlg_open := dlg_open d |},
         Some (dlg_justification d))
    end.

(** [handleClose] *)
Definition handleClose (d : Dialog) : Dialog :=
  {| dlg_justification := []; dlg_loading := dlg_loading d;
     dlg_confirmed := false; dlg_open := false |}.

(** What the user can do with the dialog. *)
Inductive DialogEvent :=
| TypeText (t : Js.text)
| ClickSubmit
| ClickCancel.

#[global] Instance DialogEvent_eq_dec : EqDecision DialogEvent.
Proof. solve_decision. Defined.

(** One event on the rendered dialog.  Nothing is rendered when the work
    has no next tier or the parent closed the dialog; the text area exists
    only before the confirmation screen; the submit button is disabled
    while the justification is short or a request is pending, and the
    cancel button while a request is pending. *)
Definition dialog_event (currentStatus : WorkStatus)
    (onConfirm : Js.text -> Settled) (d : Dialog) (e : DialogEvent)
  : Dialog * option Js.text :=
  match nextStatus currentStatus with
  | None => (d, None)
  | Some _ =>
      if negb (dlg_open d) then (d, None)
      else
        match e with
        | TypeText t =>
            if dlg_confirmed d then (d, None)
            else ({| dlg_justification := t; dlg_loading := dlg_loading d;
                     dlg_confirmed := dlg_confirmed d; dlg_open := dlg_open d |},
                  None)
        | ClickSubmit =>
            if (Js.length (Js.trim (dlg_justification d)) <? 10) || dlg_loading d
            then (d, None)
            else handleSubmit currentStatus onConfirm d
        | ClickCancel =>
            if dlg_loading d then (d, None) else (handleClose d, None)
        end
  end.

(** The justifications sent to [onConfirm] over a sequence of events. *)
Fixpoint dialog_calls (currentStatus : WorkStatus)
    (onConfirm : Js.text -> Settled) (d : Dialog) (es : list DialogEvent)
  : list Js.text :=
  match es with
  | [] => []
  | e :: rest =>
      let '(d', call) := dialog_event currentStatus onConfirm d e in
      match call with
      | Some j => j :: dialog_calls currentStatus onConfirm d' rest
      | None => dialog_calls currentStatus onConfirm d' rest
      end
  end.

Definition submits (es : list DialogEvent) : nat :=
  length (filter (fun e => e = ClickSubmit) es).

(** The tier the curator page gives the promoted work in its list after a
    successful request. *)
Definition refreshed_status (st : WorkStatus) : WorkStatus :=
  match st with
  | JAM => PLATE
  | PLATE => CANON
  | CANON => st
  end.

(** [res.ok] *)
Definition res_ok {A} (answer : Response A) : bool :=
  let status := match answer with Ok st _ => st | Err st _ => st end in
  (200 <=? status) && (status <=? 299).

(** [handlePromotion]: the tier the page lists for the promoted work once
    the request is answered.  On an answer that is not ok it throws before
    it refreshes the list. *)
Definition listed_status {A} (answer : Response A) (st : WorkStatus)
  : WorkStatus :=
  if res_ok answer then refreshed_status st else st.

(* ===================================================================== *)
(** ** Graph layout (src/components/lineage/LineageGraph.tsx) *)
(* ===================================================================== *)

Record FlowNode := {
  flow_id : string;
  flow_x : Z;
  flow_y : Z;
  flow_label : Js.text;
  flow_status : WorkStatus;
  flow_isCurrent : bool
}.

(** [[...nodes].sort((a, b) => a.depth - b.depth)]: the stable sort by
    depth, as an insertion sort that puts a node before the first node of
    the same or a greater depth that followed it. *)
Fixpoint insert_by_depth (n : LineageNode) (l : list LineageNode)
  : list LineageNode :=
  match l with
  | [] => [n]
  | m :: r =>
      if node_depth n <=? node_depth m then n :: m :: r
      else m :: insert_by_depth n r
  end.

Definition sort_by_depth (l : list LineageNode) : list LineageNode :=
  foldr insert_by_depth [] l.

(** [depthGroups]: a [Map<number, nodes>], entries in insertion order. *)
Definition DepthGroups := list (Z * list LineageNode).

(** [group = depthGroups.get(depth) || []; group.push(node);
     depthGroups.set(depth, group)] *)
Fixpoint group_push (m : DepthGroups) (n : LineageNode) : DepthGroups :=
  match m with
  | [] => [(node_depth n, [n])]
  | (d, g) :: r =>
      if decide (d = node_depth n) then (d, g ++ [n]) :: r
      else (d, g) :: group_push r n
  end.

Definition HORIZONTAL_SPACING : Z := 200.
Definition VERTICAL_SPACING : Z := 120.

(** The flow nodes of one depth group. *)
Definition place_group (currentWorkId : string) (depth : Z)
    (group : list LineageNode) : list FlowNode :=
  let startY := - ((Z.of_nat (length group) - 1) * VERTICAL_SPACING) / 2 in
  imap (fun index node =>
          {| flow_id := node_id node;
             flow_x := depth * HORIZONTAL_SPACING;
             flow_y := startY + Z.of_nat index * VERTICAL_SPACING;
             flow_label := node_title node;
             flow_status := node_status node;
             flow_isCurrent := bool_decide (node_id node = currentWorkId) |})
    group.

(** [initialNodes] *)
Definition layout (currentWorkId : string) (nodes : list LineageNode)
  : list FlowNode :=
  foldl group_push [] (sort_by_depth nodes)
    ≫= fun '(depth, group) => place_group currentWorkId depth group.

(* ===================================================================== *)
(** ** Slugs (src/lib/utils.ts) *)
(* ===================================================================== *)

Section Slug.

(** [String.prototype.toLowerCase], which follows the Unicode case tables;
    what is stated about slugs holds for any function in its place. *)
Variable toLowerCase : Js.text -> Js.text.

(** [\w] *)
Definition isWordChar (c : N) : bool :=
  ((48 <=? c) && (c <=? 57) || (65 <=? c) && (c <=? 90) || (c =? 95)
   || (97 <=? c) && (c <=? 122))%N.

(** The code unit of [-]. *)
Definition hyphen : N := 45.

(** [.replace(/[^\w\s-]/g, '')] *)
Definition remove_special (s : Js.text) : Js.text :=
  List.filter (fun c => isWordChar c || Js.isWhiteSpace c || (c =? hyphen)%N) s.

(** [.replace(/p+/g, '-')] for a class [p] of characters: every maximal run
    of them becomes one hyphen ([inRun]: the character before was one). *)
Fixpoint replace_runs (p : N -> bool) (inRun : bool) (s : Js.text) : Js.text :=
  match s with
  | [] => []
  | c :: r =>
      if p c then
        if inRun then replace_runs p true r
        else hyphen :: replace_runs p true r
      else c :: replace_runs p false r
  end.

Definition slug_base (title : Js.text) : Js.text :=
  take 50
    (replace_runs (fun c => (c =? hyphen)%N) false
       (replace_runs Js.isWhiteSpace false
          (remove_special (Js.trim (toLowerCase title))))).

(** [generateSlug(title)], with the four characters [nanoid()] drew. *)
Definition generateSlug (drawn : Js.text) (title : Js.text) : Js.text :=
  slug_base title ++ hyphen :: drawn.

End Slug.

(** The alphabet of [customAlphabet('abcdefghijklmnopqrstuvwxyz0123456789', 4)]. *)
Definition nanoid_char (c : N) : bool :=
  ((97 <=? c) && (c <=? 122) || (48 <=? c) && (c <=? 57))%N.

(** A character that needs no escaping in a URL path: a letter, a digit,
    an underscore or a hyphen. *)
Definition url_safe (c : N) : bool := isWordChar c || (c =? hyphen)%N.

(* ===================================================================== *)
(** ** Provenance requests *)
(* ===================================================================== *)

(** The body carries every field the provenance route requires. *)
Definition complete (b : ProvenanceBody) : Prop :=
  missing (pv_platform b) = false
  /\ missing (pv_generatedAt b) = false
  /\ missing (pv_prompt b) = false
  /\ missing (pv_signature b) = false
  /\ missing (pv_publicKey b) = false
  /\ missing (pv_signedAt b) = false
  /\ missing (pv_creatorPlatformId b) = false.

(** The provenance row the route creates. *)
Definition provenance_row (env : Env) (workId : string) (b : ProvenanceBody)
  : O8Provenance :=
  {| prov_id := freshId env;
     prov_workId := workId;
     prov_platform := default "" (pv_platform b);
     prov_platformVersion := or_null (pv_platformVersion b);
     prov_generatedAt := default "" (pv_generatedAt b);
     prov_prompt := default "" (pv_prompt b);
     prov_negativePrompt := or_null (pv_negativePrompt b);
     prov_parameters := or_null (pv_parameters b);
     prov_originalAudioUrl := or_null (pv_originalAudioUrl b);
     prov_originalTitle := or_null (pv_originalTitle b);
     prov_creatorPlatformId := default "" (pv_creatorPlatformId b);
     prov_creatorPlatformName := or_null (pv_creatorPlatformName b);
     prov_signatureAlgorithm := str_or (pv_signatureAlgorithm b) "ed25519";
     prov_publicKey := default "" (pv_publicKey b);
     prov_signature := default "" (pv_signature b);
     prov_signedAt := default "" (pv_signedAt b);
     prov_verified := false |}.

(* ===================================================================== *)
(** ** More concrete values *)
(* ===================================================================== *)

Module Demo2.

(** The position of the three works of the chain. *)
Definition rank (id : string) : Z :=
  if decide (id = "a") then 0 else if decide (id = "b") then 1 else 2.

Definition node (id : string) (depth : Z) : LineageNode :=
  {| node_id := id; node_slug := id; node_title := Js.of_string id;
     node_status := JAM; node_depth := depth |}.

(** A server that refuses every request. *)
Definition refuse (j : Js.text) : Settled := Rejected.

Definition lower_ascii (t : Js.text) : Js.text :=
  (fun c => if ((65 <=? c) && (c <=? 90))%N then (c + 32)%N else c) <$> t.

End Demo2.

(* ===================================================================== *)
(** ** Vocabulary of the layout statements *)
(* ===================================================================== *)

(** The order of the comparator [(a, b) => a.depth - b.depth]. *)
Definition by_depth (a b : LineageNode) : Prop := node_depth a <= node_depth b.

(** The nodes of the depth groups, group after group. *)
Definition grouped (m : DepthGroups) : list LineageNode := m ≫= snd.

(** The groups come in ascending order of their depths, no depth twice,
    and each holds nodes of its depth. *)
Definition groups_sorted (m : DepthGroups) : Prop :=
  StronglySorted Z.lt (m.*1)
  /\ Forall (fun dg => Forall (fun n => node_depth n = dg.1) dg.2) m.

(** The flow node [a] draws the lineage node [n]. *)
Definition flow_of (currentWorkId : string) (n : LineageNode) (a : FlowNode)
  : Prop :=
  flow_id a = node_id n
  /\ flow_x a = node_depth n * HORIZONTAL_SPACING
  /\ flow_label a = node_title n
  /\ flow_status a = node_status n
  /\ flow_isCurrent a = bool_decide (node_id n = currentWorkId).

(** Two flow nodes are a column or a row apart. *)
Definition far (a b : FlowNode) : Prop :=
  HORIZONTAL_SPACING <= Z.abs (flow_x a - flow_x b)
  \/ VERTICAL_SPACING <= Z.abs (flow_y a - flow_y b).

Definition separated (l : list FlowNode) : Prop :=
  forall (i j : nat) (a b : FlowNode),
    i <> j -> l !! i = Some a -> l !! j = Some b -> far a b.

(* ===================================================================== *)
(** ** Vocabulary of the breadth-first statements *)
(* ===================================================================== *)

(** The end of a stored edge an expansion in direction [dir] starts from,
    and the end it discovers. *)
Definition here (dir : Direction) (e : WorkEdge) : string :=
  match dir with Up => edge_toWorkId e | Down => edge_fromWorkId e end.

Definition beyond (dir : Direction) (e : WorkEdge) : string :=
  match dir with Up => edge_fromWorkId e | Down => edge_toWorkId e end.

(** [x] is [k] stored edges away from the start work: upstream of it for
    [Up], downstream for [Down]. *)
Definition reach (s : Store) (root : Work) (dir : Direction) (x : string)
    (k : Z) : Prop :=
  match dir with
  | Up => hops (workEdges s) x (work_id root) k
  | Down => hops (workEdges s) (work_id root) x k
  end.

(** Both ends of every stored edge are stored works (the foreign keys of
    the edge table). *)
Definition edges_resolve (s : Store) : Prop :=
  forall e, e ∈ workEdges s ->
            edge_fromWorkId e ∈ work_id <$> works s
            /\ edge_toWorkId e ∈ work_id <$> works s.

(** The distance [k] is within the depth the request asked for; a depth
    that is not a number bounds nothing. *)
Definition in_range (depth : Js.number) (k : Z) : Prop :=
  match depth with
  | Js.NaN => True
  | Js.Int n => k <= Z.max n 0
  end.

(** The expansions made so far: work, direction and depth. *)
Definition Log := list (string * Direction * Z).

(** The queue holds items of depth [c], then items of depth [c + 1]. *)
Definition leveled (c : Z) (q : list QueueItem) : Prop :=
  exists q1 q2,
    q = q1 ++ q2
    /\ Forall (fun i => item_currentDepth i = c) q1
    /\ Forall (fun i => item_currentDepth i = c + 1) q2.

(** The item for [x] in direction [dir] at depth [d] is dealt with: it is
    at the depth bound, or [x] was expanded in that direction at depth [d]
    or less, or the item waits in the queue. *)
Definition settled (depth : Js.number) (E : Log) (t : Traversal) (x : string)
    (dir : Direction) (d : Z) : Prop :=
  Js.ge d depth = true
  \/ (exists d', (x, dir, d') ∈ E /\ d' <= d)
  \/ {| item_workId := x; item_direction := dir; item_currentDepth := d |}
     ∈ queue t.

(** The breadth-first invariant of the loop, with the log [E] of the
    expansions made and the depth [c] of the level being worked on. *)
Record bfs_inv (s : Store) (root : Work) (depth : Js.number) (E : Log) (c : Z)
    (t : Traversal) : Prop := {
  inv_level : 0 <= c;
  inv_visited :
    forall x dir, visitKey x dir ∈ visited t -> exists d, (x, dir, d) ∈ E;
  inv_log :
    forall x dir d, (x, dir, d) ∈ E -> d <= c /\ Js.ge d depth = false;
  inv_queue : leveled c (queue t);
  inv_nodes :
    forall k n, (k, n) ∈ nodes t ->
                node_id n = k /\ Z.abs (node_depth n) <= c + 1;
  inv_root :
    exists n, nodes_get (nodes t) (work_id root) = Some n /\ node_depth n = 0;
  inv_start : forall dir, settled depth E t (work_id root) dir 0;
  inv_expanded :
    forall x dir d e,
      (x, dir, d) ∈ E -> e ∈ workEdges s -> here dir e = x ->
      (exists n, nodes_get (nodes t) (beyond dir e) = Some n
                 /\ Z.abs (node_depth n) <= d + 1)
      /\ settled depth E t (beyond dir e) dir (d + 1)
}.

(* ===================================================================== *)
(** ** API keys (src/lib/apiAuth.ts) *)
(* ===================================================================== *)

Record ApiKey := {
  apikey_id : string;
  apikey_key : string;
  apikey_userId : string;
  apikey_scopes : list string;
  apikey_expiresAt : option Z;
  apikey_lastUsedAt : option Z
}.

(** [{ valid: true, userId, scopes }] or [{ valid: false, error, scopes? }] *)
Inductive ApiKeyValidationResult :=
| ValidKey (userId : string) (scopes : list string)
| InvalidKey (error : string) (scopes : option (list string)).

(** [apiKey.expiresAt && apiKey.expiresAt < new Date()] *)
Definition expired (now : Z) (apiKey : ApiKey) : bool :=
  match apikey_expiresAt apiKey with
  | Some e => e <? now
  | None => false
  end.

(** [requiredScopes.every((scope) => apiKey.scopes.includes(scope))] *)
Definition hasAllScopes (requiredScopes : list string) (apiKey : ApiKey) : bool :=
  forallb (fun scope => bool_decide (scope ∈ apikey_scopes apiKey)) requiredScopes.

(** [prisma.apiKey.update({ where: { id }, data: { lastUsedAt: new Date() } })] *)
Fixpoint apiKey_touch (keys : list ApiKey) (id : string) (now : Z) : list ApiKey :=
  match keys with
  | [] => []
  | k :: r =>
      if bool_decide (apikey_id k = id)
      then {| apikey_id := apikey_id k; apikey_key := apikey_key k;
              apikey_userId := apikey_userId k; apikey_scopes := apikey_scopes k;
              apikey_expiresAt := apikey_expiresAt k;
              apikey_lastUsedAt := Some now |} :: r
      else k :: apiKey_touch r id now
  end.

(** [validateApiKey(key, requiredScopes)], with the key table it leaves:
    the update of [lastUsedAt] is not awaited and its failure is ignored
    ([tracked]: it went through).  As for the other handlers, the look-up
    is taken to answer; were it to throw, the result would be the invalid
    key ["Validation failed"], which the wrapper answers 401. *)
Definition validateApiKey (now : Z) (tracked : bool) (key : string)
    (requiredScopes : list string) (keys : list ApiKey)
  : ApiKeyValidationResult * list ApiKey :=
  if str_empty key || negb (String.prefix "sk_live_" key)
  then (InvalidKey "Invalid API key format" None, keys)
  else
    match find (fun k => bool_decide (apikey_key k = key)) keys with
    | None => (InvalidKey "API key not found" None, keys)
    | Some apiKey =>
        if expired now apiKey
        then (InvalidKey "API key has expired" None, keys)
        else if (0 <? length requiredScopes)%nat
                && negb (hasAllScopes requiredScopes apiKey)
        then (InvalidKey "Insufficient scopes" (Some (apikey_scopes apiKey)), keys)
        else (ValidKey (apikey_userId apiKey) (apikey_scopes apiKey),
              if tracked then apiKey_touch keys (apikey_id apiKey) now else keys)
    end.

Record ApiAuthContext := {
  ctx_userId : string;
  ctx_scopes : list string
}.

(** What a wrapped route answers: the handler's answer, or the wrapper's
    refusal [{ error, required?, available? }] with its status. *)
Inductive ApiReply (A : Type) :=
| Passed (answer : A)
| Refused (status : Z) (error : string)
    (required available : option (list string)).
Arguments Passed {A} answer.
Arguments Refused {A} status error required available.

(** [withApiKeyAuthParams(handler, requiredScopes)] applied to a request
    with the given [X-API-Key] header. *)
Definition withApiKeyAuthParams {A} (handler : ApiAuthContext -> A)
    (requiredScopes : list string) (now : Z) (tracked : bool)
    (header : option string) (keys : list ApiKey) : ApiReply A * list ApiKey :=
  match header with
  | None => (Refused 401 "Invalid or missing API key" None None, keys)
  | Some apiKey =>
      if str_empty apiKey
      then (Refused 401 "Invalid or missing API key" None None, keys)
      else
        match validateApiKey now tracked apiKey requiredScopes keys with
        | (InvalidKey error available, keys') =>
            if decide (error = "Insufficient scopes")
            then (Refused 403 "Insufficient scopes" (Some requiredScopes)
                    available, keys')
            else (Refused 401 (str_or (Some error) "Invalid or missing API key")
                    None None, keys')
        | (ValidKey userId scopes, keys') =>
            (Passed (handler {| ctx_userId := userId; ctx_scopes := scopes |}),
             keys')
        end
  end.

(** [API_SCOPES.WORKS_WRITE] *)
Definition WORKS_WRITE : string := "works:write".

(** The exported [POST] of the provenance route: the handler behind the
    key check.  A refused request does not reach the store. *)
Definition POST_provenance_v1 (env : Env) (fault : Fault) (tracked : bool)
    (header : option string) (workId : string) (body : option ProvenanceBody)
    (keys : list ApiKey) (s : Store)
  : ApiReply (Response ProvenanceReply) * list ApiKey * Store :=
  match withApiKeyAuthParams
          (fun _ => POST_provenance env fault workId body s)
          [WORKS_WRITE] (now env) tracked header keys with
  | (Passed (answer, s'), keys') => (Passed answer, keys', s')
  | (Refused st e r a, keys') => (Refused st e r a, keys', s)
  end.

(** [maskApiKey(key)] *)
Definition maskApiKey (key : Js.text) : Js.text :=
  if Js.length key <=? 11 then key
  else take 7 key ++ Js.of_string "..." ++ drop (length key - 4) key.

(** [generateApiKey()], with the 64 hexadecimal digits of the 32 random
    bytes. *)
Definition generateApiKey (hex : Js.text) : Js.text :=
  Js.of_string "sk_live_" ++ hex.

(* ===================================================================== *)
(** ** Webhook delivery (src/lib/webhooks.ts) *)
(* ===================================================================== *)

Record WebhookSubscription := {
  sub_id : string;
  sub_url : string;
  sub_secret : string;
  sub_events : list string;
  sub_active : bool;
  sub_failures : Z
}.

(** [prisma.webhookSubscription.update({ where: { id }, data })]: the table
    and the row after the update; [None] when there is no such row (the
    call throws). *)
Fixpoint subscription_update (subs : list WebhookSubscription) (id : string)
    (data : WebhookSubscription -> WebhookSubscription)
  : option (list WebhookSubscription * WebhookSubscription) :=
  match subs with
  | [] => None
  | x :: r =>
      if bool_decide (sub_id x = id) then Some (data x :: r, data x)
      else
        match subscription_update r id data with
        | Some (r', y) => Some (x :: r', y)
        | None => None
        end
  end.

Definition set_failures (f : Z -> Z) (x : WebhookSubscription)
  : WebhookSubscription :=
  {| sub_id := sub_id x; sub_url := sub_url x; sub_secret := sub_secret x;
     sub_events := sub_events x; sub_active := sub_active x;
     sub_failures := f (sub_failures x) |}.

Definition deactivate (x : WebhookSubscription) : WebhookSubscription :=
  {| sub_id := sub_id x; sub_url := sub_url x; sub_secret := sub_secret x;
     sub_events := sub_events x; sub_active := false;
     sub_failures := sub_failures x |}.

(** [recordFailure(subscriptionId)]; an error of the store is logged and
    swallowed. *)
Definition recordFailure (subscriptionId : string)
    (subs : list WebhookSubscription) : list WebhookSubscription :=
  match subscription_update subs subscriptionId (set_failures (fun n => n + 1)) with
  | None => subs
  | Some (subs1, subscription) =>
      if 10 <=? sub_failures subscription then
        match subscription_update subs1 subscriptionId deactivate with
        | Some (subs2, _) => subs2
        | None => subs1
        end
      else subs1
  end.

(** [.update({ where: { id }, data: { failures: 0 } }).catch(() => {})] *)
Definition resetFailures (subscriptionId : string)
    (subs : list WebhookSubscription) : list WebhookSubscription :=
  match subscription_update subs subscriptionId (set_failures (fun _ => 0)) with
  | None => subs
  | Some (subs1, _) => subs1
  end.

(** How one [fetch] ends: with a response, or by throwing (network error,
    time-out). *)
Inductive FetchResult :=
| Responded (status : Z)
| Threw (message : string).

(** [response.ok] *)
Definition response_ok (status : Z) : bool := (200 <=? status) && (status <=? 299).

(** The [error] of a failed delivery: [`Client error: ${status}`], the
    message of the exception, or ["Max retries exceeded"]. *)
Inductive DeliveryError :=
| ClientError (status : Z)
| Thrown (message : string)
| MaxRetries.

Record DeliveryOutcome := {
  dlv_success : bool;
  dlv_statusCode : option Z;
  dlv_error : option DeliveryError
}.

(** Exponential backoff: 1s, 4s, 16s *)
Definition delays : list Z := [1000; 4000; 16000].

(** The world of a delivery: the subscription table and the delays slept. *)
Record Delivery := {
  dlv_outcome : DeliveryOutcome;
  dlv_subs : list WebhookSubscription;
  dlv_slept : list Z
}.

(** The [for] loop of [deliverWebhook] from attempt [maxRetries - remaining]
    on; [fetch n] is how the [n]-th request ends. *)
Fixpoint deliver_loop (fetch : nat -> FetchResult) (subscriptionId : string)
    (maxRetries remaining : nat) (subs : list WebhookSubscription)
    (slept : list Z) : Delivery :=
  match remaining with
  | O =>
      {| dlv_outcome := {| dlv_success := false; dlv_statusCode := None;
                           dlv_error := Some MaxRetries |};
         dlv_subs := recordFailure subscriptionId subs;
         dlv_slept := slept |}
  | S remaining' =>
      let attempt := (maxRetries - remaining)%nat in
      let slept' :=
        if (attempt <? maxRetries - 1)%nat
        then slept ++ [default 0 (delays !! attempt)] else slept in
      match fetch attempt with
      | Responded status =>
          if response_ok status then
            {| dlv_outcome := {| dlv_success := true;
                                 dlv_statusCode := Some status;
                                 dlv_error := None |};
               dlv_subs := resetFailures subscriptionId subs;
               dlv_slept := slept |}
          else if (400 <=? status) && (status <? 500) then
            {| dlv_outcome := {| dlv_success := false;
                                 dlv_statusCode := Some status;
                                 dlv_error := Some (ClientError status) |};
               dlv_subs := recordFailure subscriptionId subs;
               dlv_slept := slept |}
          else
            deliver_loop fetch subscriptionId maxRetries remaining' subs slept'
      | Threw message =>
          if (attempt <? maxRetries - 1)%nat then
            deliver_loop fetch subscriptionId maxRetries remaining' subs slept'
          else
            {| dlv_outcome := {| dlv_success := false; dlv_statusCode := None;
                                 dlv_error := Some (Thrown message) |};
               dlv_subs := recordFailure subscriptionId subs;
               dlv_slept := slept |}
      end
  end.

(** [deliverWebhook(url, payload, headers, subscriptionId)] *)
Definition deliverWebhook (fetch : nat -> FetchResult) (subscriptionId : string)
    (subs : list WebhookSubscription) : Delivery :=
  deliver_loop fetch subscriptionId 3 3 subs [].

(** [where: { active: true, events: { has: event } }] *)
Definition subscribed (event : string) (x : WebhookSubscription) : bool :=
  sub_active x && bool_decide (event ∈ sub_events x).

Record DeliveryResult := {
  res_subscriptionId : string;
  res_url : string;
  res_outcome : DeliveryOutcome
}.

(** The order in which deliveries started together finish: the
    subscriptions by the time [finish] gives each of them. *)
Fixpoint insert_by_finish (finish : string -> nat) (x : WebhookSubscription)
    (l : list WebhookSubscription) : list WebhookSubscription :=
  match l with
  | [] => [x]
  | y :: r =>
      if (finish (sub_id x) <=? finish (sub_id y))%nat then x :: y :: r
      else y :: insert_by_finish finish x r
  end.

Definition finish_order (finish : string -> nat)
    (l : list WebhookSubscription) : list WebhookSubscription :=
  foldr (insert_by_finish finish) [] l.

(** [dispatchWebhook(event, data)]: one delivery to each subscription found
    at the start.  The deliveries run in parallel under
    [Promise.allSettled]; each reads and writes the row of its own
    subscription only (the id is the key of the table), and pushes its
    result when it finishes: the results come in the order of completion,
    which [finish] decides, not in the order in which [findMany] (which
    has no [orderBy]) returned the subscriptions.  [net id n] is how the
    [n]-th request to the subscription [id] ends. *)
Definition dispatchWebhook (net : string -> nat -> FetchResult)
    (finish : string -> nat) (event : string)
    (subs : list WebhookSubscription)
  : list DeliveryResult * list WebhookSubscription :=
  foldl (fun acc subscription =>
           let d := deliverWebhook (net (sub_id subscription))
                      (sub_id subscription) acc.2 in
           (acc.1 ++ [ {| res_subscriptionId := sub_id subscription;
                          res_url := sub_url subscription;
                          res_outcome := dlv_outcome d |} ],
            dlv_subs d))
    ([], subs)
    (finish_order finish (filter (fun x => subscribed event x = true) subs)).

(** A subscription row is sound: its failure count is not negative, and an
    active one has failed fewer than 10 times in a row. *)
Definition sub_ok (x : WebhookSubscription) : Prop :=
  0 <= sub_failures x /\ (sub_active x = true -> sub_failures x < 10).

(** The row of a subscription after a delivery that failed. *)
Definition failed_row (x : WebhookSubscription) : WebhookSubscription :=
  {| sub_id := sub_id x; sub_url := sub_url x; sub_secret := sub_secret x;
     sub_events := sub_events x;
     sub_active := if 10 <=? sub_failures x + 1 then false else sub_active x;
     sub_failures := sub_failures x + 1 |}.

(** A request that is tried again: a response that is neither a success
    nor a client error, or an exception. *)
Definition retried (r : FetchResult) : bool :=
  match r with
  | Responded status =>
      negb (response_ok status) && negb ((400 <=? status) && (status <? 500))
  | Threw _ => true
  end.

Definition succeeded (r : FetchResult) : bool :=
  match r with
  | Responded status => response_ok status
  | Threw _ => false
  end.

(* ===================================================================== *)
(** ** Lemmas on the store queries *)
(* ===================================================================== *)

Lemma find_only {A} (P : A -> bool) (l : list A) (x : A) :
  x ∈ l -> P x = true -> (forall y, y ∈ l -> P y = true -> y = x) ->
  find P l = Some x.
Proof.
  induction l as [|y l IH]; intros Hin HP Huniq.
  - by apply elem_of_nil in Hin.
  - simpl. destruct (P y) eqn:HPy.
    + f_equal. apply Huniq; [left | done].
    + apply IH.
      * apply elem_of_cons in Hin as [->|Hin]; [congruence | done].
      * done.
      * intros z Hz. apply Huniq. by right.
Qed.

Lemma find_elem {A} (P : A -> bool) (l : list A) (x : A) :
  find P l = Some x -> x ∈ l /\ P x = true.
Proof.
  induction l as [|y l IH]; simpl; [done|].
  destruct (P y) eqn:HPy.
  - intros [= ->]. split; [left | done].
  - intros H. destruct (IH H). split; [by right | done].
Qed.

Lemma find_none {A} (P : A -> bool) (l : list A) :
  find P l = None -> forall x, x ∈ l -> P x = false.
Proof.
  induction l as [|y l IH]; simpl; intros H x Hx.
  - by apply elem_of_nil in Hx.
  - destruct (P y) eqn:HPy; [done|].
    apply elem_of_cons in Hx as [->|Hx]; [done | by apply IH].
Qed.

Lemma NoDup_fmap_eq {A B} (f : A -> B) (l : list A) (x y : A) :
  NoDup (f <$> l) -> x ∈ l -> y ∈ l -> f x = f y -> x = y.
Proof.
  induction l as [|z l IH]; intros Hnd Hx Hy Hf.
  - by apply elem_of_nil in Hx.
  - rewrite fmap_cons in Hnd. apply NoDup_cons in Hnd as [Hz Hnd].
    apply elem_of_cons in Hx as [->|Hx]; apply elem_of_cons in Hy as [->|Hy].
    + done.
    + exfalso. apply Hz. rewrite Hf. by apply list_elem_of_fmap_2.
    + exfalso. apply Hz. rewrite <- Hf. by apply list_elem_of_fmap_2.
    + by apply IH.
Qed.

(** With sound keys, a work is resolved by its id and by its slug. *)
Lemma resolve_by_id (ws : list Work) (w : Work) :
  keys_ok ws -> w ∈ ws -> findFirst_id_or_slug ws (work_id w) = Some w.
Proof.
  intros (Hid & Hslug & Hx) Hw. apply find_only; [done | |].
  - rewrite bool_decide_eq_true_2; done.
  - intros y Hy Hm. apply orb_true_iff in Hm as [Hm|Hm];
      apply bool_decide_eq_true in Hm.
    + by apply (NoDup_fmap_eq work_id ws).
    + by apply Hx.
Qed.

Lemma resolve_by_slug (ws : list Work) (w : Work) :
  keys_ok ws -> w ∈ ws -> findFirst_id_or_slug ws (work_slug w) = Some w.
Proof.
  intros (Hid & Hslug & Hx) Hw. apply find_only; [done | |].
  - rewrite (bool_decide_eq_true_2 (work_slug w = work_slug w)); [|done].
    apply orb_true_r.
  - intros y Hy Hm. apply orb_true_iff in Hm as [Hm|Hm];
      apply bool_decide_eq_true in Hm.
    + symmetry. by apply Hx.
    + by apply (NoDup_fmap_eq work_slug ws).
Qed.

(** [work_update] rewrites exactly the first row carrying the id. *)
Lemma work_update_spec (ws : list Work) (id : string) (data : Work -> Work) (w : Work) :
  findUnique_id ws id = Some w ->
  exists before after,
    ws = before ++ w :: after
    /\ (forall x, x ∈ before -> work_id x <> id)
    /\ work_update ws id data = Some (before ++ data w :: after).
Proof.
  unfold findUnique_id.
  induction ws as [|x ws IH]; simpl; [done|].
  case_bool_decide as Hx.
  - intros [= ->]. exists [], ws. split_and!; [done | | done].
    intros y Hy. by apply elem_of_nil in Hy.
  - intros Hf. destruct (IH Hf) as (before & after & -> & Hb & Hu).
    exists (x :: before), after. split_and!; [done | |].
    + intros y Hy. apply elem_of_cons in Hy as [->|Hy]; [done | by apply Hb].
    + by rewrite Hu.
Qed.

Lemma work_update_none (ws : list Work) (id : string) (data : Work -> Work) :
  findUnique_id ws id = None -> work_update ws id data = None.
Proof.
  unfold findUnique_id.
  induction ws as [|x ws IH]; simpl; [done|].
  case_bool_decide; [done|]. intros Hf. by rewrite IH.
Qed.

Lemma findUnique_id_middle (before after : list Work) (w : Work) :
  (forall x, x ∈ before -> work_id x <> work_id w) ->
  findUnique_id (before ++ w :: after) (work_id w) = Some w.
Proof.
  unfold findUnique_id. induction before as [|x before IH]; intros Hb; simpl.
  - by rewrite bool_decide_eq_true_2.
  - rewrite bool_decide_eq_false_2; [|apply Hb; left].
    apply IH. intros y Hy. apply Hb. by right.
Qed.

Lemma findUnique_id_elem (ws : list Work) (w : Work) :
  NoDup (work_id <$> ws) -> w ∈ ws -> findUnique_id ws (work_id w) = Some w.
Proof.
  intros Hnd Hw. apply find_only; [done | by rewrite bool_decide_eq_true_2 |].
  intros y Hy Hm. apply bool_decide_eq_true in Hm.
  by apply (NoDup_fmap_eq work_id ws).
Qed.

Lemma work_update_write_spec (id : string) (data : Work -> Work) (s : Store) :
  (forall w, work_id (data w) = work_id w) ->
  match findUnique_id (works s) id with
  | None => work_update_write id data s = None
  | Some w =>
      exists before after,
        works s = before ++ w :: after
        /\ (forall x, x ∈ before -> work_id x <> id)
        /\ work_id w = id
        /\ work_update_write id data s
           = Some (data w, set_works s (before ++ data w :: after))
  end.
Proof.
  intros Hid. unfold work_update_write.
  destruct (findUnique_id (works s) id) as [w|] eqn:Hf.
  - destruct (work_update_spec _ _ data _ Hf) as (before & after & Hws & Hb & Hu).
    apply find_elem in Hf as [_ Hw]. apply bool_decide_eq_true in Hw.
    exists before, after. split_and!; [done..|].
    rewrite Hu. rewrite <- Hw at 1. rewrite <- (Hid w).
    rewrite findUnique_id_middle; [done|].
    intros x Hx. rewrite Hid, Hw. by apply Hb.
  - by rewrite work_update_none.
Qed.

Lemma find_middle {A} (P : A -> bool) (before after : list A) (y : A) :
  (forall x, x ∈ before -> P x = false) -> P y = true ->
  find P (before ++ y :: after) = Some y.
Proof.
  intros Hb Hy. induction before as [|x before IH]; simpl.
  - by rewrite Hy.
  - rewrite Hb; [|left]. apply IH. intros z Hz. apply Hb. by right.
Qed.

Lemma find_middle_inv {A} (P : A -> bool) (before after : list A) (y : A) :
  find P (before ++ y :: after) = Some y -> y ∉ before ->
  forall x, x ∈ before -> P x = false.
Proof.
  induction before as [|z before IH]; simpl; intros Hf Hy x Hx.
  - by apply elem_of_nil in Hx.
  - apply not_elem_of_cons in Hy as [Hyz Hy].
    destruct (P z) eqn:HPz; [congruence|].
    apply elem_of_cons in Hx as [->|Hx]; [done | by apply IH].
Qed.

(* ===================================================================== *)
(** ** The promotion engine *)
(* ===================================================================== *)

(** For a string, the justification test is the test on the trimmed length. *)
Lemma justification_rejected_string (t : Js.text) :
  justification_rejected (Js.JString t) = (Js.length (Js.trim t) <? 10).
Proof. destruct t; reflexivity. Qed.

(** Anything that is not a string is rejected. *)
Lemma justification_rejected_other (v : Js.value) :
  is_string v = false -> justification_rejected v = true.
Proof.
  unfold justification_rejected. intros ->. simpl.
  by rewrite orb_true_r.
Qed.

Lemma promote_data_id env user nxt w : work_id (promote_data env user nxt w) = work_id w.
Proof. reflexivity. Qed.

(** A valid promotion of a resolved work commits: the answer, and the store
    it leaves. *)
Lemma promote_commits (env : Env) (user : SessionUser) (id : string)
    (j : Js.value) (s : Store) (w : Work) (nxt : WorkStatus) :
  NoDup (work_id <$> works s) ->
  findFirst_id_or_slug (works s) id = Some w ->
  VALID_PROMOTIONS (work_status w) = Some nxt ->
  justification_rejected j = false ->
  exists before after,
    works s = before ++ w :: after
    /\ promote env NoFault user id j s
       = (Ok 200 {| promoted_work := promote_data env user nxt w;
                    promoted_event := promotion_event env user w nxt j |},
          {| works := before ++ promote_data env user nxt w :: after;
             workEdges := workEdges s;
             promotionEvents :=
               promotionEvents s ++ [promotion_event env user w nxt j];
             o8Provenances := o8Provenances s |})
    /\ findFirst_id_or_slug (before ++ promote_data env user nxt w :: after) id
       = Some (promote_data env user nxt w)
    /\ NoDup (work_id <$> before ++ promote_data env user nxt w :: after).
Proof.
  intros Hnd Hf Hnxt Hj.
  pose proof (find_elem _ _ _ Hf) as [Hin Hmatch].
  pose proof (findUnique_id_elem _ _ Hnd Hin) as Hu.
  pose proof (work_update_write_spec (work_id w) (promote_data env user nxt)
                (set_works s (works s)) (promote_data_id env user nxt)) as Hw.
  simpl in Hw. rewrite Hu in Hw.
  destruct Hw as (before & after & Hws & Hb & _ & Hupd).
  exists before, after. split; [done|]. split; [|split].
  - unfold promote. rewrite Hj, Hf, Hnxt.
    unfold transaction, attempt, promotionEvent_create.
    unfold work_update_write in *. simpl in *.
    destruct (work_update (works s) (work_id w) (promote_data env user nxt))
      as [ws'|]; [|done].
    destruct (findUnique_id ws' (work_id w)); [|done].
    injection Hupd as <- <-. reflexivity.
  - apply find_middle; [|exact Hmatch].
    apply (find_middle_inv _ before after w); [by rewrite <- Hws|].
    intros Hwb. by apply (Hb w Hwb).
  - rewrite Hws in Hnd. rewrite fmap_app, fmap_cons in *. exact Hnd.
Qed.

(** Whatever the request and whichever write the store refuses, a promotion
    leaves both writes or none. *)
Lemma promote_all_or_nothing (env : Env) (fault : Fault) (user : SessionUser)
    (id : string) (j : Js.value) (s : Store) :
  all_or_nothing s (promote env fault user id j s).
Proof.
  unfold promote.
  destruct (justification_rejected j); [left; simpl; eauto|].
  destruct (findFirst_id_or_slug (works s) id) as [work|]; [|left; simpl; eauto].
  destruct (VALID_PROMOTIONS (work_status work)) as [nxt|]; [|left; simpl; eauto].
  unfold transaction.
  destruct (attempt fault 0 _ s) as [[ev s1]|] eqn:H1; [|left; simpl; eauto].
  assert (ev = promotion_event env user work nxt j
          /\ works s1 = works s /\ workEdges s1 = workEdges s
          /\ o8Provenances s1 = o8Provenances s
          /\ promotionEvents s1 = promotionEvents s ++ [ev]) as (-> & Hw1 & He1 & Ho1 & Hp1).
  { unfold attempt, promotionEvent_create in H1.
    destruct fault as [|n|]; [|destruct (Nat.eqb n 0)|]; try done;
      by injection H1 as <- <-. }
  destruct (attempt fault 1 _ s1) as [[w s2]|] eqn:H2; [|left; simpl; eauto].
  assert (work_update_write (work_id work) (promote_data env user nxt) s1
          = Some (w, s2)) as Hupd.
  { unfold attempt in H2. destruct fault as [|n|]; [|destruct (Nat.eqb n 1)|]; done. }
  pose proof (work_update_write_spec (work_id work) (promote_data env user nxt)
                s1 (promote_data_id env user nxt)) as Hspec.
  destruct (findUnique_id (works s1) (work_id work)) as [old|]; [|congruence].
  destruct Hspec as (before & after & Hws & _ & Hid & Hupd').
  rewrite Hupd' in Hupd. injection Hupd as <- <-.
  right. exists (promotion_event env user work nxt j),
    (promote_data env user nxt old), old, before, after.
  destruct (dispatch_throws fault); simpl; rewrite <- Hw1;
    split_and!; first [done | by left | by right].
Qed.

(** When the webhook dispatch throws, the store is the one the promotion
    leaves when it returns, and a success is answered as the error 500. *)
Lemma promote_dispatch_fails (env : Env) (user : SessionUser) (id : string)
    (j : Js.value) (s : Store) :
  promote env DispatchFails user id j s
  = (match (promote env NoFault user id j s).1 with
     | Ok _ _ => Err 500 "Failed to promote work"
     | Err st e => Err st e
     end,
     (promote env NoFault user id j s).2).
Proof.
  unfold promote.
  destruct (justification_rejected j); [done|].
  destruct (findFirst_id_or_slug (works s) id) as [work|]; [|done].
  destruct (VALID_PROMOTIONS (work_status work)) as [nxt|]; [|done].
  unfold transaction, attempt.
  destruct (promotionEvent_create _ s) as [[ev s1]|]; [|done].
  by destruct (work_update_write _ _ s1) as [[w s2]|].
Qed.

(** C2.  From JAM, a promotion with a valid justification stores the work
    at PLATE, adds exactly one PromotionEvent (JAM to PLATE) and leaves the
    lock as it was (null stays null); a second one stores the work at
    CANON, locked at the time of the request by the signing curator, and
    adds exactly one PromotionEvent (PLATE to CANON).  The handler answers
    each with the work and the event when the webhook dispatch that follows
    the transaction returns; when the dispatch throws it answers 500, and
    the store is the same: both writes are committed.  Every promotion
    request, whatever write the store refuses and whether the dispatch
    returns or throws, leaves the event insert and the tier update both
    stored or both not stored; an answer of success comes only with
    both. *)
Theorem promote_jam_plate_canon (env1 env2 : Env) (user : SessionUser)
    (id : string) (t1 t2 : Js.text) (s : Store) (w : Work) :
  NoDup (work_id <$> works s) ->
  findFirst_id_or_slug (works s) id = Some w ->
  work_status w = JAM ->
  10 <= Js.length (Js.trim t1) ->
  10 <= Js.length (Js.trim t2) ->
  (exists w1 ev1 s1 w2 ev2 s2,
      promote env1 NoFault user id (Js.JString t1) s
      = (Ok 200 {| promoted_work := w1; promoted_event := ev1 |}, s1)
      /\ work_status w1 = PLATE
      /\ work_canonLockedAt w1 = work_canonLockedAt w
      /\ work_canonLockedByUserId w1 = work_canonLockedByUserId w
      /\ promotionEvents s1 = promotionEvents s ++ [ev1]
      /\ pe_workId ev1 = work_id w
      /\ pe_fromStatus ev1 = JAM /\ pe_toStatus ev1 = PLATE
      /\ pe_justification ev1 = Js.trim t1
      /\ findFirst_id_or_slug (works s1) id = Some w1
      /\ promote env2 NoFault user id (Js.JString t2) s1
         = (Ok 200 {| promoted_work := w2; promoted_event := ev2 |}, s2)
      /\ work_status w2 = CANON
      /\ work_canonLockedAt w2 = Some (now env2)
      /\ work_canonLockedByUserId w2 = Some (user_id user)
      /\ pe_signedByUserId ev2 = user_id user
      /\ promotionEvents s2 = promotionEvents s ++ [ev1; ev2]
      /\ pe_workId ev2 = work_id w
      /\ pe_fromStatus ev2 = PLATE /\ pe_toStatus ev2 = CANON
      /\ pe_justification ev2 = Js.trim t2
      /\ findFirst_id_or_slug (works s2) id = Some w2
      /\ promote env1 DispatchFails user id (Js.JString t1) s
         = (Err 500 "Failed to promote work", s1)
      /\ promote env2 DispatchFails user id (Js.JString t2) s1
         = (Err 500 "Failed to promote work", s2))
  /\ (forall env fault u i j s0, all_or_nothing s0 (promote env fault u i j s0)).
Proof.
  intros Hnd Hf Hjam Ht1 Ht2. split; [|intros; apply promote_all_or_nothing].
  assert (justification_rejected (Js.JString t1) = false) as Hj1.
  { rewrite justification_rejected_string. apply Z.ltb_ge. lia. }
  assert (justification_rejected (Js.JString t2) = false) as Hj2.
  { rewrite justification_rejected_string. apply Z.ltb_ge. lia. }
  destruct (promote_commits env1 user id _ s w PLATE Hnd Hf
              ltac:(by rewrite Hjam) Hj1)
    as (before & after & Hws & Hp1 & Hf1 & Hnd1).
  set (w1 := promote_data env1 user PLATE w) in *.
  set (s1 := {| works := before ++ w1 :: after; workEdges := workEdges s;
                promotionEvents := _; o8Provenances := o8Provenances s |}) in *.
  destruct (promote_commits env2 user id _ s1 w1 CANON Hnd1 Hf1 eq_refl Hj2)
    as (before' & after' & Hws' & Hp2 & Hf2 & _).
  exists w1, (promotion_event env1 user w PLATE (Js.JString t1)), s1,
    (promote_data env2 user CANON w1),
    (promotion_event env2 user w1 CANON (Js.JString t2)),
    {| works := before' ++ promote_data env2 user CANON w1 :: after';
       workEdges := workEdges s1;
       promotionEvents :=
         promotionEvents s1 ++ [promotion_event env2 user w1 CANON (Js.JString t2)];
       o8Provenances := o8Provenances s1 |}.
  split_and!;
    first [ exact Hp1 | exact Hp2 | exact Hf1 | exact Hf2 | exact Hjam
          | reflexivity | (simpl; by rewrite <- app_assoc)
          | (rewrite promote_dispatch_fails, Hp1; reflexivity)
          | (rewrite promote_dispatch_fails, Hp2; reflexivity) ].
Qed.

(** The lock of the sample JAM work is null and stays null at PLATE; it is
    set at CANON. *)
Lemma promote_jam_plate_canon_witness :
  work_canonLockedAt Sample.jam = None
  /\ exists w1 ev1 s1 w2 ev2 s2,
      promote Sample.env NoFault Sample.curator "w1" Sample.good Sample.archive
      = (Ok 200 {| promoted_work := w1; promoted_event := ev1 |}, s1)
      /\ work_status w1 = PLATE
      /\ work_canonLockedAt w1 = None
      /\ promote Sample.env NoFault Sample.curator "w1" Sample.confirmed s1
         = (Ok 200 {| promoted_work := w2; promoted_event := ev2 |}, s2)
      /\ work_status w2 = CANON
      /\ work_canonLockedAt w2 = Some (now Sample.env)
      /\ work_canonLockedByUserId w2 = Some (user_id Sample.curator)
      /\ promotionEvents s2 = [ev1; ev2].
Proof.
  split; [reflexivity|].
  destruct (promote_jam_plate_canon Sample.env Sample.env Sample.curator "w1"
              (Js.of_string "Exceptional craftsmanship and lasting cultural resonance.")
              (Js.of_string "Confirmed after community review period.")
              Sample.archive Sample.jam)
    as [(w1 & ev1 & s1 & w2 & ev2 & s2 & H) _].
  - apply (bool_decide_unpack _). vm_compute. exact I.
  - reflexivity.
  - reflexivity.
  - vm_compute. discriminate.
  - vm_compute. discriminate.
  - destruct H as (P1 & S1 & L1 & _ & _ & _ & _ & _ & _ & _ & P2 & S2 & L2 & B2
                   & _ & E2 & _).
    exists w1, ev1, s1, w2, ev2, s2. split_and!; try done.
Defined.

(** C3, as stated, fails: on the sample CANON work the justification
    "anything" (8 characters) is answered with the validation error, not
    with the terminal-state error. *)
Lemma promote_canon_anything_counterexample :
  findFirst_id_or_slug (works Sample.archive) "w3" = Some Sample.canon
  /\ work_status Sample.canon = CANON
  /\ (promote Sample.env NoFault Sample.curator "w3"
        (Js.JString Sample.anything) Sample.archive).1
     = ValidationError
  /\ @ValidationError Promotion <> TerminalState.
Proof. split_and!; [reflexivity | reflexivity | reflexivity | discriminate]. Qed.

(** C3, amended.  Every promotion request on a work at CANON fails and
    leaves the store as it was (no new PromotionEvent, no field of any work
    changed): with TerminalState when the justification is a string of
    trimmed length at least 10, with ValidationError otherwise. *)
Theorem promote_canon_refused (env : Env) (fault : Fault) (user : SessionUser)
    (id : string) (j : Js.value) (s : Store) (w : Work) :
  findFirst_id_or_slug (works s) id = Some w ->
  work_status w = CANON ->
  promote env fault user id j s
  = (if justification_rejected j then ValidationError else TerminalState, s).
Proof.
  intros Hf Hc. unfold promote. destruct (justification_rejected j); [done|].
  by rewrite Hf, Hc.
Qed.

Lemma promote_canon_refused_witness :
  promote Sample.env NoFault Sample.curator "midnight-echoes-a3b2"
    Sample.good Sample.archive
  = (TerminalState, Sample.archive).
Proof.
  apply (promote_canon_refused Sample.env NoFault Sample.curator
           "midnight-echoes-a3b2" Sample.good Sample.archive Sample.canon);
    reflexivity.
Defined.

(** C4, as stated, fails: an id that resolves to no work, sent with a
    justification of trimmed length below 10, is answered with the
    validation error, not with NotFound. *)
Lemma promote_unknown_short_counterexample :
  findFirst_id_or_slug (works Sample.archive) "no-such-work" = None
  /\ Js.length (Js.trim Sample.anything) < 10
  /\ (promote Sample.env NoFault Sample.curator "no-such-work"
        (Js.JString Sample.anything) Sample.archive).1
     = ValidationError
  /\ @ValidationError Promotion <> NotFound.
Proof. split_and!; [reflexivity | reflexivity | reflexivity | discriminate]. Qed.

(** C4, amended.  promote validates the justification first and resolves
    the work second: a request whose id resolves to no work is answered
    with NotFound when the justification is a string of trimmed length at
    least 10, and with ValidationError otherwise; the store is unchanged. *)
Theorem promote_unresolved (env : Env) (fault : Fault) (user : SessionUser)
    (id : string) (j : Js.value) (s : Store) :
  findFirst_id_or_slug (works s) id = None ->
  promote env fault user id j s
  = (if justification_rejected j then ValidationError else NotFound, s).
Proof.
  intros Hf. unfold promote. destruct (justification_rejected j); [done|].
  by rewrite Hf.
Qed.

Lemma promote_unresolved_witness :
  promote Sample.env NoFault Sample.curator "no-such-work" Sample.good
    Sample.archive
  = (NotFound, Sample.archive).
Proof.
  apply (promote_unresolved Sample.env NoFault Sample.curator "no-such-work"
           Sample.good Sample.archive).
  reflexivity.
Defined.

(** C5.  A promotion request whose justification has trimmed length below
    10 is answered with ValidationError and leaves the store as it was,
    whatever the work, its tier and the state of the store; so does a
    request whose justification is not a string.  The route handler makes
    the test itself on every request of an authorised curator: no input
    of the handler carries a confirmation made by the client. *)
Theorem promote_short_justification (env : Env) (fault : Fault)
    (user : SessionUser) (id : string) (t : Js.text) (s : Store) :
  Js.length (Js.trim t) < 10 ->
  promote env fault user id (Js.JString t) s = (ValidationError, s)
  /\ (forall session,
        requireCurator session = Authorized user ->
        POST_promote env fault session id (Some (Js.JString t)) s
        = (ValidationError, s))
  /\ (forall v, is_string v = false ->
        promote env fault user id v s = (ValidationError, s)).
Proof.
  intros Ht.
  assert (promote env fault user id (Js.JString t) s = (ValidationError, s)) as H.
  { unfold promote. rewrite justification_rejected_string.
    by rewrite (proj2 (Z.ltb_lt _ _) Ht). }
  split_and!; [done | |].
  - intros session Hs. unfold POST_promote. by rewrite Hs.
  - intros v Hv. unfold promote. by rewrite justification_rejected_other.
Qed.

Lemma promote_short_justification_witness :
  promote Sample.env NoFault Sample.curator "w1" (Js.JString Sample.anything)
    Sample.archive
  = (ValidationError, Sample.archive).
Proof.
  destruct (promote_short_justification Sample.env NoFault Sample.curator "w1"
              Sample.anything Sample.archive) as [H _]; [reflexivity | exact H].
Defined.

(* ===================================================================== *)
(** ** The edge registry *)
(* ===================================================================== *)

Lemma EdgeType_of_name (ty : EdgeType) : EdgeType_of (EdgeType_name ty) = Some ty.
Proof. by destruct ty. Qed.

(** [createEdge] on present ids, by cases on what the store holds. *)
Lemma createEdge_cases (env : Env) (src tgt : string) (ty : EdgeType) (s : Store) :
  str_empty src = false -> str_empty tgt = false ->
  createEdge env src tgt ty s
  = match findUnique_id (works s) src, findUnique_id (works s) tgt with
    | Some _, Some toWork =>
        if decide (work_status toWork = CANON) then (ImmutableTarget, s)
        else match findEdge (workEdges s) src tgt with
             | Some _ => (DuplicateEdge, s)
             | None => (Ok 201 (new_edge env src tgt ty),
                        add_edge s (new_edge env src tgt ty))
             end
    | _, _ => (EdgeNotFound, s)
    end.
Proof.
  intros Hs Ht. unfold createEdge, edges_request. simpl.
  rewrite Hs, Ht. simpl. rewrite EdgeType_of_name.
  destruct (findUnique_id (works s) src); [|done].
  destruct (findUnique_id (works s) tgt) as [toWork|]; [|done].
  destruct (decide (work_status toWork = CANON)); [done|].
  unfold attempt, workEdge_create. simpl.
  destruct (findEdge (workEdges s) src tgt); done.
Qed.

(** C6, as stated, fails: an empty source id resolves to no work, yet the
    request is refused as malformed (400), not as NotFound. *)
Lemma createEdge_empty_id_counterexample :
  findUnique_id (works Sample.archive) "" = None
  /\ (createEdge Sample.env "" "w2" FORK Sample.archive).1
     = Err 400 "Both fromWorkId and toWorkId are required"
  /\ @Err WorkEdge 400 "Both fromWorkId and toWorkId are required" <> EdgeNotFound.
Proof. split_and!; [reflexivity | reflexivity | discriminate]. Qed.

(** C6, amended.  With both ids present (non-empty), [createEdge] answers
    with a newly stored edge exactly when both ids resolve to works, the
    target is not at CANON and no edge is stored for the ordered pair; the
    new row is then the only change to the store.  Otherwise it fails with
    NotFound (an id resolves to no work), ImmutableTarget (the target is at
    CANON) or DuplicateEdge (the pair is stored), and the store is
    unchanged.  A request with an empty id is refused as malformed (400)
    and also leaves the store unchanged. *)
Theorem createEdge_outcomes (env : Env) (src tgt : string) (ty : EdgeType)
    (s : Store) :
  (str_empty src = true \/ str_empty tgt = true ->
   createEdge env src tgt ty s
   = (Err 400 "Both fromWorkId and toWorkId are required", s))
  /\ (str_empty src = false -> str_empty tgt = false ->
      ((exists e s', createEdge env src tgt ty s = (Ok 201 e, s'))
       <-> (is_Some (findUnique_id (works s) src)
            /\ (exists t, findUnique_id (works s) tgt = Some t
                          /\ work_status t <> CANON)
            /\ findEdge (workEdges s) src tgt = None))
      /\ (forall e s',
            createEdge env src tgt ty s = (Ok 201 e, s') ->
            e = new_edge env src tgt ty /\ s' = add_edge s e)
      /\ (findUnique_id (works s) src = None
          \/ findUnique_id (works s) tgt = None ->
          createEdge env src tgt ty s = (EdgeNotFound, s))
      /\ (forall t,
            is_Some (findUnique_id (works s) src) ->
            findUnique_id (works s) tgt = Some t ->
            work_status t = CANON ->
            createEdge env src tgt ty s = (ImmutableTarget, s))
      /\ (forall t,
            is_Some (findUnique_id (works s) src) ->
            findUnique_id (works s) tgt = Some t ->
            work_status t <> CANON ->
            is_Some (findEdge (workEdges s) src tgt) ->
            createEdge env src tgt ty s = (DuplicateEdge, s))
      /\ (forall st msg s',
            createEdge env src tgt ty s = (Err st msg, s') -> s' = s)).
Proof.
  split.
  - intros H. unfold createEdge, edges_request. simpl.
    destruct H as [-> | ->]; [done | by rewrite orb_true_r].
  - intros Hs Ht. rewrite (createEdge_cases env src tgt ty s Hs Ht).
    destruct (findUnique_id (works s) src) as [f|] eqn:Hf;
      destruct (findUnique_id (works s) tgt) as [t|] eqn:Hg;
      try destruct (decide (work_status t = CANON)) as [Hc|Hc];
      try destruct (findEdge (workEdges s) src tgt) as [e0|] eqn:He;
      (split_and!;
       [ split;
         [ intros (e & s' & H); try discriminate H;
           split_and!; eauto
         | intros ([? ?] & (t' & Ht' & Hc') & He'); try discriminate;
           try (injection Ht' as <-; done); eauto ]
       | intros e s' H; try discriminate H;
         injection H as <- <-; done
       | intros [H|H]; done
       | intros t' [? ?] Ht' Hc'; try discriminate;
         try (injection Ht' as <-; done); done
       | intros t' [? ?] Ht' Hc' [? ?]; try discriminate;
         try (injection Ht' as <-; done); done
       | intros st msg s' H; try discriminate H; by injection H as <- <- <- ]).
Qed.

Lemma createEdge_outcomes_witness :
  createEdge Sample.env "w1" "w3" FORK Sample.archive
  = (ImmutableTarget, Sample.archive).
Proof.
  destruct (createEdge_outcomes Sample.env "w1" "w3" FORK Sample.archive) as [_ H].
  destruct (H eq_refl eq_refl) as (_ & _ & _ & Hc & _).
  apply (Hc Sample.canon); [by eexists | reflexivity | reflexivity].
Defined.

Lemma findEdge_added (es : list WorkEdge) (e : WorkEdge) :
  is_Some (findEdge (es ++ [e]) (edge_fromWorkId e) (edge_toWorkId e)).
Proof.
  unfold findEdge. induction es as [|x es IH]; simpl.
  - rewrite !bool_decide_eq_true_2 by done. by eexists.
  - destruct (_ && _); [by eexists | done].
Qed.

(** Asking twice for the same ordered pair stores one edge: the second
    request, whatever its type, is answered with DuplicateEdge. *)
Lemma createEdge_twice (env env' : Env) (src tgt : string) (ty ty' : EdgeType)
    (s s' : Store) (e : WorkEdge) :
  str_empty src = false -> str_empty tgt = false ->
  createEdge env src tgt ty s = (Ok 201 e, s') ->
  workEdges s' = workEdges s ++ [e]
  /\ createEdge env' src tgt ty' s' = (DuplicateEdge, s').
Proof.
  intros Hs Ht. rewrite !createEdge_cases by done.
  destruct (findUnique_id (works s) src) as [f|] eqn:Hf; [|done].
  destruct (findUnique_id (works s) tgt) as [t|] eqn:Hg; [|done].
  destruct (decide (work_status t = CANON)) as [Hc|Hc]; [done|].
  destruct (findEdge (workEdges s) src tgt) eqn:He; [done|].
  intros [= <- <-]. split; [done|]. simpl. rewrite Hf, Hg.
  rewrite decide_False by done.
  destruct (findEdge_added (workEdges s) (new_edge env src tgt ty)) as [e0 He0].
  simpl in He0. by rewrite He0.
Qed.

(* ===================================================================== *)
(** ** Resolution of the work argument *)
(* ===================================================================== *)

(** C10, as stated, fails twice.  An argument that matches no id and no
    slug, sent to promote with a justification of trimmed length below 10,
    is answered with ValidationError, not NotFound.  And where a slug is
    also another work's id (ids and slugs each unique), promote by the
    work's slug and by its id reach different works. *)
Lemma resolution_counterexample :
  (findFirst_id_or_slug (works Sample.archive) "ghost" = None
   /\ (promote Sample.env NoFault Sample.curator "ghost"
         (Js.JString (Js.of_string "  too short ")) Sample.archive).1
      = ValidationError
   /\ @ValidationError Promotion <> NotFound)
  /\ (NoDup (work_id <$> works Sample.clash)
      /\ NoDup (work_slug <$> works Sample.clash)
      /\ Sample.work "a" "b" PLATE ∈ works Sample.clash
      /\ promote Sample.env NoFault Sample.curator "b" Sample.good Sample.clash
         <> promote Sample.env NoFault Sample.curator "a" Sample.good Sample.clash).
Proof.
  split; split_and!.
  - reflexivity.
  - reflexivity.
  - discriminate.
  - apply (bool_decide_unpack _). vm_compute. exact I.
  - apply (bool_decide_unpack _). vm_compute. exact I.
  - set_solver.
  - vm_compute. discriminate.
Qed.

(** C10, amended.  In a store whose keys are sound (ids unique, slugs
    unique, no slug equal to another work's id), promote and the lineage
    handler given a work's slug do exactly what they do given its id.  An
    argument that matches no id and no slug is answered with NotFound by
    the lineage handler, and by promote when the justification is valid
    (promote answers ValidationError before it looks the work up).
    createEdge resolves by id only: a present id argument that is no
    work's id, be it a slug, is answered with NotFound. *)
Theorem resolution_by_id_or_slug (env : Env) (fault : Fault) (user : SessionUser)
    (j : Js.value) (depth : Js.number) (s : Store) (w : Work) :
  keys_ok (works s) ->
  w ∈ works s ->
  findFirst_id_or_slug (works s) (work_slug w) = Some w
  /\ findFirst_id_or_slug (works s) (work_id w) = Some w
  /\ promote env fault user (work_slug w) j s
     = promote env fault user (work_id w) j s
  /\ GET_lineage s (work_slug w) depth = GET_lineage s (work_id w) depth
  /\ (forall x,
        (forall w', w' ∈ works s -> work_id w' <> x /\ work_slug w' <> x) ->
        GET_lineage s x depth = Some NotFound
        /\ promote env fault user x j s
           = (if justification_rejected j then ValidationError else NotFound, s))
  /\ (forall x y ty,
        str_empty x = false -> str_empty y = false ->
        (forall w', w' ∈ works s -> work_id w' <> x) ->
        createEdge env x y ty s = (EdgeNotFound, s)
        /\ createEdge env y x ty s = (EdgeNotFound, s)).
Proof.
  intros Hk Hw.
  pose proof (resolve_by_slug _ _ Hk Hw) as Hs.
  pose proof (resolve_by_id _ _ Hk Hw) as Hi.
  split_and!; [done | done | | | |].
  - unfold promote. by rewrite Hs, Hi.
  - unfold GET_lineage. by rewrite Hs, Hi.
  - intros x Hx.
    assert (findFirst_id_or_slug (works s) x = None) as Hn.
    { destruct (findFirst_id_or_slug (works s) x) as [w'|] eqn:Hf; [|done].
      apply find_elem in Hf as [Hin Hm]. destruct (Hx w' Hin) as [H1 H2].
      apply orb_true_iff in Hm as [Hm|Hm]; by apply bool_decide_eq_true in Hm. }
    split; [unfold GET_lineage; by rewrite Hn|].
    unfold promote. destruct (justification_rejected j); [done|]. by rewrite Hn.
  - intros x y ty Hx Hy Hnone.
    assert (findUnique_id (works s) x = None) as Hn.
    { destruct (findUnique_id (works s) x) as [w'|] eqn:Hf; [|done].
      apply find_elem in Hf as [Hin Hm]. apply bool_decide_eq_true in Hm.
      by destruct (Hnone w' Hin). }
    rewrite !createEdge_cases by done. rewrite Hn.
    split; [done|]. by destruct (findUnique_id (works s) y).
Qed.

(** The sample JAM work is promoted alike by id and by slug, and its slug
    is no id for the edge registry. *)
Lemma resolution_by_id_or_slug_witness :
  promote Sample.env NoFault Sample.curator "night-walk-k3x9" Sample.good
    Sample.archive
  = promote Sample.env NoFault Sample.curator "w1" Sample.good Sample.archive
  /\ createEdge Sample.env "night-walk-k3x9" "w2" FORK Sample.archive
     = (EdgeNotFound, Sample.archive).
Proof.
  assert (keys_ok (works Sample.archive)) as Hk.
  { split_and!.
    - apply (bool_decide_unpack _). vm_compute. exact I.
    - apply (bool_decide_unpack _). vm_compute. exact I.
    - intros w w' Hw Hw' He. simpl in Hw, Hw'.
      repeat (apply elem_of_cons in Hw as [->|Hw]);
        repeat (apply elem_of_cons in Hw' as [->|Hw']);
        try discriminate He; try done;
        try (by apply elem_of_nil in Hw); by apply elem_of_nil in Hw'. }
  destruct (resolution_by_id_or_slug Sample.env NoFault Sample.curator
              Sample.good (Js.Int 3) Sample.archive Sample.jam Hk)
    as (_ & _ & Hp & _ & _ & He).
  - set_solver.
  - split; [exact Hp|].
    apply (He "night-walk-k3x9" "w2" FORK); [reflexivity | reflexivity |].
    intros w' Hw'. simpl in Hw'.
    repeat (apply elem_of_cons in Hw' as [->|Hw']); try discriminate.
    by apply elem_of_nil in Hw'.
Defined.

(* ===================================================================== *)
(** ** Tier monotonicity and the CANON lock *)
(* ===================================================================== *)

(** A fault either stops a promotion, leaving the store as it was, or
    leaves the store the promotion without fault leaves. *)
Lemma promote_fault_cases (env : Env) (fault : Fault) (user : SessionUser)
    (id : string) (j : Js.value) (s : Store) :
  (promote env fault user id j s).2 = s
  \/ (promote env fault user id j s).2 = (promote env NoFault user id j s).2.
Proof.
  unfold promote.
  destruct (justification_rejected j); [by left|].
  destruct (findFirst_id_or_slug (works s) id) as [work|]; [|by left].
  destruct (VALID_PROMOTIONS (work_status work)) as [nxt|]; [|by left].
  destruct fault as [|[|[|n]]|];
    [by right | left; reflexivity | left; reflexivity | by right | right].
  simpl. unfold transaction, attempt.
  destruct (promotionEvent_create _ s) as [[ev s1]|]; [|done].
  by destruct (work_update_write _ _ s1) as [[w s2]|].
Qed.

(** The tier of every work row moves by at most one step of
    [VALID_PROMOTIONS] in a promotion request, and a row at CANON is left
    as it is. *)
Lemma promote_tier_forward (env : Env) (fault : Fault) (user : SessionUser)
    (id : string) (j : Js.value) (s : Store) :
  NoDup (work_id <$> works s) ->
  Forall2 (fun old new =>
             new = old
             \/ (VALID_PROMOTIONS (work_status old) = Some (work_status new)
                 /\ work_id new = work_id old))
    (works s) (works (promote env fault user id j s).2).
Proof.
  intros Hnd.
  assert (forall l : list Work,
             Forall2 (fun old new =>
                        new = old
                        \/ (VALID_PROMOTIONS (work_status old) = Some (work_status new)
                            /\ work_id new = work_id old)) l l) as Hrefl.
  { intros l. apply Forall2_same_length_lookup_2; [done|].
    intros i x y Hx Hy. left. congruence. }
  destruct (promote_fault_cases env fault user id j s) as [-> | ->]; [done|].
  destruct (justification_rejected j) eqn:Hj.
  { unfold promote. by rewrite Hj. }
  destruct (findFirst_id_or_slug (works s) id) as [w|] eqn:Hf.
  2:{ unfold promote. by rewrite Hj, Hf. }
  destruct (VALID_PROMOTIONS (work_status w)) as [nxt|] eqn:Hn.
  2:{ unfold promote. by rewrite Hj, Hf, Hn. }
  destruct (promote_commits env user id j s w nxt Hnd Hf Hn Hj)
    as (before & after & Hws & -> & _). simpl. rewrite Hws.
  apply Forall2_app; [done|]. constructor; [|done]. right. by split.
Qed.

(** The work update refuses a work at CANON. *)
Lemma PATCH_canon_refused (fault : Fault) (session : option SessionUser)
    (user : SessionUser) (id : string) (body : option PatchBody) (s : Store)
    (w : Work) :
  requireCreator session = Authorized user ->
  findFirst_id_or_slug (works s) id = Some w ->
  work_status w = CANON ->
  PATCH_work fault session id body s = (Err 403 "Cannot modify canonized works", s).
Proof.
  intros Ha Hf Hc. unfold PATCH_work. rewrite Ha, Hf.
  by rewrite decide_True.
Qed.

(** The work update never writes the tier. *)
Lemma patch_data_status (b : PatchBody) (w : Work) :
  work_status (patch_data b w) = work_status w.
Proof. reflexivity. Qed.

(** The CTAD update refuses a work at CANON. *)
Lemma POST_ctad_canon_refused {Updates : Type}
    (mergeCTAD : CTADMetadata -> Updates -> CTADMetadata)
    (validateCTAD : CTADMetadata -> bool) (fault : Fault) (workId : string)
    (u : Updates) (s : Store) (w : Work) :
  findUnique_id (works s) workId = Some w ->
  work_status w = CANON ->
  POST_ctad Updates mergeCTAD validateCTAD fault workId (Some (Some u)) s
  = (Err 403 "Cannot update CTAD for CANON works - they are immutable", s).
Proof.
  intros Hf Hc. unfold POST_ctad. rewrite Hf. by rewrite decide_True.
Qed.

(** C1, where the code departs from it.  The sample work is at CANON and
    locked; the provenance request on it is answered with success and
    rewrites the work's CTAD metadata: the row keeps its tier and its lock,
    but its [ctadMetadata] field is no longer what it was.  The sibling
    CTAD update refuses the same work as immutable. *)
Theorem provenance_rewrites_canon_work :
  findUnique_id (works Sample.archive) "w3" = Some Sample.canon
  /\ work_status Sample.canon = CANON
  /\ exists s' w',
      POST_provenance Sample.env NoFault "w3" (Some Sample.provenance)
        Sample.archive
      = (Ok 200 (ProvenanceAttached (freshId Sample.env) false), s')
      /\ findUnique_id (works s') "w3" = Some w'
      /\ work_status w' = CANON
      /\ work_canonLockedAt w' = work_canonLockedAt Sample.canon
      /\ work_ctadMetadata w' <> work_ctadMetadata Sample.canon
      /\ (work_ctadMetadata w' ≫= ctad_ai) ≫= ai_o8ProvenanceId
         = Some (freshId Sample.env).
Proof.
  split_and!; [reflexivity | reflexivity |].
  eexists _, _. split_and!.
  - vm_compute. reflexivity.
  - vm_compute. reflexivity.
  - reflexivity.
  - reflexivity.
  - vm_compute. discriminate.
  - reflexivity.
Qed.

(* ===================================================================== *)
(** ** The lineage traversal: what one iteration does *)
(* ===================================================================== *)

Lemma visit_parents_queue (d : Z) (rows : list (WorkEdge * Work)) (t : Traversal) :
  queue (foldl (visit_parent d) t rows) = queue t ++ (queued Up d <$> rows)
  /\ visited (foldl (visit_parent d) t rows) = visited t.
Proof.
  revert t. induction rows as [|[e w] rows IH]; intros t.
  - simpl. by rewrite app_nil_r.
  - destruct (IH (visit_parent d t (e, w))) as [H1 H2]. split.
    + etrans; [exact H1|]. simpl. by rewrite <- app_assoc.
    + etrans; [exact H2|]. done.
Qed.

Lemma visit_children_queue (d : Z) (rows : list (WorkEdge * Work)) (t : Traversal) :
  queue (foldl (visit_child d) t rows) = queue t ++ (queued Down d <$> rows)
  /\ visited (foldl (visit_child d) t rows) = visited t.
Proof.
  revert t. induction rows as [|[e w] rows IH]; intros t.
  - simpl. by rewrite app_nil_r.
  - destruct (IH (visit_child d t (e, w))) as [H1 H2]. split.
    + etrans; [exact H1|]. simpl. by rewrite <- app_assoc.
    + etrans; [exact H2|]. done.
Qed.

Lemma iteration_skipped (s : Store) (depth : Js.number) (i : QueueItem)
    (t : Traversal) :
  skipped depth (visited t) i = true -> iteration s depth i t = t.
Proof. intros H. unfold iteration. by rewrite H. Qed.

Lemma iteration_expanded (s : Store) (depth : Js.number) (i : QueueItem)
    (t : Traversal) :
  skipped depth (visited t) i = false ->
  queue (iteration s depth i t)
  = queue t ++ (queued (item_direction i) (item_currentDepth i)
                <$> fetch s (item_workId i) (item_direction i))
  /\ visited (iteration s depth i t)
     = {[ visitKey (item_workId i) (item_direction i) ]} ∪ visited t.
Proof.
  intros H. unfold iteration. rewrite H.
  destruct (item_direction i).
  - by destruct (visit_parents_queue (item_currentDepth i)
                   (fetch s (item_workId i) Up)
                   {| nodes := nodes t; edges := edges t;
                      visited := {[ visitKey (item_workId i) Up ]} ∪ visited t;
                      queue := queue t |}) as [-> ->].
  - by destruct (visit_children_queue (item_currentDepth i)
                   (fetch s (item_workId i) Down)
                   {| nodes := nodes t; edges := edges t;
                      visited := {[ visitKey (item_workId i) Down ]} ∪ visited t;
                      queue := queue t |}) as [-> ->].
Qed.

Lemma length_omap_le {A B} (f : A -> option B) (l : list A) :
  (length (omap f l) <= length l)%nat.
Proof.
  induction l as [|x l IH]; [done|].
  change (omap f (x :: l))
    with (match f x with Some y => y :: omap f l | None => omap f l end).
  destruct (f x); simpl; lia.
Qed.

Lemma fetch_length (s : Store) (w : string) (dir : Direction) :
  (length (fetch s w dir) <= length (workEdges s))%nat.
Proof.
  destruct dir; simpl; unfold include_work, edges_to, edges_from;
    (etrans; [apply length_omap_le | apply length_filter]).
Qed.

Lemma fetch_elem (s : Store) (w : string) (dir : Direction) (row : WorkEdge * Work) :
  row ∈ fetch s w dir ->
  row.1 ∈ workEdges s
  /\ match dir with
     | Up => edge_toWorkId row.1 = w
     | Down => edge_fromWorkId row.1 = w
     end.
Proof.
  destruct dir; simpl; unfold include_work, edges_to, edges_from;
    intros H; apply list_elem_of_omap in H as (e & He & Hrow);
    apply list_elem_of_filter in He as [Hw He];
    destruct (findUnique_id _ _); simplify_eq/=; done.
Qed.

Lemma edge_ends_known (s : Store) (root : Work) (e : WorkEdge) :
  e ∈ workEdges s ->
  edge_fromWorkId e ∈ known_ids s root /\ edge_toWorkId e ∈ known_ids s root.
Proof.
  intros He. unfold known_ids.
  split; apply elem_of_cons; right; apply list_elem_of_bind; exists e;
    (split; [|done]); set_solver.
Qed.

Lemma key_known (s : Store) (root : Work) (w : string) (dir : Direction) :
  w ∈ known_ids s root -> visitKey w dir ∈ known_keys s root.
Proof.
  intros Hw. unfold known_keys. apply list_elem_of_bind. exists w.
  split; [|done]. destruct dir; set_solver.
Qed.

(* ===================================================================== *)
(** ** Termination of the traversal *)
(* ===================================================================== *)

Lemma pending_le (keys : list string) (vis : gset string) :
  (pending keys vis <= length keys)%nat.
Proof. apply length_filter. Qed.

Lemma pending_visit (keys : list string) (vis : gset string) (k : string) :
  (pending keys ({[k]} ∪ vis) <= pending keys vis)%nat
  /\ (k ∈ keys -> k ∉ vis ->
      (pending keys ({[k]} ∪ vis) < pending keys vis)%nat).
Proof.
  unfold pending. induction keys as [|x keys [IH1 IH2]]; simpl.
  - split; [done|]. intros H. by apply elem_of_nil in H.
  - rewrite !filter_cons.
    destruct (decide (x ∉ {[k]} ∪ vis)) as [Hx|Hx];
      destruct (decide (x ∉ vis)) as [Hv|Hv]; simpl.
    + split; [lia|]. intros Hk Hkv.
      apply elem_of_cons in Hk as [->|Hk]; [set_solver|].
      specialize (IH2 Hk Hkv). lia.
    + set_solver.
    + split; [lia|]. intros _ _. lia.
    + split; [lia|]. intros Hk Hkv.
      apply elem_of_cons in Hk as [->|Hk]; [set_solver|].
      by apply IH2.
Qed.

Lemma known_keys_length (s : Store) (root : Work) :
  length (known_keys s root) = (2 * (1 + 2 * length (workEdges s)))%nat.
Proof.
  assert (forall (A : Type) (f : A -> list string) (l : list A),
             (forall x, length (f x) = 2%nat) ->
             length (l ≫= f) = (2 * length l)%nat) as Hbind.
  { intros A f l Hf. induction l as [|x l IH]; [done|].
    rewrite bind_cons, length_app, Hf, IH. simpl. lia. }
  unfold known_keys. rewrite Hbind by done. unfold known_ids. simpl.
  rewrite Hbind by done. lia.
Qed.

(** Each iteration lowers the measure, and keeps the queue among the known
    ids. *)
Lemma step_decreases (s : Store) (root : Work) (depth : Js.number)
    (t t' : Traversal) :
  queue_known s root t ->
  step s depth t = Some t' ->
  (measure s root t' < measure s root t)%nat /\ queue_known s root t'.
Proof.
  unfold queue_known, step, measure. intros Hq Hstep.
  destruct (queue t) as [|i rest] eqn:Hqueue; [done|].
  injection Hstep as <-. apply Forall_cons in Hq as [Hi Hrest].
  set (t0 := {| nodes := nodes t; edges := edges t; visited := visited t;
                queue := rest |}).
  destruct (skipped depth (visited t0) i) eqn:Hsk.
  - rewrite iteration_skipped by done. simpl. split; [lia | done].
  - destruct (iteration_expanded s depth i t0 Hsk) as [-> ->]. simpl.
    apply orb_false_iff in Hsk as [_ Hkey].
    apply bool_decide_eq_false in Hkey. simpl in Hkey.
    destruct (pending_visit (known_keys s root) (visited t)
                (visitKey (item_workId i) (item_direction i))) as [_ Hlt].
    specialize (Hlt (key_known s root _ _ Hi) Hkey).
    pose proof (fetch_length s (item_workId i) (item_direction i)) as Hlen.
    split.
    + rewrite length_app, length_fmap. simpl. nia.
    + apply Forall_app. split; [done|]. apply Forall_fmap, Forall_forall.
      intros row Hrow. apply fetch_elem in Hrow as [He _].
      destruct (edge_ends_known s root _ He). simpl.
      by destruct (item_direction i).
Qed.

(** With fuel for the measure, the loop runs to an empty queue. *)
Lemma loop_enough (s : Store) (root : Work) (depth : Js.number) (fuel : nat)
    (t : Traversal) :
  queue_known s root t ->
  (measure s root t <= fuel)%nat ->
  exists t', loop s depth fuel t = Some t' /\ queue t' = [].
Proof.
  revert t. induction fuel as [|fuel IH]; intros t Hq Hm.
  - exists t. unfold measure in Hm. destruct (queue t) as [|i rest] eqn:Hqueue.
    + split; [|done]. simpl. unfold step. by rewrite Hqueue.
    + simpl in Hm. lia.
  - simpl. destruct (step s depth t) as [t'|] eqn:Hstep.
    + destruct (step_decreases s root depth t t' Hq Hstep) as [Hlt Hq'].
      apply IH; [done | lia].
    + exists t. split; [done|]. unfold step in Hstep.
      by destruct (queue t).
Qed.

Lemma loop_more_fuel (s : Store) (depth : Js.number) (fuel fuel' : nat)
    (t t' : Traversal) :
  loop s depth fuel t = Some t' -> (fuel <= fuel')%nat ->
  loop s depth fuel' t = Some t'.
Proof.
  revert fuel' t. induction fuel as [|fuel IH]; intros fuel' t Hl Hle; simpl in Hl.
  - destruct (step s depth t) eqn:Hstep; [done|].
    destruct fuel'; simpl; by rewrite Hstep.
  - destruct fuel' as [|fuel']; [lia|]. simpl.
    destruct (step s depth t) eqn:Hstep; [|done].
    apply IH; [done | lia].
Qed.

Lemma start_measure (s : Store) (root : Work) :
  queue_known s root (start root)
  /\ (measure s root (start root) <= traversal_fuel s)%nat.
Proof.
  split.
  - unfold queue_known. simpl. repeat constructor; set_solver.
  - unfold measure, traversal_fuel. simpl.
    pose proof (pending_le (known_keys s root) ∅) as Hp.
    rewrite known_keys_length in Hp. nia.
Qed.

(** The loop started by the handler ends within [traversal_fuel]
    iterations, whatever the store, the start work and the depth bound. *)
Lemma loop_terminates (s : Store) (root : Work) (depth : Js.number) :
  exists t,
    loop s depth (traversal_fuel s) (start root) = Some t
    /\ queue t = []
    /\ buildGraph s root depth = Some (graph_of t).
Proof.
  destruct (start_measure s root) as [Hq Hm].
  destruct (loop_enough s root depth (traversal_fuel s) (start root) Hq Hm)
    as (t & Hl & He).
  exists t. split_and!; [done | done |]. unfold buildGraph. by rewrite Hl.
Qed.

Lemma step_visited (s : Store) (depth : Js.number) (t t' : Traversal) :
  step s depth t = Some t' -> visited t ⊆ visited t'.
Proof.
  unfold step. destruct (queue t) as [|i rest]; [done|]. intros [= <-].
  set (t0 := {| nodes := nodes t; edges := edges t; visited := visited t;
                queue := rest |}).
  destruct (skipped depth (visited t0) i) eqn:Hsk.
  - by rewrite iteration_skipped.
  - destruct (iteration_expanded s depth i t0 Hsk) as [_ ->]. set_solver.
Qed.

(** No (work, direction) pair is expanded twice, and the pairs still to
    be expanded have keys outside the visited set. *)
Lemma expansions_fresh (s : Store) (depth : Js.number) (fuel : nat) (t : Traversal) :
  NoDup (expansions s depth fuel t)
  /\ forall p, p ∈ expansions s depth fuel t -> visitKey p.1 p.2 ∉ visited t.
Proof.
  revert t. induction fuel as [|fuel IH]; intros t; simpl.
  { split; [constructor | intros p Hp; by apply elem_of_nil in Hp]. }
  destruct (queue t) as [|i rest] eqn:Hq.
  { split; [constructor | intros p Hp; by apply elem_of_nil in Hp]. }
  destruct (step s depth t) as [t'|] eqn:Hstep.
  2:{ split; [constructor | intros p Hp; by apply elem_of_nil in Hp]. }
  destruct (IH t') as [Hnd Hfresh].
  pose proof (step_visited s depth t t' Hstep) as Hsub.
  destruct (skipped depth (visited t) i) eqn:Hsk; simpl.
  - split; [done|]. intros p Hp Hin. apply (Hfresh p Hp). by apply Hsub.
  - assert (visitKey (item_workId i) (item_direction i) ∈ visited t') as Hin'.
    { unfold step in Hstep. rewrite Hq in Hstep. injection Hstep as <-.
      set (t0 := {| nodes := nodes t; edges := edges t; visited := visited t;
                    queue := rest |}).
      destruct (iteration_expanded s depth i t0 Hsk) as [_ ->]. set_solver. }
    split.
    + apply NoDup_cons. split; [|done]. intros Hp.
      by apply (Hfresh _ Hp).
    + intros p Hp. apply elem_of_cons in Hp as [->|Hp]; simpl.
      * apply orb_false_iff in Hsk as [_ Hkey].
        by apply bool_decide_eq_false in Hkey.
      * intros Hin. apply (Hfresh p Hp). by apply Hsub.
Qed.

(** C9.  For every store, start work and depth bound (a positive integer,
    or any other value [parseInt] can return), the traversal loop
    terminates: within [traversal_fuel] iterations the queue is empty and
    the graph is returned, and more fuel changes nothing.  The visited set
    is what bounds it: no (work, direction) pair is expanded twice, and
    every iteration lowers a measure made of the visit keys not yet seen
    and the length of the queue.  Cycles in the edge store play no part. *)
Theorem buildGraph_terminates (s : Store) (root : Work) (depth : Js.number) :
  (exists t,
      loop s depth (traversal_fuel s) (start root) = Some t
      /\ queue t = []
      /\ buildGraph s root depth = Some (graph_of t)
      /\ forall fuel, (traversal_fuel s <= fuel)%nat ->
                      loop s depth fuel (start root) = Some t)
  /\ (forall fuel, NoDup (expansions s depth fuel (start root)))
  /\ (forall t t',
        queue_known s root t -> steps_to s depth t t' ->
        (measure s root t' < measure s root t)%nat /\ queue_known s root t').
Proof.
  destruct (loop_terminates s root depth) as (t & Hl & He & Hb).
  split_and!.
  - exists t. split_and!; [done | done | done |].
    intros fuel Hf. by apply (loop_more_fuel s depth (traversal_fuel s)).
  - intros fuel. apply expansions_fresh.
  - intros t0 t' H0 Hs. by apply (step_decreases s root depth t0 t').
Qed.

(** On the two works that derive from each other the loop ends, with
    depth bound 2, after expanding each work once in each direction. *)
Lemma buildGraph_terminates_witness :
  is_Some (buildGraph Sample.cycle Sample.r (Js.Int 2))
  /\ expansions Sample.cycle (Js.Int 2) (traversal_fuel Sample.cycle)
       (start Sample.r)
     = [("r", Up); ("r", Down); ("a", Up); ("a", Down)].
Proof.
  destruct (buildGraph_terminates Sample.cycle Sample.r (Js.Int 2))
    as [(t & _ & _ & Hb & _) _].
  split; [by rewrite Hb | by vm_compute].
Defined.

(* ===================================================================== *)
(** ** Recorded edges *)
(* ===================================================================== *)

(** C7, where the code departs from it.  The store holds two works that
    derive from each other, one edge per ordered pair.  The traversal from
    [r] with depth bound 2 records the edge r -> a twice: once going down
    from [r], where the pair is looked up first, and once more going up
    from [a], where it is appended without a look-up. *)
Theorem buildGraph_records_edge_twice :
  edges_unique (workEdges Sample.cycle)
  /\ (pairs ∘ graph_edges) <$> buildGraph Sample.cycle Sample.r (Js.Int 2)
     = Some [("a", "r"); ("r", "a"); ("r", "a")]
  /\ forall g, buildGraph Sample.cycle Sample.r (Js.Int 2) = Some g ->
               ~ NoDup (pairs (graph_edges g)).
Proof.
  split_and!.
  - apply (bool_decide_unpack _). vm_compute. exact I.
  - vm_compute. reflexivity.
  - intros g Hg Hnd.
    assert (pairs (graph_edges g) = [("a", "r"); ("r", "a"); ("r", "a")]) as Hp.
    { vm_compute in Hg. injection Hg as <-. reflexivity. }
    rewrite Hp in Hnd. apply NoDup_cons in Hnd as [_ Hnd].
    apply NoDup_cons in Hnd as [Hin _]. apply Hin. left.
Qed.

(* ===================================================================== *)
(** ** Node depths *)
(* ===================================================================== *)

Lemma nodes_has_elem (m : NodeMap) (k : string) :
  nodes_has m k = true <-> k ∈ m.*1.
Proof.
  unfold nodes_has. induction m as [|[k' v] m IH]; simpl.
  - split; [done | intros H; by apply elem_of_nil in H].
  - rewrite orb_true_iff, IH, elem_of_cons, bool_decide_eq_true. naive_solver.
Qed.

Lemma nodes_set_fresh (m : NodeMap) (k : string) (v : LineageNode) :
  nodes_has m k = false -> nodes_set m k v = m ++ [(k, v)].
Proof.
  unfold nodes_has. induction m as [|[k' v'] m IH]; simpl; [done|].
  intros H. apply orb_false_iff in H as [Hk Hm]. rewrite Hk.
  by rewrite IH.
Qed.

Lemma nodes_get_app (m l : NodeMap) (k : string) (n : LineageNode) :
  nodes_get m k = Some n -> nodes_get (m ++ l) k = Some n.
Proof.
  unfold nodes_get. induction m as [|[k' v'] m IH]; simpl; [done|].
  destruct (bool_decide (k' = k)); [done | apply IH].
Qed.

Lemma nodes_get_elem (m : NodeMap) (k : string) (n : LineageNode) :
  nodes_get m k = Some n -> (k, n) ∈ m.
Proof.
  unfold nodes_get. intros H.
  destruct (find _ m) as [[k' n']|] eqn:Hf; [|done].
  injection H as <-. apply find_elem in Hf as [Hin Hk].
  apply bool_decide_eq_true in Hk. simpl in Hk. by subst.
Qed.

(** First write wins: an iteration of either inner loop leaves every node
    already in the map as it is. *)
Lemma visit_parent_keeps (d : Z) (t : Traversal) (row : WorkEdge * Work)
    (k : string) (n : LineageNode) :
  nodes_get (nodes t) k = Some n ->
  nodes_get (nodes (visit_parent d t row)) k = Some n.
Proof.
  destruct row as [e w]. simpl. intros H.
  destruct (nodes_has (nodes t) (edge_fromWorkId e)) eqn:Hh; [done|].
  rewrite nodes_set_fresh by done. by apply nodes_get_app.
Qed.

Lemma visit_child_keeps (d : Z) (t : Traversal) (row : WorkEdge * Work)
    (k : string) (n : LineageNode) :
  nodes_get (nodes t) k = Some n ->
  nodes_get (nodes (visit_child d t row)) k = Some n.
Proof.
  destruct row as [e w]. simpl. intros H.
  destruct (nodes_has (nodes t) (edge_toWorkId e)) eqn:Hh; [done|].
  rewrite nodes_set_fresh by done. by apply nodes_get_app.
Qed.

Lemma foldl_invariant {A B} (P : A -> Prop) (f : A -> B -> A) (l : list B) (a : A) :
  P a -> (forall a' b, b ∈ l -> P a' -> P (f a' b)) -> P (foldl f a l).
Proof.
  revert a. induction l as [|b l IH]; intros a Ha Hf; simpl; [done|].
  apply IH.
  - apply Hf; [left | done].
  - intros a' b' Hb'. apply Hf. by right.
Qed.

Lemma step_keeps (s : Store) (depth : Js.number) (t t' : Traversal)
    (k : string) (n : LineageNode) :
  step s depth t = Some t' ->
  nodes_get (nodes t) k = Some n -> nodes_get (nodes t') k = Some n.
Proof.
  unfold step. destruct (queue t) as [|i rest]; [done|]. intros [= <-] H.
  unfold iteration. destruct (skipped _ _ _); [done|].
  destruct (item_direction i);
    apply (foldl_invariant (fun t' => nodes_get (nodes t') k = Some n));
    try done; intros a' b _; [apply visit_parent_keeps | apply visit_child_keeps].
Qed.

Lemma steps_keep (s : Store) (depth : Js.number) (t t' : Traversal)
    (k : string) (n : LineageNode) :
  rtc (steps_to s depth) t t' ->
  nodes_get (nodes t) k = Some n -> nodes_get (nodes t') k = Some n.
Proof.
  induction 1 as [|t t1 t2 Hstep _ IH]; [done|].
  intros H. apply IH. by apply (step_keeps s depth t t1).
Qed.

(** The loop runs along [steps_to], and stops where no step is left. *)
Lemma loop_steps (s : Store) (depth : Js.number) (fuel : nat) (t t' : Traversal) :
  loop s depth fuel t = Some t' ->
  rtc (steps_to s depth) t t' /\ step s depth t' = None.
Proof.
  revert t. induction fuel as [|fuel IH]; intros t; simpl;
    destruct (step s depth t) as [t1|] eqn:Hstep; try done.
  - intros [= <-]. done.
  - intros Hl. destruct (IH t1 Hl) as [Hr Hn]. split; [|done].
    by apply (rtc_l _ t t1).
  - intros [= <-]. done.
Qed.

(** The steps are deterministic: every state reached on the way leads to
    the state the loop stops in. *)
Lemma steps_confluent (s : Store) (depth : Js.number) (t t1 t2 : Traversal) :
  rtc (steps_to s depth) t t1 -> rtc (steps_to s depth) t t2 ->
  step s depth t2 = None -> rtc (steps_to s depth) t1 t2.
Proof.
  intros H1. revert t2. induction H1 as [|t t' t1 Hstep _ IH]; intros t2 H2 Hn.
  - done.
  - apply IH; [|done]. inversion H2 as [|? t'' ? Hstep' Hrest]; subst.
    + unfold steps_to in Hstep. congruence.
    + unfold steps_to in Hstep, Hstep'. congruence.
Qed.

Lemma hops_snoc (es : list WorkEdge) (a b : string) (k : Z) (e : WorkEdge) :
  hops es a b k -> e ∈ es -> edge_fromWorkId e = b ->
  hops es a (edge_toWorkId e) (k + 1).
Proof.
  intros H He Hb. induction H as [a|e' c k He' _ IH].
  - subst a.
    apply (hops_edge es e (edge_toWorkId e) 0 He). constructor.
  - apply (hops_edge es e' (edge_toWorkId e) (k + 1) He'). by apply IH.
Qed.

Lemma nodes_has_app (m l : NodeMap) (k : string) :
  nodes_has m k = true -> nodes_has (m ++ l) k = true.
Proof.
  rewrite !nodes_has_elem, fmap_app, elem_of_app. by left.
Qed.

(** Appending a node under a fresh key keeps the node part of the invariant. *)
Lemma nodes_ok_add (s : Store) (root : Work) (depth : Js.number) (m : NodeMap)
    (n : LineageNode) :
  NoDup (m.*1) ->
  nodes_has m (work_id root) = true ->
  Forall (fun kv => node_id kv.2 = kv.1 /\ node_ok s root depth kv.2) m ->
  nodes_has m (node_id n) = false ->
  (node_id n <> work_id root -> node_ok s root depth n) ->
  NoDup ((nodes_set m (node_id n) n).*1)
  /\ nodes_has (nodes_set m (node_id n) n) (work_id root) = true
  /\ Forall (fun kv => node_id kv.2 = kv.1 /\ node_ok s root depth kv.2)
       (nodes_set m (node_id n) n).
Proof.
  intros Hnd Hroot Hall Hfresh Hok.
  rewrite nodes_set_fresh by done.
  assert (node_id n <> work_id root) as Hne by congruence.
  split_and!.
  - rewrite fmap_app. apply NoDup_app. split_and!; [done | | apply NoDup_singleton].
    intros k Hk Hk'. simpl in Hk'. apply list_elem_of_singleton in Hk' as ->.
    apply nodes_has_elem in Hk. congruence.
  - by apply nodes_has_app.
  - apply Forall_app. split; [done|]. constructor; [|done]. split; [done|].
    by apply Hok.
Qed.

Lemma visit_parent_ok (s : Store) (root : Work) (depth : Js.number)
    (w : string) (d : Z) (t : Traversal) (row : WorkEdge * Work) :
  0 <= d -> Js.ge d depth = false ->
  hops (workEdges s) w (work_id root) d ->
  row ∈ fetch s w Up ->
  traversal_ok s root depth t -> traversal_ok s root depth (visit_parent d t row).
Proof.
  intros Hd Hge Hh Hrow (Hnd & Hroot & Hall & Hq).
  apply fetch_elem in Hrow as [He Hto]. destruct row as [e fromWork].
  simpl in He, Hto.
  assert (hops (workEdges s) (edge_fromWorkId e) (work_id root) (d + 1)) as Hh'.
  { apply hops_edge; [done | by rewrite Hto]. }
  unfold traversal_ok, visit_parent. simpl.
  assert (Forall (item_ok s root)
            (queue t ++ [ {| item_workId := edge_fromWorkId e;
                             item_direction := Up;
                             item_currentDepth := d + 1 |} ])) as Hq'.
  { apply Forall_app. split; [done|]. constructor; [|done].
    split; simpl; [lia | done]. }
  destruct (nodes_has (nodes t) (edge_fromWorkId e)) eqn:Hhas; [done|].
  set (n := {| node_id := edge_fromWorkId e; node_slug := work_slug fromWork;
               node_title := work_title fromWork;
               node_status := work_status fromWork;
               node_depth := - (d + 1) |}).
  destruct (nodes_ok_add s root depth (nodes t) n Hnd Hroot Hall Hhas)
    as (H1 & H2 & H3); [|done].
  intros Hne. right; left. simpl. split_and!; [done | lia | |].
  - by replace (- - (d + 1) - 1) with d by lia.
  - by replace (- - (d + 1)) with (d + 1) by lia.
Qed.

Lemma visit_child_ok (s : Store) (root : Work) (depth : Js.number)
    (w : string) (d : Z) (t : Traversal) (row : WorkEdge * Work) :
  0 <= d -> Js.ge d depth = false ->
  hops (workEdges s) (work_id root) w d ->
  row ∈ fetch s w Down ->
  traversal_ok s root depth t -> traversal_ok s root depth (visit_child d t row).
Proof.
  intros Hd Hge Hh Hrow (Hnd & Hroot & Hall & Hq).
  apply fetch_elem in Hrow as [He Hfrom]. destruct row as [e toWork].
  simpl in He, Hfrom.
  assert (hops (workEdges s) (work_id root) (edge_toWorkId e) (d + 1)) as Hh'.
  { by apply (hops_snoc (workEdges s) (work_id root) w d e). }
  unfold traversal_ok, visit_child. simpl.
  assert (Forall (item_ok s root)
            (queue t ++ [ {| item_workId := edge_toWorkId e;
                             item_direction := Down;
                             item_currentDepth := d + 1 |} ])) as Hq'.
  { apply Forall_app. split; [done|]. constructor; [|done].
    split; simpl; [lia | done]. }
  destruct (nodes_has (nodes t) (edge_toWorkId e)) eqn:Hhas; [done|].
  set (n := {| node_id := edge_toWorkId e; node_slug := work_slug toWork;
               node_title := work_title toWork;
               node_status := work_status toWork;
               node_depth := d + 1 |}).
  destruct (nodes_ok_add s root depth (nodes t) n Hnd Hroot Hall Hhas)
    as (H1 & H2 & H3); [|done].
  intros Hne. right; right. simpl. split_and!; [done | lia | | done].
  by replace (d + 1 - 1) with d by lia.
Qed.

(** The loop invariant holds at the start and after every iteration. *)
Lemma start_ok (s : Store) (root : Work) (depth : Js.number) :
  traversal_ok s root depth (start root).
Proof.
  unfold traversal_ok, start. simpl. split_and!.
  - apply NoDup_singleton.
  - by rewrite bool_decide_eq_true_2.
  - constructor; [|done]. split; [done|]. by left.
  - repeat constructor; simpl; done.
Qed.

Lemma step_ok (s : Store) (root : Work) (depth : Js.number) (t t' : Traversal) :
  traversal_ok s root depth t -> step s depth t = Some t' ->
  traversal_ok s root depth t'.
Proof.
  intros (Hnd & Hroot & Hall & Hq). unfold step.
  destruct (queue t) as [|i rest]; [done|]. intros [= <-].
  apply Forall_cons in Hq as [[Hd Hi] Hrest].
  unfold iteration. destruct (skipped _ _ i) eqn:Hsk; [done|].
  apply orb_false_iff in Hsk as [Hge _]. simpl.
  destruct (item_direction i).
  - apply (foldl_invariant (traversal_ok s root depth)); [done|].
    intros a' b Hb. by apply (visit_parent_ok s root depth (item_workId i)).
  - apply (foldl_invariant (traversal_ok s root depth)); [done|].
    intros a' b Hb. by apply (visit_child_ok s root depth (item_workId i)).
Qed.

Lemma steps_ok (s : Store) (root : Work) (depth : Js.number) (t t' : Traversal) :
  rtc (steps_to s depth) t t' ->
  traversal_ok s root depth t -> traversal_ok s root depth t'.
Proof.
  induction 1 as [|t t1 t2 Hstep _ IH]; [done|].
  intros H. apply IH. by apply (step_ok s root depth t t1).
Qed.

(** C8, amended.  For a positive depth bound [N] the traversal returns a
    graph in which no node has a depth of absolute value above [N].  Each
    work is one node; the start work is a node, and it is the node at depth
    0; a node at a negative depth [-k] is an ancestor, [k] stored edges
    upstream of the start, and a node at a positive depth [k] is a
    descendant, [k] stored edges downstream (the sign tells the direction
    of the first discovery; a work that is both ancestor and descendant is
    one node and has one of the two signs).  The depth of a node is the
    one of its first discovery: no later iteration changes a node that is
    in the map, and every node met on the way is in the returned graph as
    it was written. *)
Theorem buildGraph_depths (s : Store) (root : Work) (N : Z) :
  0 < N ->
  exists g,
    buildGraph s root (Js.Int N) = Some g
    /\ (forall n, n ∈ graph_nodes g -> Z.abs (node_depth n) <= N)
    /\ NoDup (node_id <$> graph_nodes g)
    /\ (exists n, n ∈ graph_nodes g /\ node_id n = work_id root)
    /\ (forall n, n ∈ graph_nodes g ->
                  (node_depth n = 0 <-> node_id n = work_id root))
    /\ (forall n, n ∈ graph_nodes g -> node_depth n < 0 ->
                  hops (workEdges s) (node_id n) (work_id root) (- node_depth n))
    /\ (forall n, n ∈ graph_nodes g -> 0 < node_depth n ->
                  hops (workEdges s) (work_id root) (node_id n) (node_depth n))
    /\ (forall t t' k n,
          rtc (steps_to s (Js.Int N)) t t' ->
          nodes_get (nodes t) k = Some n -> nodes_get (nodes t') k = Some n)
    /\ (forall t k n,
          rtc (steps_to s (Js.Int N)) (start root) t ->
          nodes_get (nodes t) k = Some n -> n ∈ graph_nodes g).
Proof.
  intros HN.
  destruct (loop_terminates s root (Js.Int N)) as (tf & Hl & _ & Hb).
  destruct (loop_steps _ _ _ _ _ Hl) as [Hrtc Hend].
  destruct (steps_ok s root (Js.Int N) _ _ Hrtc (start_ok s root (Js.Int N)))
    as (Hnd & Hroot & Hall & _).
  assert (forall n, n ∈ graph_nodes (graph_of tf) ->
                    node_ok s root (Js.Int N) n) as Hok.
  { intros n Hn. simpl in Hn. apply list_elem_of_fmap in Hn as ([k n'] & -> & Hin).
    rewrite Forall_forall in Hall. by destruct (Hall _ Hin). }
  assert (snd <$> nodes tf = graph_nodes (graph_of tf)) as Hnodes by done.
  assert (node_id <$> graph_nodes (graph_of tf) = (nodes tf).*1) as Hids.
  { simpl. rewrite <- list_fmap_compose. apply list_fmap_ext.
    intros i [k n] Hi. rewrite Forall_forall in Hall.
    apply list_elem_of_lookup_2 in Hi. by destruct (Hall _ Hi). }
  exists (graph_of tf). split_and!; [done | | | | | | | |].
  - intros n Hn. destruct (Hok n Hn) as [[_ ->] | [(_ & Hneg & Hge & _) | (_ & Hpos & Hge & _)]];
      simpl in *; [lia | |]; apply Z.leb_gt in Hge; lia.
  - by rewrite Hids.
  - apply nodes_has_elem in Hroot. rewrite <- Hids in Hroot.
    apply list_elem_of_fmap in Hroot as (n & Hn & Hin). by exists n.
  - intros n Hn. destruct (Hok n Hn) as [[? ?] | [(? & ? & _) | (? & ? & _)]];
      split; intros; try done; lia.
  - intros n Hn Hneg.
    destruct (Hok n Hn) as [[_ ?] | [(_ & _ & _ & ?) | (_ & ? & _)]]; [lia | done | lia].
  - intros n Hn Hpos.
    destruct (Hok n Hn) as [[_ ?] | [(_ & ? & _) | (_ & _ & _ & ?)]]; [lia | lia | done].
  - intros t t' k n. apply steps_keep.
  - intros t k n Ht Hget.
    pose proof (steps_confluent s (Js.Int N) _ _ _ Ht Hrtc Hend) as Hto.
    pose proof (steps_keep s (Js.Int N) _ _ k n Hto Hget) as Hfin.
    apply nodes_get_elem in Hfin. simpl.
    apply list_elem_of_fmap. by exists (k, n).
Qed.

(** On the chain a -> b -> c, the traversal from [b] with depth bound 2
    returns [b] at 0, its parent [a] at -1 and its child [c] at +1. *)
Lemma buildGraph_depths_witness :
  exists g,
    buildGraph Sample.chain (Sample.work "b" "second-0002" JAM) (Js.Int 2) = Some g
    /\ (forall n, n ∈ graph_nodes g -> Z.abs (node_depth n) <= 2)
    /\ (fun n => (node_id n, node_depth n)) <$> graph_nodes g
       = [("b", 0); ("a", -1); ("c", 1)]
    /\ pairs (graph_edges g) = [("a", "b"); ("b", "c")].
Proof.
  destruct (buildGraph_depths Sample.chain (Sample.work "b" "second-0002" JAM) 2)
    as (g & Hb & Habs & _); [lia|].
  exists g. split_and!; [done | done | |];
    vm_compute in Hb; injection Hb as <-; reflexivity.
Defined.

(** C8, as stated, fails: a descendant need not carry a positive depth.
    In the store with the edges r -> a and a -> r, the work [a] is a
    descendant of [r], one stored edge downstream; the traversal from [r]
    with depth bound 2 returns [r] at 0 and [a] at -1, the depth of its
    first discovery, the upward one, and no node at a positive depth. *)
Lemma buildGraph_descendant_counterexample :
  hops (workEdges Sample.cycle) (work_id Sample.r) (work_id Sample.a) 1
  /\ exists g n,
       buildGraph Sample.cycle Sample.r (Js.Int 2) = Some g
       /\ (fun n => (node_id n, node_depth n)) <$> graph_nodes g
          = [("r", 0); ("a", -1)]
       /\ n ∈ graph_nodes g
       /\ node_id n = work_id Sample.a
       /\ ~ 0 < node_depth n
       /\ forall n', n' ∈ graph_nodes g -> node_id n' = work_id Sample.a ->
                     n' = n.
Proof.
  split.
  - apply (hops_edge _ (Sample.edge "e1" "r" "a" FORK) "a" 0);
      [left | constructor].
  - eexists _, _. split; [by vm_compute|]. simpl.
    split; [reflexivity|]. split; [right; left|].
    split; [reflexivity|]. split; [simpl; lia|].
    intros n' Hn' Hid.
    apply elem_of_cons in Hn' as [->|Hn']; [done|].
    apply elem_of_cons in Hn' as [->|Hn']; [done|].
    by apply elem_of_nil in Hn'.
Qed.

(* ===================================================================== *)
(** ** The footprint of each handler *)
(* ===================================================================== *)

Lemma Forall2_diag {A} (R : A -> A -> Prop) (l : list A) :
  (forall a, R a a) -> Forall2 R l l.
Proof. intros HR. induction l; constructor; auto. Qed.

Lemma Forall2_middle {A} (R : A -> A -> Prop) (before after : list A) (x y : A) :
  (forall a, R a a) -> R x y ->
  Forall2 R (before ++ x :: after) (before ++ y :: after).
Proof.
  intros HR Hxy. apply Forall2_app; [by apply Forall2_diag|].
  constructor; [done | by apply Forall2_diag].
Qed.

Lemma patch_data_edit (b : PatchBody) (w : Work) :
  work_status w <> CANON -> row_edit w (patch_data b w).
Proof. intros Hc. unfold row_edit. simpl. split_and!; done. Qed.

Lemma set_ctadMetadata_edit (c : CTADMetadata) (w : Work) :
  row_edit w (set_ctadMetadata c w).
Proof. unfold row_edit. simpl. split_and!; done. Qed.

Lemma promote_change (env : Env) (fault : Fault) (user : SessionUser)
    (id : string) (j : Js.value) (s : Store) :
  NoDup (work_id <$> works s) ->
  change s (promote env fault user id j s).2.
Proof.
  intros Hnd.
  destruct (promote_fault_cases env fault user id j s) as [-> | ->];
    [constructor|].
  destruct (justification_rejected j) eqn:Hj.
  { unfold promote. rewrite Hj. constructor. }
  destruct (findFirst_id_or_slug (works s) id) as [w|] eqn:Hf.
  2:{ unfold promote. rewrite Hj, Hf. constructor. }
  destruct (VALID_PROMOTIONS (work_status w)) as [nxt|] eqn:Hn.
  2:{ unfold promote. rewrite Hj, Hf, Hn. constructor. }
  destruct (promote_commits env user id j s w nxt Hnd Hf Hn Hj)
    as (before & after & Hws & -> & _). simpl.
  by apply change_promote.
Qed.

Lemma POST_promote_change (env : Env) (fault : Fault)
    (session : option SessionUser) (id : string) (body : option Js.value)
    (s : Store) :
  NoDup (work_id <$> works s) ->
  change s (POST_promote env fault session id body s).2.
Proof.
  intros Hnd. unfold POST_promote.
  destruct (requireCurator session); [|constructor].
  destruct body; [by apply promote_change | constructor].
Qed.

Lemma PATCH_change (fault : Fault) (session : option SessionUser) (id : string)
    (body : option PatchBody) (s : Store) :
  NoDup (work_id <$> works s) ->
  change s (PATCH_work fault session id body s).2.
Proof.
  intros Hnd. unfold PATCH_work.
  destruct (requireCreator session); [|constructor].
  destruct (findFirst_id_or_slug (works s) id) as [w|] eqn:Hf; [|constructor].
  destruct (decide (work_status w = CANON)) as [Hc|Hc]; [constructor|].
  destruct body as [b|]; [|constructor].
  apply find_elem in Hf as [Hin _].
  pose proof (findUnique_id_elem _ _ Hnd Hin) as Hu.
  pose proof (work_update_write_spec (work_id w) (patch_data b) s
                ltac:(done)) as Hspec.
  rewrite Hu in Hspec. destruct Hspec as (before & after & Hws & _ & _ & Hupd).
  unfold attempt. destruct fault as [|k|]; [|destruct (Nat.eqb k 0)|];
    try constructor; rewrite Hupd; simpl;
    (apply (change_edit s before w); [done | by apply patch_data_edit]).
Qed.

Lemma edges_request_change (env : Env) (fault : Fault) (b : EdgeBody) (s : Store) :
  change s (edges_request env fault b s).2.
Proof.
  unfold edges_request.
  destruct (missing _ || missing _); [constructor|].
  destruct (body_type b ≫= EdgeType_of) as [ty|]; [|constructor]. simpl.
  destruct (findUnique_id (works s) (default "" (body_fromWorkId b)))
    as [f|] eqn:Hf; [|constructor].
  destruct (findUnique_id (works s) (default "" (body_toWorkId b)))
    as [t|] eqn:Hg; [|constructor].
  destruct (decide (work_status t = CANON)) as [Hc|Hc]; [constructor|].
  destruct (findEdge _ _ _) eqn:He; [constructor|].
  unfold attempt, workEdge_create. simpl. rewrite He.
  destruct fault as [|k|]; [|destruct (Nat.eqb k 0)|]; try constructor; simpl.
  - eapply (change_edge s _ t); simpl; eauto.
  - eapply (change_edge s _ t); simpl; eauto.
  - eapply (change_edge s _ t); simpl; eauto.
Qed.

Lemma POST_edges_change (env : Env) (fault : Fault)
    (session : option SessionUser) (body : option EdgeBody) (s : Store) :
  change s (POST_edges env fault session body s).2.
Proof.
  unfold POST_edges. destruct (requireCreator session); [|constructor].
  destruct body; [apply edges_request_change | constructor].
Qed.

Lemma POST_ctad_change {Updates : Type}
    (mergeCTAD : CTADMetadata -> Updates -> CTADMetadata)
    (validateCTAD : CTADMetadata -> bool) (fault : Fault) (workId : string)
    (body : option (option Updates)) (s : Store) :
  change s (POST_ctad Updates mergeCTAD validateCTAD fault workId body s).2.
Proof.
  unfold POST_ctad. destruct body as [[u|]|]; try constructor.
  pose proof (fun c => work_update_write_spec workId (set_ctadMetadata c) s
                         ltac:(done)) as Hspec.
  destruct (findUnique_id (works s) workId) as [w|]; [|constructor].
  destruct (decide (work_status w = CANON)); [constructor|].
  destruct (work_ctadMetadata w) as [c|]; [|constructor].
  destruct (negb _); [constructor|].
  destruct (Hspec (mergeCTAD c u)) as (before & after & Hws & _ & _ & Hupd).
  unfold attempt. destruct fault as [|k|]; [|destruct (Nat.eqb k 0)|];
    try constructor; rewrite Hupd; simpl;
    (apply (change_edit s before w); [done | apply set_ctadMetadata_edit]).
Qed.

Lemma POST_provenance_change (env : Env) (fault : Fault) (workId : string)
    (body : option ProvenanceBody) (s : Store) :
  change s (POST_provenance env fault workId body s).2.
Proof.
  unfold POST_provenance. destruct body as [b|]; [|constructor].
  repeat (match goal with
          | |- context [if missing ?x then _ else _] =>
              destruct (missing x); [constructor|]
          end).
  destruct (findUnique_id (works s) workId) as [w|] eqn:Hf; [|constructor].
  destruct (findProvenance (o8Provenances s) workId) eqn:Hp; [constructor|].
  match goal with
  | |- context [o8Provenance_create ?p] => set (prov := p)
  end.
  assert (change s (add_provenance s prov)) as Hadd.
  { apply change_provenance; simpl; [by rewrite Hf | done]. }
  assert (forall c,
             work_update_write workId (set_ctadMetadata c) (add_provenance s prov)
             = None
             \/ exists s2,
                 work_update_write workId (set_ctadMetadata c) (add_provenance s prov)
                 = Some (set_ctadMetadata c w, s2)
                 /\ change s s2) as Hupd.
  { intros c.
    pose proof (work_update_write_spec workId (set_ctadMetadata c)
                  (add_provenance s prov) ltac:(done)) as Hspec.
    change (works (add_provenance s prov)) with (works s) in Hspec.
    rewrite Hf in Hspec. destruct Hspec as (before & after & Hws & _ & _ & ->).
    right. eexists. split; [done|]. eapply change_then; [exact Hadd|].
    apply (change_edit (add_provenance s prov) before w);
      [done | apply set_ctadMetadata_edit]. }
  unfold attempt at 1.
  assert (o8Provenance_create prov s = Some (prov, add_provenance s prov)) as ->
    by done.
  destruct fault as [|k|]; [|destruct (Nat.eqb k 0) eqn:Hk0|]; try constructor.
  - destruct (work_ctadMetadata w) as [c|]; [|done]. unfold attempt.
    destruct (Hupd (provenance_ctad env b (prov_id prov) c))
      as [-> | (s2 & -> & Hs2)]; done.
  - destruct (work_ctadMetadata w) as [c|]; [|done].
    unfold attempt. destruct (Nat.eqb k 1); [done|].
    destruct (Hupd (provenance_ctad env b (prov_id prov) c))
      as [-> | (s2 & -> & Hs2)]; done.
  - destruct (work_ctadMetadata w) as [c|]; [|done]. unfold attempt.
    destruct (Hupd (provenance_ctad env b (prov_id prov) c))
      as [-> | (s2 & -> & Hs2)]; done.
Qed.

Lemma change_ids (s s' : Store) :
  change s s' -> work_id <$> works s' = work_id <$> works s.
Proof.
  induction 1 as [s|s before old new after Hws (Hid & _)
                  |s env user w nxt j before after Hws _
                  |s e t _ _ _ _|s p _ _|s1 s2 s3 _ IH1 _ IH2]; simpl.
  - done.
  - rewrite Hws, !fmap_app, !fmap_cons. by rewrite Hid.
  - by rewrite Hws, !fmap_app, !fmap_cons.
  - done.
  - done.
  - by rewrite IH2.
Qed.

Lemma handle_change {Updates : Type}
    (mergeCTAD : CTADMetadata -> Updates -> CTADMetadata)
    (validateCTAD : CTADMetadata -> bool) (env : Env) (fault : Fault)
    (r : Request Updates) (s : Store) :
  NoDup (work_id <$> works s) ->
  change s (handle Updates mergeCTAD validateCTAD env fault r s).
Proof.
  intros Hnd. destruct r; simpl.
  - by apply POST_promote_change.
  - by apply PATCH_change.
  - apply POST_edges_change.
  - apply POST_provenance_change.
  - apply POST_ctad_change.
Qed.

Lemma serve_change {Updates : Type}
    (mergeCTAD : CTADMetadata -> Updates -> CTADMetadata)
    (validateCTAD : CTADMetadata -> bool)
    (reqs : list (Env * Fault * Request Updates)) (s : Store) :
  NoDup (work_id <$> works s) ->
  change s (serve Updates mergeCTAD validateCTAD reqs s).
Proof.
  revert s. induction reqs as [|[[env fault] r] reqs IH]; intros s Hnd.
  - constructor.
  - pose proof (handle_change mergeCTAD validateCTAD env fault r s Hnd) as Hc.
    eapply change_then; [exact Hc|]. apply IH.
    by rewrite (change_ids _ _ Hc).
Qed.

(* ===================================================================== *)
(** ** Stores only move forward *)
(* ===================================================================== *)

Lemma row_forward_refl (w : Work) : row_forward w w.
Proof. unfold row_forward, tier_le. split_and!; first [done | lia]. Qed.

Lemma row_forward_trans (a b c : Work) :
  row_forward a b -> row_forward b c -> row_forward a c.
Proof.
  unfold row_forward, tier_le.
  intros (I1 & S1 & T1 & L1 & C1) (I2 & S2 & T2 & L2 & C2).
  split_and!; try congruence; [lia|].
  intros Hc. destruct (C1 Hc) as (Hb & ? & ? & ? & ? & ?).
  destruct (C2 Hb) as (? & ? & ? & ? & ? & ?). split_and!; congruence.
Qed.

Lemma forward_refl (s : Store) : forward s s.
Proof.
  unfold forward. split_and!; try done.
  apply Forall2_diag, row_forward_refl.
Qed.

Lemma forward_trans (s1 s2 s3 : Store) :
  forward s1 s2 -> forward s2 s3 -> forward s1 s3.
Proof.
  intros (W1 & E1 & G1 & P1) (W2 & E2 & G2 & P2). unfold forward.
  split_and!; try (by etrans).
  eapply Forall2_trans; [|exact W1|exact W2]. apply row_forward_trans.
Qed.

Lemma change_forward (s s' : Store) : change s s' -> forward s s'.
Proof.
  induction 1 as [s|s before old new after Hws Hedit
                  |s env user w nxt j before after Hws Hn
                  |s e t _ _ _ _|s p _ _|s1 s2 s3 _ IH1 _ IH2].
  - apply forward_refl.
  - unfold forward. simpl. split_and!; [|done..]. rewrite Hws.
    apply Forall2_middle; [apply row_forward_refl|].
    destruct Hedit as (? & ? & ? & Hst & ? & ? & Hcanon).
    unfold row_forward, tier_le. rewrite Hst.
    split_and!; [done | done | done | lia |].
    intros Hc. destruct (Hcanon Hc) as (? & ? & ?). split_and!; done.
  - unfold forward. simpl.
    split_and!; [| by apply prefix_app_r | done | done].
    rewrite Hws. apply Forall2_middle; [apply row_forward_refl|].
    unfold row_forward, tier_le. simpl.
    split_and!; [done | done | done | |].
    + destruct (work_status w); simplify_eq/=; lia.
    + intros Hc. by rewrite Hc in Hn.
  - unfold forward. simpl.
    split_and!; [apply Forall2_diag, row_forward_refl | done
                | by apply prefix_app_r | done].
  - unfold forward. simpl.
    split_and!; [apply Forall2_diag, row_forward_refl | done | done
                | by apply prefix_app_r].
  - by apply (forward_trans s1 s2 s3).
Qed.

(* ===================================================================== *)
(** ** The store invariant *)
(* ===================================================================== *)

Lemma replay_snoc (evs : list PromotionEvent) (ev : PromotionEvent)
    (t t' : WorkStatus) :
  replay evs t = Some t' ->
  pe_fromStatus ev = t' -> VALID_PROMOTIONS t' = Some (pe_toStatus ev) ->
  replay (evs ++ [ev]) t = Some (pe_toStatus ev).
Proof.
  revert t. induction evs as [|e evs IH]; intros t; simpl.
  - intros [= ->] Hf Hv. by rewrite decide_True.
  - destruct (decide _); [|done]. intros H Hf Hv. by apply IH.
Qed.

Lemma elem_of_middle {A} (before after : list A) (x y : A) :
  y ∈ before ++ x :: after <-> y = x \/ y ∈ before ++ after.
Proof. rewrite !elem_of_app, elem_of_cons. tauto. Qed.

Lemma NoDup_middle_ne (before after : list Work) (w x : Work) :
  NoDup (work_id <$> before ++ w :: after) ->
  x ∈ before ++ after -> work_id x <> work_id w.
Proof.
  rewrite fmap_app, fmap_cons. intros Hnd Hx Heq.
  apply NoDup_app in Hnd as (_ & Hdisj & Hnd).
  apply NoDup_cons in Hnd as [Hnin _].
  apply elem_of_app in Hx as [Hx|Hx].
  - apply (Hdisj (work_id x)); [by apply list_elem_of_fmap_2|].
    rewrite Heq. left.
  - apply Hnin. rewrite <- Heq. by apply list_elem_of_fmap_2.
Qed.

Lemma store_ok_edit (s : Store) (before after : list Work) (old new : Work) :
  store_ok s -> works s = before ++ old :: after -> row_edit old new ->
  store_ok (set_works s (before ++ new :: after)).
Proof.
  intros (Hnd & Hh & Hl & He & Hp & Hr) Hws (Hid & _ & _ & Hst & Hla & Hlb & _).
  assert (work_id <$> before ++ new :: after = work_id <$> works s) as Hids.
  { rewrite Hws, !fmap_app, !fmap_cons. by rewrite Hid. }
  assert (old ∈ works s) as Hold.
  { rewrite Hws. apply elem_of_middle. by left. }
  assert (forall w', w' ∈ before ++ new :: after ->
                     w' = new \/ w' ∈ works s) as Hrows.
  { intros w' Hw'. apply elem_of_middle in Hw' as [->|Hw']; [by left|].
    right. rewrite Hws. apply elem_of_middle. by right. }
  unfold store_ok, history_ok, lock_ok, references_ok, events_of in *. simpl.
  rewrite Hids. split_and!; try done.
  - intros w' Hw'. destruct (Hrows w' Hw') as [->|Hin]; [|by apply Hh].
    rewrite Hid, Hst. by apply Hh.
  - intros w' Hw'. destruct (Hrows w' Hw') as [->|Hin]; [|by apply Hl].
    rewrite Hid, Hst, Hla, Hlb. by apply Hl.
  - by destruct Hr as (Hre & _).
  - by destruct Hr as (_ & Hrv & _).
  - by destruct Hr as (_ & _ & Hrp).
Qed.

Lemma store_ok_promote (s : Store) (env : Env) (user : SessionUser) (w : Work)
    (nxt : WorkStatus) (j : Js.value) (before after : list Work) :
  store_ok s -> works s = before ++ w :: after ->
  VALID_PROMOTIONS (work_status w) = Some nxt ->
  store_ok {| works := before ++ promote_data env user nxt w :: after;
              workEdges := workEdges s;
              promotionEvents :=
                promotionEvents s ++ [promotion_event env user w nxt j];
              o8Provenances := o8Provenances s |}.
Proof.
  intros (Hnd & Hh & Hl & He & Hp & Hr) Hws Hn.
  set (ev := promotion_event env user w nxt j).
  set (new := promote_data env user nxt w).
  assert (work_id <$> before ++ new :: after = work_id <$> works s) as Hids.
  { by rewrite Hws, !fmap_app, !fmap_cons. }
  assert (w ∈ works s) as Hw.
  { rewrite Hws. apply elem_of_middle. by left. }
  assert (forall x, x ∈ before ++ after ->
                    x ∈ works s /\ work_id x <> work_id w) as Hother.
  { intros x Hx. split.
    - rewrite Hws. apply elem_of_middle. by right.
    - apply (NoDup_middle_ne before after); [by rewrite <- Hws | done]. }
  assert (work_status w <> CANON) as Hnc.
  { intros Hc. by rewrite Hc in Hn. }
  unfold store_ok, history_ok, lock_ok, references_ok, events_of in *. simpl.
  rewrite Hids. split_and!; try done.
  - intros w' Hw'. rewrite filter_app.
    apply elem_of_middle in Hw' as [->|Hw'].
    + rewrite (filter_cons_True _ ev []) by done. rewrite filter_nil.
      change (work_id new) with (work_id w).
      change (work_status new) with (pe_toStatus ev).
      apply (replay_snoc _ ev JAM (work_status w)); [by apply Hh | done | done].
    + destruct (Hother w' Hw') as [Hin Hne].
      rewrite (filter_cons_False _ ev []) by (simpl; congruence).
      rewrite filter_nil, app_nil_r. by apply Hh.
  - intros w' Hw'. apply elem_of_middle in Hw' as [->|Hw'].
    + destruct (Hl w Hw) as (Ha & Hb & _).
      change (work_status new) with nxt.
      change (work_id new) with (work_id w).
      change (work_canonLockedAt new)
        with (if decide (nxt = CANON) then Some (now env)
              else work_canonLockedAt w).
      change (work_canonLockedByUserId new)
        with (if decide (nxt = CANON) then Some (user_id user)
              else work_canonLockedByUserId w).
      destruct (decide (nxt = CANON)) as [Heq|Hne].
      * split_and!; [split; eauto | split; eauto |]. intros _. exists ev.
        split_and!; [apply elem_of_app; right; left | done | done | done].
      * split_and!; [| | done].
        -- split; [done|]. intros Hs. exfalso. by apply Hnc, Ha.
        -- split; [done|]. intros Hs. exfalso. by apply Hnc, Hb.
    + destruct (Hother w' Hw') as [Hin _].
      destruct (Hl w' Hin) as (Ha & Hb & Hc). split_and!; [done | done |].
      intros Hs. destruct (Hc Hs) as (ev' & Hev' & ?).
      exists ev'. split; [apply elem_of_app; by left | done].
  - destruct Hr as (Hre & _). done.
  - destruct Hr as (_ & Hrv & _). intros ev' Hev'.
    apply elem_of_app in Hev' as [Hev'|Hev']; [by apply Hrv|].
    apply list_elem_of_singleton in Hev' as ->. simpl.
    by apply list_elem_of_fmap_2.
  - by destruct Hr as (_ & _ & Hrp).
Qed.

Lemma findUnique_id_known (ws : list Work) (id : string) :
  is_Some (findUnique_id ws id) -> id ∈ work_id <$> ws.
Proof.
  intros [w Hw]. apply find_elem in Hw as [Hin Hm].
  apply bool_decide_eq_true in Hm. subst id. by apply list_elem_of_fmap_2.
Qed.

Lemma store_ok_edge (s : Store) (e : WorkEdge) :
  store_ok s ->
  is_Some (findUnique_id (works s) (edge_fromWorkId e)) ->
  is_Some (findUnique_id (works s) (edge_toWorkId e)) ->
  findEdge (workEdges s) (edge_fromWorkId e) (edge_toWorkId e) = None ->
  store_ok (add_edge s e).
Proof.
  intros (Hnd & Hh & Hl & He & Hp & Hre & Hrv & Hrp) Hf Ht Hnone.
  unfold store_ok, history_ok, lock_ok, references_ok, events_of, edges_unique
    in *. simpl. split_and!; try done.
  - rewrite fmap_app. apply NoDup_app. split_and!; [done | | apply NoDup_singleton].
    intros pr Hin Hin'. apply list_elem_of_singleton in Hin' as ->.
    apply list_elem_of_fmap in Hin as (e' & Heq & He').
    pose proof (find_none _ _ Hnone e' He') as Hm.
    injection Heq as H1 H2. simpl in Hm.
    by rewrite !bool_decide_eq_true_2 in Hm by done.
  - intros e' He'. apply elem_of_app in He' as [He'|He']; [by apply Hre|].
    apply list_elem_of_singleton in He' as ->.
    split; by apply findUnique_id_known.
Qed.

Lemma store_ok_provenance (s : Store) (p : O8Provenance) :
  store_ok s ->
  is_Some (findUnique_id (works s) (prov_workId p)) ->
  findProvenance (o8Provenances s) (prov_workId p) = None ->
  store_ok (add_provenance s p).
Proof.
  intros (Hnd & Hh & Hl & He & Hp & Hre & Hrv & Hrp) Hf Hnone.
  unfold store_ok, history_ok, lock_ok, references_ok, events_of in *. simpl.
  split_and!; try done.
  - rewrite fmap_app. apply NoDup_app. split_and!; [done | | apply NoDup_singleton].
    intros id Hin Hin'. apply list_elem_of_singleton in Hin' as ->.
    apply list_elem_of_fmap in Hin as (p' & Heq & Hp').
    pose proof (find_none _ _ Hnone p' Hp') as Hm. simpl in Hm.
    by rewrite bool_decide_eq_true_2 in Hm by done.
  - intros p' Hp'. apply elem_of_app in Hp' as [Hp'|Hp']; [by apply Hrp|].
    apply list_elem_of_singleton in Hp' as ->. by apply findUnique_id_known.
Qed.

Lemma change_store_ok (s s' : Store) : change s s' -> store_ok s -> store_ok s'.
Proof.
  induction 1 as [s|s before old new after Hws Hedit
                  |s env user w nxt j before after Hws Hn
                  |s e t Hf Ht _ Hnone|s p Hf Hnone|s1 s2 s3 _ IH1 _ IH2];
    intros Hok.
  - done.
  - by apply (store_ok_edit s before after old new).
  - by apply store_ok_promote.
  - apply store_ok_edge; [done | done | by rewrite Ht | done].
  - by apply store_ok_provenance.
  - auto.
Qed.

Lemma chain_store_ok : store_ok Sample.chain.
Proof.
  unfold store_ok, history_ok, lock_ok, references_ok, edges_unique.
  split_and!.
  - apply (bool_decide_unpack _). vm_compute. exact I.
  - intros w Hw. simpl in Hw.
    repeat (apply elem_of_cons in Hw as [->|Hw]); [done..|].
    by apply elem_of_nil in Hw.
  - intros w Hw. simpl in Hw.
    repeat (apply elem_of_cons in Hw as [->|Hw]);
      [| | |by apply elem_of_nil in Hw];
      (split_and!; [split; [done | by intros [? ?]]
                   | split; [done | by intros [? ?]] | done]).
  - apply (bool_decide_unpack _). vm_compute. exact I.
  - constructor.
  - intros e He. simpl in He.
    repeat (apply elem_of_cons in He as [->|He]);
      [| |by apply elem_of_nil in He]; simpl; set_solver.
  - intros ev Hev. by apply elem_of_nil in Hev.
  - intros p Hp. by apply elem_of_nil in Hp.
Qed.

(** X1.  Whatever requests are served, in whatever order and with whatever
    storage faults, a store that satisfies the invariant still does: work
    ids stay unique; the promotion events of every work, replayed from JAM,
    give its tier; a work is locked exactly when it is at CANON, by a
    curator who signed its promotion to CANON; there is one edge per
    ordered pair and one provenance per work; and every edge, event and
    provenance names stored works. *)
Theorem serve_keeps_store_ok {Updates : Type}
    (mergeCTAD : CTADMetadata -> Updates -> CTADMetadata)
    (validateCTAD : CTADMetadata -> bool)
    (reqs : list (Env * Fault * Request Updates)) (s : Store) :
  store_ok s -> store_ok (serve Updates mergeCTAD validateCTAD reqs s).
Proof.
  intros Hok. apply (change_store_ok s); [|done].
  apply serve_change. by destruct Hok.
Qed.

Lemma serve_keeps_store_ok_witness :
  store_ok (serve unit Demo.keep Demo.accept Demo.requests Sample.chain).
Proof.
  apply (serve_keeps_store_ok Demo.keep Demo.accept Demo.requests Sample.chain).
  exact chain_store_ok.
Defined.

(** X2.  Whatever requests are served, the store only moves forward: every
    work row keeps its id, slug and creation time, its tier is the same or
    further along JAM, PLATE, CANON, and a row that was at CANON keeps its
    tier, lock timestamp, locking curator, title, description and audio
    URL; the tables of promotion events, edges and provenance are the old
    ones with rows added at the end (nothing updated or deleted). *)
Theorem serve_moves_forward {Updates : Type}
    (mergeCTAD : CTADMetadata -> Updates -> CTADMetadata)
    (validateCTAD : CTADMetadata -> bool)
    (reqs : list (Env * Fault * Request Updates)) (s : Store) :
  NoDup (work_id <$> works s) ->
  forward s (serve Updates mergeCTAD validateCTAD reqs s).
Proof.
  intros Hnd. apply change_forward. by apply serve_change.
Qed.

Lemma serve_moves_forward_witness :
  forward Sample.chain
    (serve unit Demo.keep Demo.accept Demo.requests Sample.chain)
  /\ work_status <$> works (serve unit Demo.keep Demo.accept Demo.requests
                              Sample.chain)
     = [PLATE; JAM; JAM].
Proof.
  split; [|by vm_compute].
  apply (serve_moves_forward Demo.keep Demo.accept Demo.requests Sample.chain).
  apply (bool_decide_unpack _). vm_compute. exact I.
Defined.

(* ===================================================================== *)
(** ** Roles and authorisation *)
(* ===================================================================== *)

(** X3.  [hasRole] orders the roles as a chain VIEWER, CREATOR, CURATOR,
    ADMIN: it is reflexive, transitive, antisymmetric and total; ADMIN
    meets every requirement and every role meets VIEWER. *)
Theorem hasRole_total_order :
  (forall a, hasRole a a = true)
  /\ (forall a b c, hasRole a b = true -> hasRole b c = true -> hasRole a c = true)
  /\ (forall a b, hasRole a b = true -> hasRole b a = true -> a = b)
  /\ (forall a b, hasRole a b = true \/ hasRole b a = true)
  /\ (forall r, hasRole ADMIN r = true /\ hasRole r VIEWER = true).
Proof.
  split_and!.
  - by intros [].
  - intros [] [] []; vm_compute; congruence.
  - intros [] []; vm_compute; congruence.
  - intros [] []; vm_compute; auto.
  - intros []; by vm_compute.
Qed.

Lemma requireRole_authorized (r : Role) (session : option SessionUser)
    (u : SessionUser) :
  requireRole r session = Authorized u
  <-> session = Some u /\ hasRole (user_role u) r = true.
Proof.
  unfold requireRole, requireAuth. destruct session as [v|]; [|naive_solver].
  destruct (hasRole (user_role v) r) eqn:Hr; split.
  - intros [= ->]. done.
  - intros [[= ->] _]. done.
  - done.
  - intros [[= ->] ?]. congruence.
Qed.

(** X4.  [requireRole] authorises exactly the signed-in users whose role
    meets the requirement, and hands back the session's user; a request
    without a session is answered 401 and one with too low a role 403.  A
    session that passes a requirement passes every lower one: whoever may
    promote (curator) may also create and edit (creator). *)
Theorem requireRole_outcomes (r : Role) (session : option SessionUser) :
  (forall u, requireRole r session = Authorized u
             <-> session = Some u /\ hasRole (user_role u) r = true)
  /\ (session = None ->
      requireRole r session = Unauthorized 401 "Authentication required")
  /\ (forall u, session = Some u -> hasRole (user_role u) r = false ->
                exists msg, requireRole r session = Unauthorized 403 msg)
  /\ (forall r' u, hasRole r r' = true ->
                   requireRole r session = Authorized u ->
                   requireRole r' session = Authorized u)
  /\ (forall u, requireCurator session = Authorized u ->
                requireCreator session = Authorized u).
Proof.
  assert (forall r r' u, hasRole r r' = true ->
                         requireRole r session = Authorized u ->
                         requireRole r' session = Authorized u) as Hmono.
  { intros r1 r2 u Hr H. apply requireRole_authorized in H as [-> Hu].
    apply requireRole_authorized. split; [done|].
    destruct (user_role u), r1, r2; vm_compute in *; congruence. }
  split_and!.
  - intros u. apply requireRole_authorized.
  - by intros ->.
  - intros u -> Hr. unfold requireRole. simpl. rewrite Hr. by eexists.
  - intros r' u. apply Hmono.
  - intros u. by apply Hmono.
Qed.

Lemma requireRole_outcomes_witness :
  requireCreator (Some Sample.curator) = Authorized Sample.curator.
Proof.
  destruct (requireRole_outcomes CURATOR (Some Sample.curator))
    as (_ & _ & _ & _ & H).
  apply H. reflexivity.
Defined.

(* ===================================================================== *)
(** ** Trimmed text *)
(* ===================================================================== *)

Lemma trimStart_head (s : Js.text) (c : N) :
  head (Js.trimStart s) = Some c -> Js.isWhiteSpace c = false.
Proof.
  induction s as [|x s IH]; simpl; [done|].
  destruct (Js.isWhiteSpace x) eqn:Hx; [done|]. simpl. by intros [= <-].
Qed.

Lemma trimStart_fixed (s : Js.text) :
  (forall c, head s = Some c -> Js.isWhiteSpace c = false) ->
  Js.trimStart s = s.
Proof.
  destruct s as [|x s]; simpl; [done|]. intros H. by rewrite (H x).
Qed.

(** [trimStart] drops a prefix. *)
Lemma trimStart_suffix (s : Js.text) :
  exists w, s = w ++ Js.trimStart s.
Proof.
  induction s as [|x s [w IH]]; simpl; [by exists []|].
  destruct (Js.isWhiteSpace x).
  - exists (x :: w). simpl. by rewrite <- IH.
  - by exists [].
Qed.

Lemma head_rev {A} (l : list A) : head (rev l) = last l.
Proof.
  induction l as [|x l IH] using rev_ind; [done|].
  by rewrite rev_app_distr, last_snoc.
Qed.

Lemma last_rev {A} (l : list A) : last (rev l) = head l.
Proof. by rewrite <- head_rev, rev_involutive. Qed.

(** Trimmed text starts and ends with a character that is no white space. *)
Lemma trim_edges (t : Js.text) (c : N) :
  head (Js.trim t) = Some c \/ last (Js.trim t) = Some c ->
  Js.isWhiteSpace c = false.
Proof.
  unfold Js.trim, Js.trimEnd. intros [H|H].
  - destruct (trimStart_suffix (rev (Js.trimStart t))) as [w Hw].
    apply (f_equal (@rev N)) in Hw.
    rewrite rev_involutive, rev_app_distr in Hw.
    destruct (rev (Js.trimStart (rev (Js.trimStart t)))) as [|y l] eqn:Hl;
      [done|]. simpl in H. injection H as ->.
    apply (trimStart_head t). by rewrite Hw.
  - rewrite last_rev in H. by apply (trimStart_head (rev (Js.trimStart t))).
Qed.

Lemma trim_idempotent (t : Js.text) : Js.trim (Js.trim t) = Js.trim t.
Proof.
  assert (Js.trimStart (Js.trim t) = Js.trim t) as H1.
  { apply trimStart_fixed. intros c Hc. apply (trim_edges t). by left. }
  unfold Js.trim at 1. rewrite H1. unfold Js.trimEnd.
  rewrite trimStart_fixed; [apply rev_involutive|].
  intros c Hc. rewrite head_rev in Hc. apply (trim_edges t). by right.
Qed.

(* ===================================================================== *)
(** ** What a successful promotion guarantees *)
(* ===================================================================== *)

Lemma str_or_nonempty (a : option string) (b : string) :
  b <> "" -> str_or a b <> "".
Proof.
  intros Hb. unfold str_or. destruct a as [[|c r]|]; simpl; done.
Qed.

Lemma work_update_middle (before after : list Work) (w : Work) (id : string)
    (data : Work -> Work) :
  (forall x, x ∈ before -> work_id x <> id) -> work_id w = id ->
  work_update (before ++ w :: after) id data = Some (before ++ data w :: after).
Proof.
  intros Hb Hw. induction before as [|x before IH]; simpl.
  - by rewrite bool_decide_eq_true_2.
  - rewrite bool_decide_eq_false_2 by (apply Hb; left).
    rewrite IH; [done|]. intros y Hy. apply Hb. by right.
Qed.

(** X5.  When the promote route answers with success, the request came
    from a signed-in CURATOR or ADMIN and carried a string justification;
    the event it stored is the last row of the event table, is signed by
    that user under a display name that is not empty, moves the work one
    step along [VALID_PROMOTIONS], and keeps the justification trimmed: at
    least 10 characters, with no white space at either end.  The work
    answered has the event's target tier and, at CANON, the lock of this
    request and this curator. *)
Theorem POST_promote_success (env : Env) (fault : Fault)
    (session : option SessionUser) (id : string) (body : option Js.value)
    (s s' : Store) (st : Z) (p : Promotion) :
  POST_promote env fault session id body s = (Ok st p, s') ->
  exists u t,
    session = Some u
    /\ (user_role u = CURATOR \/ user_role u = ADMIN)
    /\ body = Some (Js.JString t)
    /\ promotionEvents s' = promotionEvents s ++ [promoted_event p]
    /\ pe_signedByUserId (promoted_event p) = user_id u
    /\ pe_signedByDisplayName (promoted_event p) <> ""
    /\ VALID_PROMOTIONS (pe_fromStatus (promoted_event p))
       = Some (pe_toStatus (promoted_event p))
    /\ pe_justification (promoted_event p) = Js.trim t
    /\ 10 <= Js.length (pe_justification (promoted_event p))
    /\ (forall c, head (pe_justification (promoted_event p)) = Some c
                  \/ last (pe_justification (promoted_event p)) = Some c ->
                  Js.isWhiteSpace c = false)
    /\ work_id (promoted_work p) = pe_workId (promoted_event p)
    /\ work_status (promoted_work p) = pe_toStatus (promoted_event p)
    /\ (work_status (promoted_work p) = CANON ->
        work_canonLockedAt (promoted_work p) = Some (now env)
        /\ work_canonLockedByUserId (promoted_work p) = Some (user_id u)).
Proof.
  unfold POST_promote.
  destruct (requireCurator session) as [u|] eqn:Ha; [|done].
  apply requireRole_authorized in Ha as [-> Hrole].
  destruct body as [j|]; [|done]. unfold promote.
  destruct (justification_rejected j) eqn:Hj; [done|].
  destruct j as [| | | |t|];
    try (by rewrite justification_rejected_other in Hj).
  rewrite justification_rejected_string in Hj. apply Z.ltb_ge in Hj.
  destruct (findFirst_id_or_slug (works s) id) as [work|]; [|done].
  destruct (VALID_PROMOTIONS (work_status work)) as [nxt|] eqn:Hn; [|done].
  unfold transaction.
  destruct (attempt fault 0 _ s) as [[ev s1]|] eqn:H1; [|done].
  assert (ev = promotion_event env u work nxt (Js.JString t)
          /\ s1 = {| works := works s; workEdges := workEdges s;
                     promotionEvents := promotionEvents s ++ [ev];
                     o8Provenances := o8Provenances s |}) as [-> ->].
  { unfold attempt, promotionEvent_create in H1.
    destruct fault as [|k|]; [|destruct (Nat.eqb k 0)|]; try done;
      by injection H1 as <- <-. }
  destruct (attempt fault 1 _ _) as [[w s2]|] eqn:H2; [|done].
  destruct (dispatch_throws fault); [done|].
  intros [= <- <- <-].
  assert (work_update_write (work_id work) (promote_data env u nxt)
            {| works := works s; workEdges := workEdges s;
               promotionEvents :=
                 promotionEvents s ++ [promotion_event env u work nxt (Js.JString t)];
               o8Provenances := o8Provenances s |}
          = Some (w, s2)) as Hupd.
  { unfold attempt in H2. destruct fault as [|k|]; [|destruct (Nat.eqb k 1)|]; done. }
  pose proof (work_update_write_spec (work_id work) (promote_data env u nxt)
                {| works := works s; workEdges := workEdges s;
                   promotionEvents :=
                     promotionEvents s
                     ++ [promotion_event env u work nxt (Js.JString t)];
                   o8Provenances := o8Provenances s |}
                (promote_data_id env u nxt)) as Hspec.
  simpl in Hspec.
  destruct (findUnique_id (works s) (work_id work)) as [old|]; [|congruence].
  destruct Hspec as (before & after & Hws & _ & Hid & Hupd').
  rewrite Hupd' in Hupd. injection Hupd as <- <-.
  exists u, t. simpl. split_and!; try done.
  - destruct (user_role u); vm_compute in Hrole; try discriminate; auto.
  - by apply str_or_nonempty.
  - apply trim_edges.
  - intros ->. done.
Qed.

Lemma POST_promote_success_witness :
  exists u t,
    Some Sample.curator = Some u
    /\ Some Sample.confirmed = Some (Js.JString t)
    /\ 10 <= Js.length (Js.trim t).
Proof.
  destruct (POST_promote Sample.env NoFault (Some Sample.curator) "w2"
              (Some Sample.confirmed) Sample.archive) as [r s'] eqn:H.
  destruct r as [st p|st e]; [|vm_compute in H; discriminate].
  destruct (POST_promote_success _ _ _ _ _ _ _ _ _ H)
    as (u & t & Hu & _ & Hb & _ & _ & _ & _ & Hj & Hlen & _).
  exists u, t. rewrite <- Hj. done.
Defined.

(* ===================================================================== *)
(** ** The work update *)
(* ===================================================================== *)

Lemma patch_data_again (b : PatchBody) (w : Work) :
  patch_data b (patch_data b w) = patch_data b w.
Proof.
  destruct b as [[| |[|c r]] [| |d] [| |a]]; reflexivity.
Qed.

(** X6.  The work update is idempotent: with unique work ids and a store
    that answers its writes, sending the same PATCH a second time gives the
    same answer and leaves the store exactly as the first one left it,
    whether the first succeeded or was refused. *)
Theorem PATCH_idempotent (session : option SessionUser) (id : string)
    (body : option PatchBody) (s : Store) :
  NoDup (work_id <$> works s) ->
  PATCH_work NoFault session id body (PATCH_work NoFault session id body s).2
  = PATCH_work NoFault session id body s.
Proof.
  intros Hnd. unfold PATCH_work at 2 3.
  destruct (requireCreator session) as [u|] eqn:Ha.
  2:{ simpl. unfold PATCH_work. by rewrite Ha. }
  destruct (findFirst_id_or_slug (works s) id) as [w|] eqn:Hf.
  2:{ simpl. unfold PATCH_work. by rewrite Ha, Hf. }
  destruct (decide (work_status w = CANON)) as [Hc|Hc].
  { simpl. unfold PATCH_work. by rewrite Ha, Hf, decide_True. }
  destruct body as [b|].
  2:{ simpl. unfold PATCH_work. by rewrite Ha, Hf, decide_False. }
  pose proof (find_elem _ _ _ Hf) as [Hin Hmatch].
  pose proof (findUnique_id_elem _ _ Hnd Hin) as Hu.
  pose proof (work_update_write_spec (work_id w) (patch_data b) s
                ltac:(done)) as Hspec.
  rewrite Hu in Hspec. destruct Hspec as (before & after & Hws & Hb & _ & Hupd).
  unfold attempt. rewrite Hupd. simpl.
  unfold PATCH_work. rewrite Ha. simpl.
  assert (findFirst_id_or_slug (before ++ patch_data b w :: after) id
          = Some (patch_data b w)) as ->.
  { apply find_middle; [|exact Hmatch].
    apply (find_middle_inv _ before after w); [by rewrite <- Hws|].
    intros Hwb. by apply (Hb w Hwb). }
  rewrite decide_False by done.
  unfold attempt, work_update_write. simpl.
  rewrite (work_update_middle before after (patch_data b w) (work_id w)) by done.
  rewrite patch_data_again.
  change (work_id w) with (work_id (patch_data b w)) at 1.
  rewrite findUnique_id_middle; [done|].
  intros x Hx. simpl. by apply Hb.
Qed.

Lemma PATCH_idempotent_witness :
  PATCH_work NoFault (Some Demo.creator) "second-0002" (Some Demo.retitle)
    (PATCH_work NoFault (Some Demo.creator) "second-0002" (Some Demo.retitle)
       Sample.chain).2
  = PATCH_work NoFault (Some Demo.creator) "second-0002" (Some Demo.retitle)
      Sample.chain.
Proof.
  apply (PATCH_idempotent (Some Demo.creator) "second-0002" (Some Demo.retitle)
           Sample.chain).
  apply (bool_decide_unpack _). vm_compute. exact I.
Defined.

(* ===================================================================== *)
(** ** The returned graph *)
(* ===================================================================== *)

Lemma loop_invariant (P : Traversal -> Prop) (s : Store) (depth : Js.number)
    (fuel : nat) (t t' : Traversal) :
  (forall a b, P a -> step s depth a = Some b -> P b) ->
  P t -> loop s depth fuel t = Some t' -> P t'.
Proof.
  intros Hstep Ht Hl. destruct (loop_steps _ _ _ _ _ Hl) as [Hr _].
  clear Hl. revert Ht. induction Hr as [|a b c Hab _ IH]; intros Ha; [done|].
  apply IH. by apply (Hstep a b).
Qed.

(** X7.  With a depth bound of zero or below nothing is expanded: the
    graph is the start work alone, at depth 0, with no edge. *)
Theorem buildGraph_depth_zero (s : Store) (root : Work) (N : Z) :
  N <= 0 ->
  buildGraph s root (Js.Int N)
  = Some {| graph_nodes :=
              [ {| node_id := work_id root; node_slug := work_slug root;
                   node_title := work_title root;
                   node_status := work_status root; node_depth := 0 |} ];
            graph_edges := [] |}.
Proof.
  intros HN. unfold buildGraph.
  assert (exists k, traversal_fuel s = S (S k)) as [k ->].
  { unfold traversal_fuel. exists (2 * (1 + 2 * length (workEdges s))
                                   * (length (workEdges s) + 1))%nat. lia. }
  assert (forall vis i, item_currentDepth i = 0 ->
                        skipped (Js.Int N) vis i = true) as Hskip.
  { intros vis i Hi. unfold skipped. rewrite Hi. simpl.
    by rewrite (proj2 (Z.leb_le N 0) HN). }
  simpl. unfold iteration. rewrite !Hskip by done. simpl.
  unfold iteration. rewrite !Hskip by done. simpl.
  by destruct k.
Qed.

Lemma buildGraph_depth_zero_witness :
  (fun g => (length (graph_nodes g), length (graph_edges g)))
    <$> buildGraph Sample.cycle Sample.r (Js.Int 0)
  = Some (1%nat, 0%nat).
Proof.
  by rewrite (buildGraph_depth_zero Sample.cycle Sample.r 0 ltac:(lia)).
Defined.

Lemma fetch_work (s : Store) (w : string) (dir : Direction)
    (row : WorkEdge * Work) :
  row ∈ fetch s w dir ->
  findUnique_id (works s)
    (match dir with Up => edge_fromWorkId row.1 | Down => edge_toWorkId row.1 end)
  = Some row.2.
Proof.
  destruct dir; simpl; unfold include_work;
    intros H; apply list_elem_of_omap in H as (e & He & Hrow);
    destruct (findUnique_id _ _) eqn:Hf; simplify_eq/=; done.
Qed.

Lemma nodes_set_keys (m : NodeMap) (k : string) (n : LineageNode) :
  nodes_has m k = false ->
  forall k', k' ∈ (nodes_set m k n).*1 <-> k' = k \/ k' ∈ m.*1.
Proof.
  intros Hf k'. rewrite nodes_set_fresh by done.
  rewrite fmap_app, elem_of_app. simpl. rewrite list_elem_of_singleton. tauto.
Qed.

(** Adding a snapshot under its id, when the id is new, keeps the graph
    closed; so does recording a stored edge between known ids, and queueing
    a known id. *)
Lemma graph_closed_visit (s : Store) (root : Work) (t : Traversal)
    (e : WorkEdge) (w : Work) (k : string) (dir : Direction) (nd d : Z)
    (record : bool) :
  graph_closed s root t ->
  e ∈ workEdges s ->
  findUnique_id (works s) k = Some w ->
  (k = edge_fromWorkId e \/ k = edge_toWorkId e) ->
  edge_fromWorkId e ∈ k :: (nodes t).*1 ->
  edge_toWorkId e ∈ k :: (nodes t).*1 ->
  graph_closed s root
    {| nodes :=
         if nodes_has (nodes t) k then nodes t
         else nodes_set (nodes t) k
                {| node_id := k; node_slug := work_slug w;
                   node_title := work_title w; node_status := work_status w;
                   node_depth := nd |};
       edges := if record then edges t ++ [lineage_edge e] else edges t;
       visited := visited t;
       queue := queue t ++ [ {| item_workId := k; item_direction := dir;
                                item_currentDepth := d |} ] |}.
Proof.
  intros (He & Hq & Hn) Hin Hw Hk Hfrom Hto.
  set (m' := if nodes_has (nodes t) k then nodes t else nodes_set (nodes t) k _).
  assert (forall k', k' ∈ k :: (nodes t).*1 -> k' ∈ m'.*1) as Hkeys.
  { intros k' Hk'. unfold m'.
    destruct (nodes_has (nodes t) k) eqn:Hhas.
    - apply elem_of_cons in Hk' as [->|Hk']; [by apply nodes_has_elem | done].
    - apply nodes_set_keys; [done|]. by apply elem_of_cons in Hk'. }
  unfold graph_closed. simpl. fold m'. split_and!.
  - intros e' He'.
    assert (e' ∈ edges t \/ e' = lineage_edge e) as [Hold | ->].
    { destruct record; [|by left].
      apply elem_of_app in He' as [?|He']; [by left|].
      apply list_elem_of_singleton in He'. by right. }
    + destruct (He e' Hold) as (Hse & Hs & Ht).
      split_and!; [done | |]; apply Hkeys; by right.
    + split_and!; [by exists e | by apply Hkeys | by apply Hkeys].
  - intros i Hi. apply elem_of_app in Hi as [Hi|Hi].
    + apply Hkeys. right. by apply Hq.
    + apply list_elem_of_singleton in Hi as ->. apply Hkeys. left.
  - intros kv Hkv. unfold m' in Hkv.
    destruct (nodes_has (nodes t) k) eqn:Hhas; [by apply Hn|].
    rewrite nodes_set_fresh in Hkv by done.
    apply elem_of_app in Hkv as [Hkv|Hkv]; [by apply Hn|].
    apply list_elem_of_singleton in Hkv as ->. simpl. split; [done|].
    exists w. simpl. split_and!; try done. by right.
    apply find_elem in Hw as [_ Hm]. by apply bool_decide_eq_true in Hm.
Qed.

Lemma step_closed (s : Store) (root : Work) (depth : Js.number) (t t' : Traversal) :
  graph_closed s root t -> step s depth t = Some t' -> graph_closed s root t'.
Proof.
  intros (He & Hq & Hn). unfold step.
  destruct (queue t) as [|i rest] eqn:Hqueue; [done|]. intros [= <-].
  assert (item_workId i ∈ (nodes t).*1) as Hi by (apply Hq; left).
  assert (graph_closed s root
            {| nodes := nodes t; edges := edges t; visited := visited t;
               queue := rest |}) as H0.
  { split_and!; [done | | done]. intros i' Hi'. apply Hq. by right. }
  unfold iteration. destruct (skipped _ _ i); [done|]. simpl.
  destruct (item_direction i).
  - apply (foldl_invariant
             (fun a => graph_closed s root a
                       /\ item_workId i ∈ (nodes a).*1)).
    + by split.
    + intros a [e w] Hrow [Ha Hia].
      pose proof (fetch_work s (item_workId i) Up _ Hrow) as Hw.
      pose proof (fetch_elem s (item_workId i) Up _ Hrow) as [Hin Hto].
      simpl in *.
      pose proof (graph_closed_visit s root a e w (edge_fromWorkId e) Up
                    (- (item_currentDepth i + 1))
                    (item_currentDepth i + 1) true Ha Hin Hw
                    ltac:(by left) ltac:(left)
                    ltac:(right; by rewrite Hto)) as Hc.
      split; [exact Hc|].
      destruct (nodes_has (nodes a) (edge_fromWorkId e)) eqn:Hhas; [done|].
      apply nodes_set_keys; [done | by right].
  - apply (foldl_invariant
             (fun a => graph_closed s root a
                       /\ item_workId i ∈ (nodes a).*1)).
    + by split.
    + intros a [e w] Hrow [Ha Hia].
      pose proof (fetch_work s (item_workId i) Down _ Hrow) as Hw.
      pose proof (fetch_elem s (item_workId i) Down _ Hrow) as [Hin Hfrom].
      simpl in *.
      pose proof (graph_closed_visit s root a e w (edge_toWorkId e) Down
                    (item_currentDepth i + 1) (item_currentDepth i + 1)
                    (negb (edges_find (edges a) (edge_fromWorkId e)
                             (edge_toWorkId e)))
                    Ha Hin Hw ltac:(by right)
                    ltac:(right; by rewrite Hfrom) ltac:(left)) as Hc.
      split.
      * unfold visit_child. destruct (edges_find _ _ _); exact Hc.
      * destruct (nodes_has (nodes a) (edge_toWorkId e)) eqn:Hhas; [done|].
        apply nodes_set_keys; [done | by right].
Qed.

Lemma start_closed (s : Store) (root : Work) : graph_closed s root (start root).
Proof.
  unfold graph_closed, start. simpl. split_and!.
  - intros e He. by apply elem_of_nil in He.
  - intros i Hi. repeat (apply elem_of_cons in Hi as [->|Hi]); simpl;
      [left | left | by apply elem_of_nil in Hi].
  - intros kv Hkv. apply list_elem_of_singleton in Hkv as ->. simpl.
    split; [done|]. exists root. simpl. split_and!; try done. by left.
Qed.

(** X8.  The graph the traversal returns is made of stored data and is
    closed: every returned edge is a stored edge under its own id and type,
    both ends of every returned edge are returned nodes, and every node
    carries the id, slug, title and tier of the stored work with that id
    (the start work for the start node). *)
Theorem buildGraph_closed (s : Store) (root : Work) (depth : Js.number) :
  exists g,
    buildGraph s root depth = Some g
    /\ (forall e, e ∈ graph_edges g ->
          exists se, se ∈ workEdges s /\ e = lineage_edge se)
    /\ (forall e, e ∈ graph_edges g ->
          ledge_source e ∈ node_id <$> graph_nodes g
          /\ ledge_target e ∈ node_id <$> graph_nodes g)
    /\ (forall n, n ∈ graph_nodes g -> snapshot_of s root n).
Proof.
  destruct (loop_terminates s root depth) as (t & Hl & _ & Hb).
  pose proof (loop_invariant (graph_closed s root) s depth
                (traversal_fuel s) (start root) t
                (fun a b Ha Hs => step_closed s root depth a b Ha Hs)
                (start_closed s root) Hl) as (He & _ & Hn).
  assert (node_id <$> graph_nodes (graph_of t) = (nodes t).*1) as Hids.
  { simpl. rewrite <- list_fmap_compose. apply list_fmap_ext.
    intros i kv Hi. apply list_elem_of_lookup_2 in Hi.
    destruct (Hn kv Hi) as [-> _]. done. }
  exists (graph_of t). split_and!; [done | | |].
  - intros e Hin. by destruct (He e Hin).
  - intros e Hin. rewrite Hids. by destruct (He e Hin) as (_ & ? & ?).
  - intros n Hin. simpl in Hin.
    apply list_elem_of_fmap in Hin as (kv & -> & Hkv). by destruct (Hn kv Hkv).
Qed.

(* ===================================================================== *)
(** ** Recorded edges in a store without cycles *)
(* ===================================================================== *)

Lemma hops_nonneg (es : list WorkEdge) (a b : string) (k : Z) :
  hops es a b k -> 0 <= k.
Proof. induction 1; lia. Qed.

Lemma hops_trans (es : list WorkEdge) (a b c : string) (k k' : Z) :
  hops es a b k -> hops es b c k' -> hops es a c (k + k').
Proof.
  intros H1 H2. induction H1 as [a|e b k He _ IH]; [done|].
  replace (k + 1 + k') with (k + k' + 1) by lia.
  apply hops_edge; [done | by apply IH].
Qed.

Lemma visit_parents_edges (d : Z) (rows : list (WorkEdge * Work)) (t : Traversal) :
  edges (foldl (visit_parent d) t rows)
  = edges t ++ ((fun row => lineage_edge row.1) <$> rows).
Proof.
  revert t. induction rows as [|[e w] rows IH]; intros t.
  - simpl. by rewrite app_nil_r.
  - etrans; [apply (IH (visit_parent d t (e, w)))|]. simpl.
    by rewrite <- app_assoc.
Qed.

Lemma omap_sublist {A B} (f : A -> option (A * B)) (l : list A) :
  (forall x y, f x = Some y -> y.1 = x) ->
  (omap f l).*1 `sublist_of` l.
Proof.
  intros Hf. induction l as [|x l IH]; [done|].
  change (omap f (x :: l))
    with (match f x with Some y => y :: omap f l | None => omap f l end).
  destruct (f x) as [y|] eqn:Hy.
  - rewrite fmap_cons, (Hf x y Hy). by apply sublist_skip.
  - by apply sublist_cons.
Qed.

Lemma fetch_sublist (s : Store) (w : string) (dir : Direction) :
  (fetch s w dir).*1 `sublist_of` workEdges s.
Proof.
  destruct dir; simpl; unfold include_work, edges_to, edges_from.
  - etrans; [apply omap_sublist | apply sublist_filter].
    intros x y. destruct (findUnique_id _ _); simpl; [|done]. by intros [= <-].
  - etrans; [apply omap_sublist | apply sublist_filter].
    intros x y. destruct (findUnique_id _ _); simpl; [|done]. by intros [= <-].
Qed.

Lemma edges_find_pairs (es : list LineageEdge) (a b : string) :
  edges_find es a b = false <-> (a, b) ∉ pairs es.
Proof.
  unfold edges_find, pairs. induction es as [|e es IH]; simpl.
  - split; [intros _ H; by apply elem_of_nil in H | done].
  - rewrite orb_false_iff, IH, not_elem_of_cons, andb_false_iff,
      !bool_decide_eq_false. split.
    + intros [Hne Hin]. split; [|done]. intros [= -> ->]. tauto.
    + intros [Hne Hin]. split; [|done].
      destruct (decide (ledge_source e = a)) as [<-|]; [|by left].
      destruct (decide (ledge_target e = b)) as [<-|]; [|by right]. done.
Qed.

Lemma step_recorded (s : Store) (root : Work) (depth : Js.number)
    (t t' : Traversal) :
  edges_unique (workEdges s) -> acyclic (workEdges s) ->
  traversal_ok s root depth t -> recorded_once s root t ->
  step s depth t = Some t' -> recorded_once s root t'.
Proof.
  intros Huniq Hacyc (_ & _ & _ & Hq) [Hnd Htag]. unfold step.
  destruct (queue t) as [|i rest]; [done|]. intros [= <-].
  apply Forall_cons in Hq as [[Hd Hi] _].
  unfold iteration. destruct (skipped _ _ i) eqn:Hsk; [done|].
  apply orb_false_iff in Hsk as [_ Hkey].
  apply bool_decide_eq_false in Hkey. simpl in Hkey. simpl.
  destruct (item_direction i) eqn:Hdir.
  - match goal with
    | |- recorded_once _ _ (foldl _ ?t1 ?rows) =>
        destruct (visit_parents_queue (item_currentDepth i) rows t1) as [_ Hvis];
        pose proof (visit_parents_edges (item_currentDepth i) rows t1) as Hedges
    end.
    simpl in Hvis, Hedges. unfold recorded_once. rewrite Hvis, Hedges.
    set (rows := include_work _ _ _) in *.
    assert (forall row, row ∈ rows ->
                        row.1 ∈ workEdges s /\ edge_toWorkId row.1 = item_workId i)
      as Hrows by (intros row Hrow; apply (fetch_elem s _ Up row Hrow)).
    split.
    + unfold pairs. rewrite fmap_app. apply NoDup_app. split_and!; [done | |].
      * intros pr Hold Hnew.
        apply list_elem_of_fmap in Hold as (e0 & -> & He0).
        apply list_elem_of_fmap in Hnew as (e1 & Heq & He1).
        apply list_elem_of_fmap in He1 as (row & -> & Hrow).
        destruct (Hrows row Hrow) as [Hin Hto].
        simpl in Heq. injection Heq as Hsrc Htgt.
        destruct (Htag e0 He0) as [Hup | [k Hk]].
        -- apply Hkey. by rewrite <- Hto, <- Htgt.
        -- assert (hops (workEdges s) (edge_fromWorkId row.1)
                     (edge_fromWorkId row.1) (item_currentDepth i + 1 + k))
             as Hloop.
           { apply (hops_trans _ _ (work_id root)); [|by rewrite <- Hsrc].
             apply hops_edge; [done | by rewrite Hto]. }
           apply Hacyc in Hloop. apply hops_nonneg in Hk. lia.
      * assert ((fun e => (ledge_source e, ledge_target e))
                  <$> ((fun row : WorkEdge * Work => lineage_edge row.1) <$> rows)
                = (fun e => (edge_fromWorkId e, edge_toWorkId e)) <$> rows.*1)
          as ->.
        { rewrite <- !list_fmap_compose. by apply list_fmap_ext. }
        apply (sublist_NoDup _
                 ((fun e => (edge_fromWorkId e, edge_toWorkId e))
                    <$> workEdges s)); [done|].
        apply fmap_sublist. apply (fetch_sublist s (item_workId i) Up).
    + intros e He. apply elem_of_app in He as [He|He].
      * destruct (Htag e He) as [Hup|Hdown]; [left; set_solver | by right].
      * apply list_elem_of_fmap in He as (row & -> & Hrow).
        destruct (Hrows row Hrow) as [_ Hto]. left. simpl. rewrite Hto.
        set_solver.
  - apply (foldl_invariant
             (fun a => recorded_once s root a
                       /\ visited a
                          = {[ visitKey (item_workId i) Down ]} ∪ visited t)).
    + split; [|done]. split; [done|]. simpl. intros e He.
      destruct (Htag e He) as [Hup|Hdown]; [left; set_solver | by right].
    + intros a [e w] Hrow [[Hnda Htaga] Hva].
      pose proof (fetch_elem s (item_workId i) Down _ Hrow) as [Hin Hfrom].
      simpl in Hin, Hfrom. split; [|done]. unfold recorded_once. simpl.
      destruct (edges_find (edges a) _ _) eqn:Hfind; [done|].
      apply edges_find_pairs in Hfind. split.
      * unfold pairs in *. rewrite fmap_app. apply NoDup_app.
        split_and!; [done | | apply NoDup_singleton].
        intros pr Hpr Hpr'. simpl in Hpr'.
        apply list_elem_of_singleton in Hpr' as ->. done.
      * intros e' He'. apply elem_of_app in He' as [He'|He']; [by apply Htaga|].
        apply list_elem_of_singleton in He' as ->. right.
        exists (item_currentDepth i). simpl. by rewrite Hfrom.
Qed.

(** X9.  In a store with one edge per ordered pair and no cycle, the edge
    list the traversal returns has each ordered (source, target) pair at
    most once, for every start work and depth bound. *)
Theorem buildGraph_acyclic_records_once (s : Store) (root : Work)
    (depth : Js.number) :
  edges_unique (workEdges s) ->
  acyclic (workEdges s) ->
  exists g, buildGraph s root depth = Some g /\ NoDup (pairs (graph_edges g)).
Proof.
  intros Huniq Hacyc.
  destruct (loop_terminates s root depth) as (t & Hl & _ & Hb).
  exists (graph_of t). split; [done|].
  assert (traversal_ok s root depth t /\ recorded_once s root t) as [_ [H _]].
  { apply (loop_invariant
             (fun a => traversal_ok s root depth a /\ recorded_once s root a)
             s depth (traversal_fuel s) (start root) t); [| |exact Hl].
    - intros a b [Hok Hrec] Hs. split.
      + by apply (step_ok s root depth a b).
      + by apply (step_recorded s root depth a b).
    - split; [apply start_ok|]. split; [constructor|].
      intros e He. by apply elem_of_nil in He. }
  exact H.
Qed.

Lemma ranked_acyclic (es : list WorkEdge) (rank : string -> Z) :
  (forall e, e ∈ es -> rank (edge_fromWorkId e) < rank (edge_toWorkId e)) ->
  acyclic es.
Proof.
  intros Hrank.
  assert (forall a b k, hops es a b k -> rank a + k <= rank b) as H.
  { intros a b k Hh. induction Hh as [a|e c k He _ IH]; [lia|].
    specialize (Hrank e He). lia. }
  intros a k Hh. specialize (H a a k Hh). lia.
Qed.

Lemma buildGraph_acyclic_records_once_witness :
  exists g,
    buildGraph Sample.chain (Sample.work "b" "second-0002" JAM) (Js.Int 3) = Some g
    /\ NoDup (pairs (graph_edges g)).
Proof.
  apply (buildGraph_acyclic_records_once Sample.chain
           (Sample.work "b" "second-0002" JAM) (Js.Int 3)).
  - apply (bool_decide_unpack _). vm_compute. exact I.
  - apply (ranked_acyclic _ Demo2.rank). intros e He. simpl in He.
    repeat (apply elem_of_cons in He as [->|He]);
      [by vm_compute | by vm_compute | by apply elem_of_nil in He].
Defined.

(* ===================================================================== *)
(** ** Visit keys *)
(* ===================================================================== *)

Lemma append_length (a b : string) :
  String.length (a +:+ b) = (String.length a + String.length b)%nat.
Proof. induction a as [|c a IH]; simpl; [done | by rewrite IH]. Qed.

(** Equal strings that end in suffixes of the same length have equal
    suffixes and equal fronts. *)
Lemma append_split (a b c d : string) :
  a +:+ c = b +:+ d -> String.length c = String.length d -> a = b /\ c = d.
Proof.
  revert b. induction a as [|x a IH]; intros b Heq Hlen.
  - destruct b as [|y b]; [done|].
    apply (f_equal String.length) in Heq.
    rewrite !append_length in Heq. simpl in Heq. lia.
  - destruct b as [|y b].
    + apply (f_equal String.length) in Heq.
      rewrite !append_length in Heq. simpl in Heq. lia.
    + injection Heq as -> Heq. destruct (IH b Heq Hlen) as [-> ->]. done.
Qed.

Lemma append_assoc_3 (a b c : string) : a +:+ (b +:+ c) = (a +:+ b) +:+ c.
Proof.
  induction a as [|x a IH]; [done|].
  change (String x (a +:+ (b +:+ c)) = String x ((a +:+ b) +:+ c)).
  by rewrite IH.
Qed.

(** Two items have the same visit key only if they have the same work id
    and the same direction. *)
Lemma visitKey_injective (w1 w2 : string) (d1 d2 : Direction) :
  visitKey w1 d1 = visitKey w2 d2 -> w1 = w2 /\ d1 = d2.
Proof.
  intros H. destruct d1, d2.
  - change (w1 +:+ "-up" = w2 +:+ "-up") in H.
    by destruct (append_split w1 w2 "-up" "-up" H eq_refl) as [-> _].
  - change (w1 +:+ "-up" = w2 +:+ ("-d" +:+ "own")) in H.
    rewrite (append_assoc_3 w2 "-d" "own") in H.
    by destruct (append_split w1 (w2 +:+ "-d") "-up" "own" H eq_refl).
  - change (w1 +:+ ("-d" +:+ "own") = w2 +:+ "-up") in H.
    rewrite (append_assoc_3 w1 "-d" "own") in H.
    by destruct (append_split (w1 +:+ "-d") w2 "own" "-up" H eq_refl).
  - change (w1 +:+ "-down" = w2 +:+ "-down") in H.
    by destruct (append_split w1 w2 "-down" "-down" H eq_refl) as [-> _].
Qed.

(** X10.  The visit key tells work and direction apart: two items have the
    same key exactly when they have the same work id and the same
    direction, whatever the ids are (an id may itself end in [-up] or
    [-down]).  So a visited key never makes the loop skip another work or
    the other direction. *)
Theorem visitKey_inj (w1 w2 : string) (d1 d2 : Direction) :
  visitKey w1 d1 = visitKey w2 d2 <-> w1 = w2 /\ d1 = d2.
Proof.
  split; [apply visitKey_injective | by intros [-> ->]].
Qed.

(* ===================================================================== *)
(** ** Provenance *)
(* ===================================================================== *)

Lemma POST_provenance_complete (env : Env) (fault : Fault) (workId : string)
    (b : ProvenanceBody) (s : Store) :
  complete b ->
  POST_provenance env fault workId (Some b) s
  = match findUnique_id (works s) workId with
    | None => (NotFound, s)
    | Some work =>
        match findProvenance (o8Provenances s) workId with
        | Some _ => (Err 409 "Provenance already exists for this work", s)
        | None =>
            match attempt fault 0
                    (o8Provenance_create (provenance_row env workId b)) s with
            | None => (Err 500 "Failed to create provenance", s)
            | Some (provenance, s1) =>
                match work_ctadMetadata work with
                | None =>
                    (Ok 200 (ProvenanceAttached (prov_id provenance) false), s1)
                | Some ctad =>
                    match attempt fault 1
                            (work_update_write workId
                               (set_ctadMetadata
                                  (provenance_ctad env b (prov_id provenance) ctad)))
                            s1 with
                    | Some (_, s2) =>
                        (Ok 200 (ProvenanceAttached (prov_id provenance) false), s2)
                    | None => (Err 500 "Failed to create provenance", s1)
                    end
                end
            end
        end
    end.
Proof.
  intros (H1 & H2 & H3 & H4 & H5 & H6 & H7). unfold POST_provenance.
  by rewrite H1, H2, H3, H4, H5, H6, H7.
Qed.

Lemma findProvenance_added (ps : list O8Provenance) (p : O8Provenance) :
  is_Some (findProvenance (ps ++ [p]) (prov_workId p)).
Proof.
  unfold findProvenance. induction ps as [|x ps IH]; simpl.
  - rewrite bool_decide_eq_true_2 by done. by eexists.
  - destruct (bool_decide _); [by eexists | done].
Qed.

(** X11.  One provenance per work.  A request that is answered with
    success stored exactly one provenance row, for that work; and once a
    work has a provenance row, every further request for it is refused and
    changes nothing (with 409 when its body is complete and the work
    exists). *)
Theorem POST_provenance_once (env : Env) (fault : Fault) (workId : string)
    (body : option ProvenanceBody) (s : Store) :
  (forall st r s',
      POST_provenance env fault workId body s = (Ok st r, s') ->
      findProvenance (o8Provenances s) workId = None
      /\ exists p, o8Provenances s' = o8Provenances s ++ [p]
                   /\ prov_workId p = workId
                   /\ r = ProvenanceAttached (prov_id p) false
                   /\ is_Some (findProvenance (o8Provenances s') workId))
  /\ (is_Some (findProvenance (o8Provenances s) workId) ->
      (exists st msg,
          POST_provenance env fault workId body s = (Err st msg, s))
      /\ (forall b, body = Some b -> complete b ->
                    is_Some (findUnique_id (works s) workId) ->
                    POST_provenance env fault workId body s
                    = (Err 409 "Provenance already exists for this work", s))).
Proof.
  split.
  - intros st r s' H. unfold POST_provenance in H.
    destruct body as [b|]; [|done].
    repeat (match type of H with
            | context [if missing ?x then _ else _] =>
                destruct (missing x); [done|]
            end).
    destruct (findUnique_id (works s) workId) as [w|]; [|done].
    destruct (findProvenance (o8Provenances s) workId) eqn:Hp; [done|].
    split; [done|].
    match type of H with
    | context [o8Provenance_create ?p] => set (prov := p) in *
    end.
    assert (forall s1 c x s2,
               work_update_write workId (set_ctadMetadata c)
                 (add_provenance s1 prov) = Some (x, s2) ->
               o8Provenances s2 = o8Provenances s1 ++ [prov]) as Hkeep.
    { intros s1 c x s2 Hu. unfold work_update_write in Hu.
      destruct (work_update _ _ _); [|done].
      destruct (findUnique_id _ _); [|done]. by injection Hu as _ <-. }
    exists prov.
    assert (is_Some (findProvenance (o8Provenances s ++ [prov]) workId)) as Hfound
      by apply (findProvenance_added (o8Provenances s) prov).
    unfold attempt at 1 in H.
    change (o8Provenance_create prov s) with (Some (prov, add_provenance s prov)) in H.
    destruct fault as [|k|]; [|destruct (Nat.eqb k 0)|]; try done.
    + destruct (work_ctadMetadata w) as [c|].
      * unfold attempt in H.
        destruct (work_update_write _ _ _) as [[x s2]|] eqn:Hu; [|done].
        injection H as <- <- <-. rewrite (Hkeep _ _ _ _ Hu). done.
      * injection H as <- <- <-. done.
    + destruct (work_ctadMetadata w) as [c|].
      * unfold attempt in H. destruct (Nat.eqb k 1); [done|].
        destruct (work_update_write _ _ _) as [[x s2]|] eqn:Hu; [|done].
        injection H as <- <- <-. rewrite (Hkeep _ _ _ _ Hu). done.
      * injection H as <- <- <-. done.
    + destruct (work_ctadMetadata w) as [c|].
      * unfold attempt in H.
        destruct (work_update_write _ _ _) as [[x s2]|] eqn:Hu; [|done].
        injection H as <- <- <-. rewrite (Hkeep _ _ _ _ Hu). done.
      * injection H as <- <- <-. done.
  - intros [p Hp]. split.
    + unfold POST_provenance. destruct body as [b|]; [|by eexists _, _].
      repeat (match goal with
              | |- context [if missing ?x then _ else _] =>
                  destruct (missing x); [by eexists _, _|]
              end).
      destruct (findUnique_id (works s) workId); [|by eexists _, _].
      rewrite Hp. by eexists _, _.
    + intros b -> Hb [w Hw]. rewrite POST_provenance_complete by done.
      by rewrite Hw, Hp.
Qed.

Lemma POST_provenance_once_witness :
  exists s',
    (POST_provenance Sample.env NoFault "w3" (Some Sample.provenance)
       Sample.archive).2 = s'
    /\ POST_provenance Sample.env NoFault "w3" (Some Sample.provenance) s'
       = (Err 409 "Provenance already exists for this work", s').
Proof.
  eexists. split; [reflexivity|].
  destruct (POST_provenance_once Sample.env NoFault "w3" (Some Sample.provenance)
              (POST_provenance Sample.env NoFault "w3" (Some Sample.provenance)
                 Sample.archive).2) as [_ H].
  destruct H as [_ H]; [by vm_compute; eexists|].
  apply (H Sample.provenance); [done | by vm_compute | by vm_compute; eexists].
Defined.

(** X12.  The two writes of the provenance route are not one transaction.
    When the store refuses the second one (the update of the work's CTAD
    metadata), the request is answered 500, yet the provenance row it
    created stays stored and no work row has changed; the same request sent
    again is then refused with 409, so the CTAD metadata is never linked to
    the provenance. *)
Theorem POST_provenance_partial (env env' : Env) (workId : string)
    (b : ProvenanceBody) (s : Store) (w : Work) (c : CTADMetadata) :
  complete b ->
  findUnique_id (works s) workId = Some w ->
  work_ctadMetadata w = Some c ->
  findProvenance (o8Provenances s) workId = None ->
  POST_provenance env (WriteFails 1) workId (Some b) s
  = (Err 500 "Failed to create provenance",
     add_provenance s (provenance_row env workId b))
  /\ forall fault,
       POST_provenance env' fault workId (Some b)
         (add_provenance s (provenance_row env workId b))
       = (Err 409 "Provenance already exists for this work",
          add_provenance s (provenance_row env workId b)).
Proof.
  intros Hb Hw Hc Hp. split.
  - rewrite POST_provenance_complete by done. rewrite Hw, Hp. simpl.
    by rewrite Hc.
  - intros fault. rewrite POST_provenance_complete by done.
    destruct (findProvenance_added (o8Provenances s)
                (provenance_row env workId b)) as [p Hp'].
    change (works (add_provenance s (provenance_row env workId b)))
      with (works s).
    change (o8Provenances (add_provenance s (provenance_row env workId b)))
      with (o8Provenances s ++ [provenance_row env workId b]).
    change (prov_workId (provenance_row env workId b)) with workId in Hp'.
    by rewrite Hw, Hp'.
Qed.

Lemma POST_provenance_partial_witness :
  (POST_provenance Sample.env (WriteFails 1) "w3" (Some Sample.provenance)
     Sample.archive).1
  = Err 500 "Failed to create provenance"
  /\ length (o8Provenances
               (POST_provenance Sample.env (WriteFails 1) "w3"
                  (Some Sample.provenance) Sample.archive).2) = 1%nat.
Proof.
  destruct (POST_provenance_partial Sample.env Sample.env "w3" Sample.provenance
              Sample.archive Sample.canon
              {| ctad_ai := None;
                 ctad_timestamps :=
                   {| ts_created := "2024-06-01T00:00:00.000Z";
                      ts_modified := None; ts_generated := None;
                      ts_released := None |};
                 ctad_other := "" |}) as [H _];
    [by vm_compute | reflexivity | reflexivity | reflexivity |].
  rewrite H. done.
Defined.

(* ===================================================================== *)
(** ** The promotion dialog and the curator page *)
(* ===================================================================== *)

(** What a call of [onConfirm] tells about the event and the state it came
    from. *)
Lemma dialog_event_call (cs : WorkStatus) (f : Js.text -> Settled)
    (d d' : Dialog) (e : DialogEvent) (j : Js.text) :
  dialog_event cs f d e = (d', Some j) ->
  e = ClickSubmit
  /\ j = dlg_justification d
  /\ 10 <= Js.length (Js.trim j)
  /\ nextStatus cs <> None
  /\ dlg_open d = true
  /\ (isCanonPromotion cs = true -> dlg_confirmed d = true)
  /\ (f j = Fulfilled -> dlg_open d' = false).
Proof.
  unfold dialog_event. destruct (nextStatus cs) as [t|] eqn:Ht; [|done].
  destruct (dlg_open d) eqn:Ho; simpl; [|done].
  destruct e as [t'| |].
  - by destruct (dlg_confirmed d).
  - destruct (Js.length (Js.trim (dlg_justification d)) <? 10) eqn:Hlen;
      simpl; [done|].
    destruct (dlg_loading d); [done|].
    unfold handleSubmit. rewrite Hlen.
    apply Z.ltb_ge in Hlen.
    destruct (isCanonPromotion cs) eqn:Hc, (dlg_confirmed d) eqn:Hk; simpl;
      try done;
      destruct (f (dlg_justification d)) eqn:Hf; intros [= <- <-];
      split_and!; try done; simpl; congruence.
  - by destruct (dlg_loading d).
Qed.


Lemma dialog_calls_cons (cs : WorkStatus) (f : Js.text -> Settled)
    (d : Dialog) (e : DialogEvent) (es : list DialogEvent) :
  dialog_calls cs f d (e :: es)
  = match (dialog_event cs f d e).2 with
    | Some j => j :: dialog_calls cs f (dialog_event cs f d e).1 es
    | None => dialog_calls cs f (dialog_event cs f d e).1 es
    end.
Proof. simpl. by destruct (dialog_event cs f d e) as [d' [j|]]. Qed.

Lemma submits_cons (e : DialogEvent) (es : list DialogEvent) :
  submits (e :: es)
  = ((if decide (e = ClickSubmit) then 1 else 0) + submits es)%nat.
Proof.
  unfold submits. rewrite filter_cons. by destruct (decide (e = ClickSubmit)).
Qed.

(** Only a click on the submit button makes a call. *)
Lemma dialog_calls_submits (cs : WorkStatus) (f : Js.text -> Settled)
    (d : Dialog) (es : list DialogEvent) :
  (length (dialog_calls cs f d es) <= submits es)%nat.
Proof.
  revert d. induction es as [|e es IH]; intros d; [done|].
  rewrite dialog_calls_cons, submits_cons.
  destruct (dialog_event cs f d e) as [d' [j|]] eqn:He; simpl.
  - apply dialog_event_call in He as (-> & _). specialize (IH d').
    rewrite decide_True by done. lia.
  - specialize (IH d'). lia.
Qed.

(** An event that makes no call leaves an unconfirmed dialog unconfirmed,
    unless it is the submit click that asks for the confirmation. *)
Lemma dialog_event_unconfirmed (cs : WorkStatus) (f : Js.text -> Settled)
    (d : Dialog) (e : DialogEvent) :
  dlg_confirmed d = false ->
  dlg_confirmed (dialog_event cs f d e).1 = false \/ e = ClickSubmit.
Proof.
  intros Hk. unfold dialog_event.
  destruct (nextStatus cs); [|by left].
  destruct (negb (dlg_open d)); [by left|].
  destruct e as [t| |]; [|by right|].
  - rewrite Hk. by left.
  - destruct (dlg_loading d); by left.
Qed.

(** Every call carries a justification of trimmed length 10 or more, for
    a work that has a next tier. *)
Lemma dialog_calls_sound (cs : WorkStatus) (f : Js.text -> Settled)
    (d : Dialog) (es : list DialogEvent) (j : Js.text) :
  j ∈ dialog_calls cs f d es ->
  10 <= Js.length (Js.trim j) /\ nextStatus cs <> None.
Proof.
  revert d. induction es as [|e es IH]; intros d Hj.
  - by apply elem_of_nil in Hj.
  - rewrite dialog_calls_cons in Hj.
    destruct (dialog_event cs f d e) as [d' [j0|]] eqn:He; simpl in Hj.
    + apply elem_of_cons in Hj as [->|Hj]; [|by apply (IH d')].
      by apply dialog_event_call in He as (_ & _ & Hlen & Hn & _).
    + by apply (IH d').
Qed.

(** X13.  Whatever the curator types and clicks, and whatever state the
    dialog is in, every justification the dialog passes to [onConfirm] is
    one the promote route accepts: its test of the justification (a
    non-empty string of trimmed length 10 or more) does not reject it.  The
    dialog also calls only for a work whose tier has a valid promotion. *)
Theorem dialog_calls_accepted (cs : WorkStatus) (f : Js.text -> Settled)
    (d : Dialog) (es : list DialogEvent) (j : Js.text) :
  j ∈ dialog_calls cs f d es ->
  justification_rejected (Js.JString j) = false
  /\ VALID_PROMOTIONS cs = Some (refreshed_status cs).
Proof.
  intros Hj. apply dialog_calls_sound in Hj as [Hlen Hn]. split.
  - rewrite justification_rejected_string. by apply Z.ltb_ge.
  - by destruct cs.
Qed.

Lemma dialog_calls_accepted_witness :
  justification_rejected Sample.good = false
  /\ VALID_PROMOTIONS PLATE = Some (refreshed_status PLATE).
Proof.
  apply (dialog_calls_accepted PLATE Demo2.refuse dialog_opened
           [TypeText (text_of Sample.good); ClickSubmit; ClickSubmit]).
  vm_compute. left.
Defined.

(** X14.  Canonization takes two clicks.  For a work at PLATE, a dialog
    that has not shown the confirmation screen calls [onConfirm] only after
    the submit button was clicked at least twice, and it makes fewer calls
    than there were clicks on the submit button. *)
Theorem canonization_confirmed (f : Js.text -> Settled) (d : Dialog)
    (es : list DialogEvent) :
  dlg_confirmed d = false ->
  dialog_calls PLATE f d es <> [] ->
  (2 <= submits es)%nat
  /\ (length (dialog_calls PLATE f d es) < submits es)%nat.
Proof.
  revert d. induction es as [|e es IH]; intros d Hk Hc; [done|].
  rewrite dialog_calls_cons in *. rewrite submits_cons.
  destruct (dialog_event PLATE f d e) as [d' [j|]] eqn:He; simpl in *.
  - apply dialog_event_call in He as (_ & _ & _ & _ & _ & Hconf & _).
    rewrite Hconf in Hk; done.
  - destruct (dialog_event_unconfirmed PLATE f d e Hk) as [Hk'| ->].
    + rewrite He in Hk'. destruct (IH d' Hk' Hc). split; lia.
    + rewrite decide_True by done.
      pose proof (dialog_calls_submits PLATE f d' es) as Hle.
      destruct (dialog_calls PLATE f d' es) as [|x l] eqn:Hl; [done|].
      simpl in Hle. split; simpl; lia.
Qed.

Lemma canonization_confirmed_witness :
  (2 <= submits [TypeText (text_of Sample.good); ClickSubmit; ClickSubmit])%nat
  /\ (length (dialog_calls PLATE Demo2.refuse dialog_opened
                [TypeText (text_of Sample.good); ClickSubmit; ClickSubmit])
      < submits [TypeText (text_of Sample.good); ClickSubmit; ClickSubmit])%nat.
Proof.
  apply (canonization_confirmed Demo2.refuse dialog_opened
           [TypeText (text_of Sample.good); ClickSubmit; ClickSubmit]).
  - reflexivity.
  - by vm_compute.
Defined.



(** X16.  The dialog, the curator page and the promote route agree, when
    the webhook dispatch returns.  When the work shown in the dialog is
    stored with the tier the page shows, a justification the dialog sends,
    posted by a signed-in curator to the promote route under the work's id,
    with every write going through and the dispatch returning, is answered
    with success; the tier the route stores for the work is the one the
    page then shows in its list ([JAM] becomes [PLATE], [PLATE] becomes
    [CANON]), and the recorded justification is the trimmed text of the
    dialog.  When the dispatch throws instead, the route stores the same
    and answers 500; the page then does not refresh its list and shows the
    tier the work had, one step behind the stored one. *)
Theorem dialog_promotion_served (env : Env) (session : option SessionUser)
    (u : SessionUser) (s : Store) (w : Work) (f : Js.text -> Settled)
    (d : Dialog) (es : list DialogEvent) (j : Js.text) :
  j ∈ dialog_calls (work_status w) f d es ->
  requireCurator session = Authorized u ->
  keys_ok (works s) ->
  w ∈ works s ->
  exists p s',
    POST_promote env NoFault session (work_id w) (Some (Js.JString j)) s
    = (Ok 200 p, s')
    /\ work_status (promoted_work p) = refreshed_status (work_status w)
    /\ findFirst_id_or_slug (works s') (work_id w) = Some (promoted_work p)
    /\ promotionEvents s' = promotionEvents s ++ [promoted_event p]
    /\ pe_justification (promoted_event p) = Js.trim j
    /\ pe_toStatus (promoted_event p) = refreshed_status (work_status w)
    /\ listed_status (Ok 200 p) (work_status w) = work_status (promoted_work p)
    /\ POST_promote env DispatchFails session (work_id w)
         (Some (Js.JString j)) s
       = (Err 500 "Failed to promote work", s')
    /\ listed_status (@Err Promotion 500 "Failed to promote work")
         (work_status w) = work_status w
    /\ work_status w <> work_status (promoted_work p).
Proof.
  intros Hj Hs Hk Hw.
  apply dialog_calls_sound in Hj as [Hlen Hn].
  assert (justification_rejected (Js.JString j) = false) as Hok.
  { rewrite justification_rejected_string. by apply Z.ltb_ge. }
  assert (VALID_PROMOTIONS (work_status w) = Some (refreshed_status (work_status w)))
    as Hnext by (by destruct (work_status w)).
  destruct (promote_commits env u (work_id w) (Js.JString j) s w
              (refreshed_status (work_status w)) (proj1 Hk)
              (resolve_by_id _ _ Hk Hw) Hnext Hok)
    as (before & after & Hws & Hp & Hfind & _).
  unfold POST_promote. rewrite Hs, promote_dispatch_fails, Hp.
  eexists _, _. split; [reflexivity|]. simpl.
  split_and!; try done.
  destruct (work_status w); done.
Qed.

Lemma dialog_promotion_served_witness :
  exists p s',
    POST_promote Sample.env NoFault (Some Sample.curator) "w2"
      (Some Sample.good) (Sample.store [Sample.jam; Sample.plate] [])
    = (Ok 200 p, s')
    /\ work_status (promoted_work p) = CANON.
Proof.
  destruct (dialog_promotion_served Sample.env (Some Sample.curator)
              Sample.curator (Sample.store [Sample.jam; Sample.plate] [])
              Sample.plate Demo2.refuse dialog_opened
              [TypeText (text_of Sample.good); ClickSubmit; ClickSubmit]
              (text_of Sample.good))
    as (p & s' & H & Hst & _).
  - vm_compute. left.
  - reflexivity.
  - split_and!.
    + apply (bool_decide_unpack _). by vm_compute.
    + apply (bool_decide_unpack _). by vm_compute.
    + intros w w' Hw Hw' Heq. simpl in Hw, Hw'.
      repeat (apply elem_of_cons in Hw as [->|Hw]);
        repeat (apply elem_of_cons in Hw' as [->|Hw']);
        try done; by apply elem_of_nil in Hw || by apply elem_of_nil in Hw'.
  - simpl. right. left.
  - exists p, s'. by split.
Defined.

(* ===================================================================== *)
(** ** Graph layout *)
(* ===================================================================== *)

Lemma insert_by_depth_perm (n : LineageNode) (l : list LineageNode) :
  insert_by_depth n l ≡ₚ n :: l.
Proof.
  induction l as [|m r IH]; simpl; [done|].
  destruct (node_depth n <=? node_depth m); [done|].
  rewrite IH. apply Permutation_swap.
Qed.

Lemma sort_by_depth_perm (l : list LineageNode) : sort_by_depth l ≡ₚ l.
Proof.
  unfold sort_by_depth. induction l as [|n l IH]; simpl; [done|].
  by rewrite insert_by_depth_perm, IH.
Qed.

Lemma insert_by_depth_sorted (n : LineageNode) (l : list LineageNode) :
  StronglySorted by_depth l -> StronglySorted by_depth (insert_by_depth n l).
Proof.
  induction l as [|m r IH]; simpl; intros Hs.
  - constructor; [constructor | done].
  - apply StronglySorted_cons in Hs as [Hm Hr].
    destruct (node_depth n <=? node_depth m) eqn:Hle.
    + apply Z.leb_le in Hle. constructor.
      * by apply StronglySorted_cons.
      * constructor; [done|].
        eapply Forall_impl; [exact Hm|]. unfold by_depth. simpl. intros; lia.
    + apply Z.leb_gt in Hle. constructor; [by apply IH|].
      rewrite insert_by_depth_perm. constructor; [|done].
      unfold by_depth. lia.
Qed.

Lemma sort_by_depth_sorted (l : list LineageNode) :
  StronglySorted by_depth (sort_by_depth l).
Proof.
  unfold sort_by_depth. induction l as [|n l IH]; simpl; [constructor|].
  by apply insert_by_depth_sorted.
Qed.

(** Pushing a node that is at least as deep as every group: it goes to the
    end of the last group or into a new last group. *)
Lemma group_push_sorted (m : DepthGroups) (n : LineageNode) :
  groups_sorted m ->
  Forall (fun d => d <= node_depth n) (m.*1) ->
  groups_sorted (group_push m n)
  /\ grouped (group_push m n) = grouped m ++ [n]
  /\ Forall (fun d => d <= node_depth n) ((group_push m n).*1).
Proof.
  unfold groups_sorted, grouped.
  induction m as [|[d g] r IH]; simpl; intros [Hs Hd] Hle.
  - split_and!; [repeat constructor | repeat constructor | done | by repeat constructor].
  - apply StronglySorted_cons in Hs as [Hdr Hs].
    apply Forall_cons in Hd as [Hg Hd]. apply Forall_cons in Hle as [Hdn Hle].
    destruct (decide (d = node_depth n)) as [->|Hne].
    + assert (r = []) as ->.
      { destruct r as [|[d' g'] r]; [done|]. exfalso.
        apply Forall_cons in Hdr as [Hlt _]. apply Forall_cons in Hle as [Hle' _].
        simpl in *. lia. }
      simpl. split_and!.
      * repeat constructor.
      * constructor; [|done]. simpl. apply Forall_app. split; [done|].
        by repeat constructor.
      * by rewrite !app_nil_r.
      * by repeat constructor.
    + destruct (IH (conj Hs Hd) Hle) as ((Hs' & Hd') & Hflat & Hle').
      simpl. split_and!.
      * apply StronglySorted_cons. split; [|done].
        apply Forall_forall. intros d' Hd'in.
        rewrite Forall_forall in Hle'. specialize (Hle' d' Hd'in).
        assert (d' ∈ r.*1 \/ d' = node_depth n) as [Hin| ->].
        { clear -Hd'in. induction r as [|[d0 g0] r IHr]; simpl in *.
          - apply list_elem_of_singleton in Hd'in. by right.
          - destruct (decide (d0 = node_depth n)); simpl in *.
            + by left.
            + apply elem_of_cons in Hd'in as [->|Hin]; [left; left|].
              destruct (IHr Hin) as [?|?]; [left; by right | by right]. }
        -- rewrite Forall_forall in Hdr. by apply Hdr.
        -- simpl in *. lia.
      * by constructor.
      * etrans; [apply (f_equal (app g)); exact Hflat | apply app_assoc].
      * by constructor.
Qed.

(** The groups of a sorted list are the list cut where the depth changes. *)
Lemma groups_of_sorted (l : list LineageNode) :
  StronglySorted by_depth l ->
  groups_sorted (foldl group_push [] l)
  /\ grouped (foldl group_push [] l) = l
  /\ forall d, d ∈ (foldl group_push [] l).*1 ->
               exists x, x ∈ l /\ d <= node_depth x.
Proof.
  induction l as [|n l IH] using rev_ind; intros Hs.
  - split_and!; [split; constructor | done |].
    intros d Hd. by apply elem_of_nil in Hd.
  - apply StronglySorted_app in Hs as (Hln & Hl & _).
    destruct (IH Hl) as (Hg & Hflat & Hkeys).
    rewrite foldl_snoc.
    destruct (group_push_sorted (foldl group_push [] l) n Hg)
      as (Hg' & Hflat' & Hle').
    { apply Forall_forall. intros d Hd.
      destruct (Hkeys d Hd) as (x & Hx & Hdx).
      assert (n ∈ [n]) as Hn by left.
      specialize (Hln x n Hx Hn).
      unfold by_depth in Hln. lia. }
    split_and!; [done | by rewrite Hflat', Hflat |].
    intros d Hd. exists n. split; [apply elem_of_app; right; left|].
    rewrite Forall_forall in Hle'. by apply Hle'.
Qed.

Lemma imap_Forall2 {A B} (R : A -> B -> Prop) (f : nat -> A -> B) (l : list A) :
  (forall i x, x ∈ l -> R x (f i x)) -> Forall2 R l (imap f l).
Proof.
  revert f. induction l as [|x l IH]; intros f H; [constructor|].
  rewrite imap_cons. constructor; [apply H; left|].
  apply IH. intros i y Hy. apply (H (S i) y). by right.
Qed.

Lemma place_group_draws (cur : string) (d : Z) (g : list LineageNode) :
  Forall (fun n => node_depth n = d) g ->
  Forall2 (flow_of cur) g (place_group cur d g).
Proof.
  intros Hd. apply imap_Forall2. intros i x Hx.
  rewrite Forall_forall in Hd. specialize (Hd x Hx).
  unfold flow_of. simpl. by rewrite Hd.
Qed.

Lemma groups_draw (cur : string) (m : DepthGroups) :
  Forall (fun dg => Forall (fun n => node_depth n = dg.1) dg.2) m ->
  Forall2 (flow_of cur) (grouped m)
    (m ≫= fun '(depth, group) => place_group cur depth group).
Proof.
  unfold grouped. induction m as [|[d g] r IH]; intros Hd; [constructor|].
  apply Forall_cons in Hd as [Hg Hd]. rewrite !bind_cons.
  apply Forall2_app; [by apply place_group_draws | by apply IH].
Qed.

(** X17.  The layout draws every node of the graph exactly once, in the
    order of the stable sort by depth: the sorted list is a permutation of
    the graph's nodes, ascending in depth, and the flow nodes are, one for
    one and in this order, its nodes with the node's id, title and status,
    the mark of the current work, and the column [200 * depth]. *)
Theorem layout_draws_sorted (currentWorkId : string) (nodes : list LineageNode) :
  sort_by_depth nodes ≡ₚ nodes
  /\ StronglySorted by_depth (sort_by_depth nodes)
  /\ Forall2 (flow_of currentWorkId) (sort_by_depth nodes)
       (layout currentWorkId nodes).
Proof.
  split_and!; [apply sort_by_depth_perm | apply sort_by_depth_sorted |].
  destruct (groups_of_sorted (sort_by_depth nodes) (sort_by_depth_sorted nodes))
    as ((_ & Hd) & Hflat & _).
  unfold layout. rewrite <- Hflat at 1. by apply groups_draw.
Qed.

Lemma far_sym (a b : FlowNode) : far a b -> far b a.
Proof. unfold far. intros [H|H]; [left | right]; lia. Qed.

Lemma separated_app (l1 l2 : list FlowNode) :
  separated l1 -> separated l2 ->
  (forall a b, a ∈ l1 -> b ∈ l2 -> far a b) ->
  separated (l1 ++ l2).
Proof.
  intros H1 H2 H12 i j a b Hij Ha Hb.
  apply lookup_app_Some in Ha as [Ha|[Hi Ha]];
    apply lookup_app_Some in Hb as [Hb|[Hj Hb]].
  - by apply (H1 i j).
  - apply H12; by eapply list_elem_of_lookup_2.
  - apply far_sym. apply H12; by eapply list_elem_of_lookup_2.
  - apply (H2 (i - length l1)%nat (j - length l1)%nat); [lia | done | done].
Qed.

Lemma place_group_separated (cur : string) (d : Z) (g : list LineageNode) :
  separated (place_group cur d g).
Proof.
  intros i j a b Hij Ha Hb. unfold place_group in *.
  rewrite list_lookup_imap in Ha, Hb.
  destruct (g !! i) as [x|]; [|done]. destruct (g !! j) as [y|]; [|done].
  injection Ha as <-. injection Hb as <-.
  right. simpl. unfold VERTICAL_SPACING. lia.
Qed.

Lemma place_group_column (cur : string) (d : Z) (g : list LineageNode)
    (a : FlowNode) :
  a ∈ place_group cur d g -> flow_x a = d * HORIZONTAL_SPACING.
Proof.
  intros Ha. apply elem_of_lookup_imap_1 in Ha as (i & x & -> & _). done.
Qed.

Lemma groups_separated (cur : string) (m : DepthGroups) :
  StronglySorted Z.lt (m.*1) ->
  separated (m ≫= fun '(depth, group) => place_group cur depth group).
Proof.
  induction m as [|[d g] r IH]; intros Hs.
  - intros i j a b _ Ha. done.
  - simpl in Hs. apply StronglySorted_cons in Hs as [Hdr Hs].
    rewrite bind_cons. apply separated_app;
      [apply place_group_separated | by apply IH |].
    intros a b Ha Hb. apply list_elem_of_bind in Hb as ([d' g'] & Hb & Hin).
    apply place_group_column in Ha, Hb.
    rewrite Forall_forall in Hdr.
    assert (d < d') as Hlt.
    { apply Hdr. apply list_elem_of_fmap. by exists (d', g'). }
    left. rewrite Ha, Hb. unfold HORIZONTAL_SPACING. lia.
Qed.

(** X18.  The layout puts no two nodes on top of each other: any two flow
    nodes, whatever the depths and the order of the graph's nodes, are in
    columns at least 200 apart or, in one column, at least 120 apart
    vertically. *)
Theorem layout_separated (currentWorkId : string) (nodes : list LineageNode)
    (i j : nat) (a b : FlowNode) :
  i <> j ->
  layout currentWorkId nodes !! i = Some a ->
  layout currentWorkId nodes !! j = Some b ->
  far a b.
Proof.
  destruct (groups_of_sorted (sort_by_depth nodes) (sort_by_depth_sorted nodes))
    as ((Hs & _) & _ & _).
  apply (groups_separated currentWorkId _ Hs).
Qed.

Lemma layout_separated_witness :
  far {| flow_id := "a"; flow_x := -200; flow_y := -60;
         flow_label := Js.of_string "a"; flow_status := JAM;
         flow_isCurrent := false |}
      {| flow_id := "c"; flow_x := -200; flow_y := 60;
         flow_label := Js.of_string "c"; flow_status := JAM;
         flow_isCurrent := false |}.
Proof.
  apply (layout_separated "b"
           [Demo2.node "b" 0; Demo2.node "a" (-1); Demo2.node "d" 1;
            Demo2.node "c" (-1)] 0%nat 1%nat).
  - lia.
  - reflexivity.
  - reflexivity.
Defined.

(* ===================================================================== *)
(** ** Slugs *)
(* ===================================================================== *)

(** What [replace_runs] writes: a hyphen, or a character of the input that
    is not of the class. *)
Lemma replace_runs_elem (p : N -> bool) (b : bool) (s : Js.text) (c : N) :
  c ∈ replace_runs p b s -> c = hyphen \/ (c ∈ s /\ p c = false).
Proof.
  revert b. induction s as [|x s IH]; intros b; simpl.
  - intros H. by apply elem_of_nil in H.
  - destruct (p x) eqn:Hx; [destruct b|].
    + intros H. destruct (IH true H) as [?|[? ?]]; [by left|].
      right. split; [by right | done].
    + intros H. apply elem_of_cons in H as [->|H]; [by left|].
      destruct (IH true H) as [?|[? ?]]; [by left|].
      right. split; [by right | done].
    + intros H. apply elem_of_cons in H as [->|H].
      * right. split; [left | done].
      * destruct (IH false H) as [?|[? ?]]; [by left|].
        right. split; [by right | done].
Qed.

(** Inside a run nothing of the class is written first. *)
Lemma replace_runs_head (p : N -> bool) (s : Js.text) (c : N) :
  head (replace_runs p true s) = Some c -> p c = false.
Proof.
  induction s as [|x s IH]; simpl; [done|].
  destruct (p x) eqn:Hx; [exact IH|]. simpl. by intros [= <-].
Qed.

(** No two characters of the class follow each other in the result, when
    the hyphen is of the class. *)
Lemma replace_runs_single (p : N -> bool) (b : bool) (s l1 l2 : Js.text)
    (c1 c2 : N) :
  replace_runs p b s = l1 ++ c1 :: c2 :: l2 ->
  p c1 = false \/ p c2 = false.
Proof.
  revert b l1. induction s as [|x s IH]; intros b l1; simpl.
  - by destruct l1.
  - destruct (p x) eqn:Hx; [destruct b|].
    + apply IH.
    + destruct l1 as [|y l1]; simpl.
      * intros [= <- H]. right. apply (replace_runs_head p s). by rewrite H.
      * intros [= _ H]. by apply (IH true l1).
    + destruct l1 as [|y l1]; simpl.
      * intros [= <- _]. by left.
      * intros [= _ H]. by apply (IH false l1).
Qed.

Lemma nanoid_char_word (c : N) : nanoid_char c = true -> isWordChar c = true.
Proof.
  unfold nanoid_char, isWordChar. intros H.
  apply orb_true_iff in H as [H|H]; rewrite H; by rewrite ?orb_true_r.
Qed.

Lemma slug_base_safe (toLowerCase : Js.text -> Js.text) (title : Js.text) (c : N) :
  c ∈ slug_base toLowerCase title -> url_safe c = true.
Proof.
  unfold slug_base. intros H. apply (subseteq_take 50) in H.
  apply replace_runs_elem in H as [->|[H _]]; [done|].
  apply replace_runs_elem in H as [->|[H Hws]]; [done|].
  unfold remove_special in H. apply list_elem_of_In, filter_In in H as [_ H].
  rewrite Hws, orb_false_r in H. exact H.
Qed.

(** X19.  Slugs are safe in a URL path, whatever the title.  For any title
    (any code units: quotes, slashes, emoji, other scripts), any lower-case
    mapping, and any four characters drawn from the generator's alphabet,
    every character of the slug is a letter of [A-Za-z], a digit, an
    underscore or a hyphen; the slug is 5 to 55 characters long; and the
    part made from the title holds no white space and never two hyphens in
    a row. *)
Theorem generateSlug_url_safe (toLowerCase : Js.text -> Js.text)
    (drawn title : Js.text) :
  (forall c, c ∈ drawn -> nanoid_char c = true) ->
  List.length drawn = 4%nat ->
  (forall c, c ∈ generateSlug toLowerCase drawn title -> url_safe c = true)
  /\ 5 <= Js.length (generateSlug toLowerCase drawn title) <= 55
  /\ (forall c, c ∈ slug_base toLowerCase title -> Js.isWhiteSpace c = false)
  /\ (forall l1 l2,
         slug_base toLowerCase title <> l1 ++ hyphen :: hyphen :: l2).
Proof.
  intros Hdrawn Hlen. split; [|split; [|split]].
  - intros c Hc. unfold generateSlug in Hc.
    apply elem_of_app in Hc as [Hc|Hc]; [by apply (slug_base_safe toLowerCase title)|].
    apply elem_of_cons in Hc as [->|Hc]; [done|].
    unfold url_safe. by rewrite (nanoid_char_word c (Hdrawn c Hc)).
  - unfold generateSlug, Js.length. rewrite length_app. simpl. rewrite Hlen.
    assert (List.length (slug_base toLowerCase title) <= 50)%nat as Hb.
    { unfold slug_base. rewrite length_take. lia. }
    lia.
  - intros c Hc. unfold slug_base in Hc. apply (subseteq_take 50) in Hc.
    apply replace_runs_elem in Hc as [->|[Hc _]]; [done|].
    apply replace_runs_elem in Hc as [->|[_ Hws]]; done.
  - intros l1 l2 H. unfold slug_base in H.
    match type of H with
    | take 50 ?x = _ =>
        pose proof (take_drop 50 x) as Hx; rewrite H in Hx;
        rewrite <- app_assoc in Hx; simpl in Hx; symmetry in Hx;
        apply replace_runs_single in Hx as [Hx|Hx]; done
    end.
Qed.

Lemma generateSlug_url_safe_witness :
  generateSlug Demo2.lower_ascii (Js.of_string "a3b2")
    (Js.of_string "Midnight Echoes")
  = Js.of_string "midnight-echoes-a3b2"
  /\ 5 <= Js.length (generateSlug Demo2.lower_ascii (Js.of_string "a3b2")
                       (Js.of_string "Midnight Echoes")) <= 55.
Proof.
  split; [by vm_compute|].
  destruct (generateSlug_url_safe Demo2.lower_ascii (Js.of_string "a3b2")
              (Js.of_string "Midnight Echoes")) as (_ & H & _).
  - intros c Hc. simpl in Hc.
    repeat (apply elem_of_cons in Hc as [->|Hc]; [reflexivity|]).
    by apply elem_of_nil in Hc.
  - reflexivity.
  - exact H.
Defined.

(* ===================================================================== *)
(** ** The traversal is breadth first *)
(* ===================================================================== *)

Lemma nodes_has_get (m : NodeMap) (k : string) :
  nodes_has m k = true -> exists n, nodes_get m k = Some n.
Proof.
  unfold nodes_has, nodes_get. induction m as [|kv m IH]; simpl; [done|].
  destruct (bool_decide (kv.1 = k)); simpl; [by eexists | exact IH].
Qed.

Lemma nodes_get_fresh (m : NodeMap) (k : string) (v : LineageNode) :
  nodes_has m k = false -> nodes_get (m ++ [(k, v)]) k = Some v.
Proof.
  unfold nodes_has, nodes_get. induction m as [|kv m IH]; simpl.
  - by rewrite bool_decide_eq_true_2.
  - destruct (bool_decide (kv.1 = k)); simpl; [done | exact IH].
Qed.

(** The nodes after a [for] loop over fetched rows whose body adds the
    node of a row unless its key is there: every entry is an old one or a
    new node, and every row has its node. *)
Lemma foldl_discover (f : Traversal -> WorkEdge * Work -> Traversal)
    (key : WorkEdge * Work -> string) (mk : WorkEdge * Work -> LineageNode)
    (D : Z) (rows : list (WorkEdge * Work)) (t : Traversal) :
  (forall a row,
      nodes (f a row)
      = if nodes_has (nodes a) (key row) then nodes a
        else nodes_set (nodes a) (key row) (mk row)) ->
  (forall row, node_id (mk row) = key row /\ Z.abs (node_depth (mk row)) = D) ->
  (forall k n, (k, n) ∈ nodes (foldl f t rows) ->
               (k, n) ∈ nodes t \/ (node_id n = k /\ Z.abs (node_depth n) = D))
  /\ (forall row, row ∈ rows ->
                  exists n, nodes_get (nodes (foldl f t rows)) (key row) = Some n).
Proof.
  intros Hf Hmk. induction rows as [|row rows [IH1 IH2]] using rev_ind.
  - split; [by left|]. intros row H. by apply elem_of_nil in H.
  - rewrite foldl_snoc, Hf.
    destruct (nodes_has (nodes (foldl f t rows)) (key row)) eqn:Hhas.
    + split; [exact IH1|]. intros row' H.
      apply elem_of_app in H as [H|H]; [by apply IH2|].
      apply list_elem_of_singleton in H as ->. by apply nodes_has_get.
    + rewrite nodes_set_fresh by done. split.
      * intros k n H. apply elem_of_app in H as [H|H]; [by apply IH1|].
        apply list_elem_of_singleton in H. injection H as -> ->.
        right. apply Hmk.
      * intros row' H. apply elem_of_app in H as [H|H].
        -- destruct (IH2 row' H) as [n Hn]. exists n. by apply nodes_get_app.
        -- apply list_elem_of_singleton in H as ->.
           exists (mk row). by apply nodes_get_fresh.
Qed.

(** The nodes after an expansion. *)
Lemma iteration_discovers (s : Store) (depth : Js.number) (i : QueueItem)
    (t : Traversal) :
  skipped depth (visited t) i = false ->
  0 <= item_currentDepth i ->
  (forall k n, (k, n) ∈ nodes (iteration s depth i t) ->
               (k, n) ∈ nodes t
               \/ (node_id n = k
                   /\ Z.abs (node_depth n) = item_currentDepth i + 1))
  /\ (forall row, row ∈ fetch s (item_workId i) (item_direction i) ->
                  exists n, nodes_get (nodes (iteration s depth i t))
                              (beyond (item_direction i) row.1) = Some n).
Proof.
  intros Hsk Hd. unfold iteration. rewrite Hsk.
  destruct (item_direction i).
  - refine (foldl_discover (visit_parent (item_currentDepth i))
              (fun row => edge_fromWorkId row.1)
              (fun row => {| node_id := edge_fromWorkId row.1;
                             node_slug := work_slug row.2;
                             node_title := work_title row.2;
                             node_status := work_status row.2;
                             node_depth := - (item_currentDepth i + 1) |})
              (item_currentDepth i + 1) (fetch s (item_workId i) Up)
              {| nodes := nodes t; edges := edges t;
                 visited := {[ visitKey (item_workId i) Up ]} ∪ visited t;
                 queue := queue t |} _ _).
    + by intros a [e w].
    + intros row. simpl. split; [done | lia].
  - refine (foldl_discover (visit_child (item_currentDepth i))
              (fun row => edge_toWorkId row.1)
              (fun row => {| node_id := edge_toWorkId row.1;
                             node_slug := work_slug row.2;
                             node_title := work_title row.2;
                             node_status := work_status row.2;
                             node_depth := item_currentDepth i + 1 |})
              (item_currentDepth i + 1) (fetch s (item_workId i) Down)
              {| nodes := nodes t; edges := edges t;
                 visited := {[ visitKey (item_workId i) Down ]} ∪ visited t;
                 queue := queue t |} _ _).
    + by intros a [e w].
    + intros row. simpl. split; [done | lia].
Qed.

Lemma findUnique_id_found (ws : list Work) (id : string) :
  id ∈ work_id <$> ws -> exists w, findUnique_id ws id = Some w.
Proof.
  intros H. apply list_elem_of_fmap in H as (w & -> & Hw).
  destruct (findUnique_id ws (work_id w)) as [w'|] eqn:Hf; [by eexists|].
  pose proof (find_none _ _ Hf w Hw) as Hn. simpl in Hn.
  by rewrite bool_decide_eq_true_2 in Hn.
Qed.

(** With the foreign keys in place an expansion fetches every stored edge
    at the work. *)
Lemma fetch_all (s : Store) (x : string) (dir : Direction) (e : WorkEdge) :
  edges_resolve s -> e ∈ workEdges s -> here dir e = x ->
  exists w, (e, w) ∈ fetch s x dir.
Proof.
  intros Hres He Hx. destruct (Hres e He) as [Hfrom Hto].
  destruct dir; simpl in Hx; unfold fetch, include_work.
  - destruct (findUnique_id_found _ _ Hfrom) as [w Hw]. exists w.
    apply list_elem_of_omap. exists e. split.
    + by apply list_elem_of_filter.
    + by rewrite Hw.
  - destruct (findUnique_id_found _ _ Hto) as [w Hw]. exists w.
    apply list_elem_of_omap. exists e. split.
    + by apply list_elem_of_filter.
    + by rewrite Hw.
Qed.

Lemma leveled_pop (c : Z) (i : QueueItem) (rest : list QueueItem) :
  leveled c (i :: rest) ->
  c <= item_currentDepth i <= c + 1 /\ leveled (item_currentDepth i) rest.
Proof.
  intros (q1 & q2 & Hq & H1 & H2). destruct q1 as [|j q1]; simpl in Hq.
  - subst q2. apply Forall_cons in H2 as [Hi H2]. split; [lia|].
    exists rest, []. rewrite app_nil_r, Hi. by split_and!.
  - injection Hq as <- ->. apply Forall_cons in H1 as [Hi H1]. split; [lia|].
    exists q1, q2. rewrite Hi. by split_and!.
Qed.

Lemma leveled_push (c : Z) (q new : list QueueItem) :
  leveled c q ->
  Forall (fun i => item_currentDepth i = c + 1) new ->
  leveled c (q ++ new).
Proof.
  intros (q1 & q2 & -> & H1 & H2) Hnew.
  exists q1, (q2 ++ new). rewrite app_assoc. split_and!; [done | done |].
  by apply Forall_app.
Qed.

Lemma ge_mono (depth : Js.number) (a b : Z) :
  a <= b -> Js.ge a depth = true -> Js.ge b depth = true.
Proof.
  destruct depth as [|z]; simpl; [done|]. intros Hab H.
  apply Z.leb_le in H. apply Z.leb_le. lia.
Qed.

(** The start of the loop. *)
Lemma bfs_start (s : Store) (root : Work) (depth : Js.number) :
  bfs_inv s root depth [] 0 (start root).
Proof.
  constructor.
  - done.
  - intros x dir H. by apply elem_of_empty in H.
  - intros x dir d H. by apply elem_of_nil in H.
  - exists (queue (start root)), []. rewrite app_nil_r.
    split_and!; [done | by repeat constructor | constructor].
  - intros k n H. simpl in H. apply list_elem_of_singleton in H.
    injection H as -> ->. simpl. split; [done | lia].
  - eexists. split.
    + unfold nodes_get. simpl. by rewrite bool_decide_eq_true_2.
    + done.
  - intros dir. right. right. simpl. destruct dir; [left | right; left].
  - intros x dir d e H. by apply elem_of_nil in H.
Qed.

(** Every iteration keeps the invariant. *)
Lemma bfs_step (s : Store) (root : Work) (depth : Js.number) (E : Log) (c : Z)
    (t t' : Traversal) :
  edges_resolve s ->
  bfs_inv s root depth E c t ->
  step s depth t = Some t' ->
  exists E' c', bfs_inv s root depth E' c' t'.
Proof.
  intros Hres [Hc Hvis Hlog Hlev Hnodes Hroot Hstart Hexp] Hstep.
  pose proof (step_keeps s depth t t') as Hkeep.
  specialize (fun k n => Hkeep k n Hstep).
  unfold step in Hstep. destruct (queue t) as [|i rest] eqn:Hq; [done|].
  injection Hstep as Hstep.
  set (t0 := {| nodes := nodes t; edges := edges t; visited := visited t;
                queue := rest |}) in *.
  apply leveled_pop in Hlev as [Hdi Hlev].
  destruct (skipped depth (visited t0) i) eqn:Hsk.
  - (* the item is skipped *)
    rewrite iteration_skipped in Hstep by done. subst t'.
    assert (forall x dir d, settled depth E t x dir d ->
                            settled depth E t0 x dir d) as Hsettled.
    { intros x dir d [H|[H|H]]; [by left | by right; left |].
      rewrite Hq in H. apply elem_of_cons in H as [<-|H]; [|by right; right].
      unfold skipped in Hsk. simpl in Hsk.
      apply orb_true_iff in Hsk as [Hsk|Hsk]; [by left|].
      apply bool_decide_eq_true in Hsk. destruct (Hvis _ _ Hsk) as [d' Hd'].
      right; left. exists d'. split; [done|].
      destruct (Hlog _ _ _ Hd'). simpl in Hdi. lia. }
    exists E, (item_currentDepth i). constructor.
    + lia.
    + exact Hvis.
    + intros x dir d H. destruct (Hlog x dir d H). split; [lia | done].
    + exact Hlev.
    + intros k n H. destruct (Hnodes k n H). split; [done | lia].
    + exact Hroot.
    + intros dir. apply Hsettled, Hstart.
    + intros x dir d e HE He Hx.
      destruct (Hexp x dir d e HE He Hx) as [Hn Hs]. split; [exact Hn|].
      by apply Hsettled.
  - (* the item is expanded *)
    destruct (iteration_expanded s depth i t0 Hsk) as [Hq' Hv'].
    destruct (iteration_discovers s depth i t0 Hsk ltac:(lia)) as [Hold Hnew].
    rewrite Hstep in Hq', Hv', Hold, Hnew. simpl in Hq', Hv', Hold.
    unfold skipped in Hsk. simpl in Hsk.
    apply orb_false_iff in Hsk as [Hge Hfresh].
    set (E' := (item_workId i, item_direction i, item_currentDepth i) :: E).
    assert (forall x dir d, settled depth E t x dir d ->
                            settled depth E' t' x dir d) as Hsettled.
    { intros x dir d [H|[(d' & H & Hle)|H]]; [by left | |].
      - right; left. exists d'. split; [by right | done].
      - rewrite Hq in H. apply elem_of_cons in H as [<-|H].
        + right; left. exists d. split; [left | lia].
        + right; right. rewrite Hq'. apply elem_of_app. by left. }
    exists E', (item_currentDepth i). constructor.
    + lia.
    + intros x dir H. rewrite Hv' in H. apply elem_of_union in H as [H|H].
      * apply elem_of_singleton in H.
        apply visitKey_injective in H as [-> ->]. eexists. left.
      * destruct (Hvis x dir H) as [d Hd]. exists d. by right.
    + intros x dir d H. apply elem_of_cons in H as [H|H].
      * injection H as -> -> ->. split; [lia | done].
      * destruct (Hlog x dir d H). split; [lia | done].
    + rewrite Hq'. apply leveled_push; [exact Hlev|].
      apply Forall_fmap, Forall_forall. by intros row _.
    + intros k n H. destruct (Hold k n H) as [H'|[H1 H2]].
      * destruct (Hnodes k n H'). split; [done | lia].
      * split; [done | lia].
    + destruct Hroot as (n & Hn & Hd). exists n. split; [by apply Hkeep | done].
    + intros dir. apply Hsettled, Hstart.
    + intros x dir d e HE He Hx. apply elem_of_cons in HE as [HE|HE].
      * injection HE as -> -> ->.
        destruct (fetch_all s (item_workId i) (item_direction i) e Hres He Hx)
          as [w Hw].
        destruct (Hnew (e, w) Hw) as [n Hn]. split.
        -- exists n. split; [exact Hn|].
           destruct (Hold _ _ (nodes_get_elem _ _ _ Hn)) as [H'|[_ H2]]; [|lia].
           destruct (Hnodes _ _ H'). lia.
        -- right; right. rewrite Hq'. apply elem_of_app. right.
           apply list_elem_of_fmap. exists (e, w). split; [|done].
           unfold queued. simpl. by destruct (item_direction i).
      * destruct (Hexp x dir d e HE He Hx) as [(n & Hn & Hd) Hs]. split.
        -- exists n. split; [by apply Hkeep | done].
        -- by apply Hsettled.
Qed.

(** A distance is reached by extending a shorter one at its far end. *)
Lemma hops_snoc_ind (es : list WorkEdge) (a b : string) (k : Z) :
  hops es a b k ->
  forall P : string -> Z -> Prop,
    P a 0 ->
    (forall e j, e ∈ es -> hops es a (edge_fromWorkId e) j ->
                 P (edge_fromWorkId e) j -> P (edge_toWorkId e) (j + 1)) ->
    P b k.
Proof.
  induction 1 as [a|e c k He Hh IH]; intros P H0 Hs; [done|].
  apply (IH (fun b j => hops es (edge_fromWorkId e) b (j + 1) /\ P b (j + 1))).
  - split.
    + apply hops_edge; [done | constructor].
    + apply (Hs e 0); [done | constructor | done].
  - intros e' j He' Hj [Hh' HP]. split.
    + by apply (hops_snoc es _ (edge_fromWorkId e') (j + 1) e').
    + by apply Hs.
Qed.

Lemma reach_ind (s : Store) (root : Work) (dir : Direction)
    (P : string -> Z -> Prop) :
  P (work_id root) 0 ->
  (forall e k, e ∈ workEdges s -> reach s root dir (here dir e) k ->
               P (here dir e) k -> P (beyond dir e) (k + 1)) ->
  forall x k, reach s root dir x k -> P x k.
Proof.
  intros H0 Hs x k Hr. destruct dir; simpl in *.
  - remember (work_id root) as r eqn:Hroot.
    induction Hr as [a|e c k He Hh IH]; [by subst|].
    subst c. by apply Hs; [| |apply IH].
  - apply (hops_snoc_ind _ _ _ _ Hr); [done|].
    intros e j He Hh HP. by apply Hs.
Qed.

Lemma in_range_ge (depth : Js.number) (k j : Z) :
  in_range depth k -> 0 <= j < k -> Js.ge j depth = false.
Proof.
  destruct depth as [|n]; simpl; [done|]. intros H Hj. apply Z.leb_gt. lia.
Qed.

(** When the queue is empty, every work within the depth bound has its
    node, no deeper than the path that leads to it, and was expanded unless
    it sits at the bound. *)
Lemma bfs_closed (s : Store) (root : Work) (depth : Js.number) (E : Log) (c : Z)
    (t : Traversal) (dir : Direction) (x : string) (k : Z) :
  bfs_inv s root depth E c t ->
  queue t = [] ->
  reach s root dir x k ->
  (forall j, 0 <= j < k -> Js.ge j depth = false) ->
  (exists n, nodes_get (nodes t) x = Some n /\ Z.abs (node_depth n) <= k)
  /\ (Js.ge k depth = false -> exists d, (x, dir, d) ∈ E /\ d <= k).
Proof.
  intros [Hc Hvis Hlog Hlev Hnodes Hroot Hstart Hexp] Hq Hr.
  assert (forall y dir' d, settled depth E t y dir' d ->
                           Js.ge d depth = true
                           \/ exists d', (y, dir', d') ∈ E /\ d' <= d) as Hdone.
  { intros y dir' d [H|[H|H]]; [by left | by right |].
    rewrite Hq in H. by apply elem_of_nil in H. }
  cut (0 <= k /\ ((forall j, 0 <= j < k -> Js.ge j depth = false) ->
                  (exists n, nodes_get (nodes t) x = Some n
                             /\ Z.abs (node_depth n) <= k)
                  /\ (Js.ge k depth = false ->
                      exists d, (x, dir, d) ∈ E /\ d <= k))); [by intros [_ H]|].
  revert x k Hr. apply reach_ind.
  - split; [done|]. intros _. split.
    + destruct Hroot as (n & Hn & Hd). exists n. split; [done | lia].
    + intros Hge. destruct (Hdone _ _ _ (Hstart dir)) as [H|H]; [congruence | done].
  - intros e k He Hr [Hk IH]. split; [lia|]. intros Hb.
    destruct IH as [_ IH]; [intros j Hj; apply Hb; lia|].
    destruct IH as (d & HE & Hd); [apply Hb; lia|].
    destruct (Hexp _ _ _ e HE He eq_refl) as [(n & Hn & Hnd) Hs]. split.
    + exists n. split; [done | lia].
    + intros Hge. destruct (Hdone _ _ _ Hs) as [H|(d' & H & Hd')].
      * apply (ge_mono depth (d + 1) (k + 1)) in H; [congruence | lia].
      * exists d'. split; [done | lia].
Qed.

(** X20.  The traversal is breadth first and complete within the depth
    asked for.  In a store whose edges join stored works, every work that
    is [k] stored edges upstream or downstream of the start, with [k]
    within the depth, is returned as a node; the node's depth is no farther
    from 0 than [k], and it is the length of a path that exists: so the
    depth of a node is the length of a shortest path between the work and
    the start, among the paths within the depth, over both directions.  A
    depth that is not a number bounds nothing: every ancestor and every
    descendant is returned. *)
Theorem buildGraph_nearest (s : Store) (root : Work) (depth : Js.number)
    (dir : Direction) (x : string) (k : Z) :
  edges_resolve s ->
  reach s root dir x k ->
  in_range depth k ->
  exists g n,
    buildGraph s root depth = Some g
    /\ n ∈ graph_nodes g
    /\ node_id n = x
    /\ Z.abs (node_depth n) <= k
    /\ exists dir', reach s root dir' x (Z.abs (node_depth n)).
Proof.
  intros Hres Hr Hk.
  destruct (loop_terminates s root depth) as (t & Hloop & Hq & Hg).
  assert (exists E c, bfs_inv s root depth E c t) as (E & c & Hinv).
  { apply (loop_invariant (fun t => exists E c, bfs_inv s root depth E c t)
             s depth (traversal_fuel s) (start root) t); [| |exact Hloop].
    - intros a b (E & c & Ha) Hstep. by apply (bfs_step s root depth E c a b).
    - exists [], 0. apply bfs_start. }
  assert (traversal_ok s root depth t) as (_ & _ & Hok & _).
  { apply (loop_invariant (traversal_ok s root depth)
             s depth (traversal_fuel s) (start root) t); [| |exact Hloop].
    - intros a b. apply step_ok.
    - apply start_ok. }
  destruct (bfs_closed s root depth E c t dir x k Hinv Hq Hr) as [(n & Hn & Hd) _].
  { intros j Hj. by apply (in_range_ge depth k). }
  apply nodes_get_elem in Hn.
  destruct (inv_nodes _ _ _ _ _ _ Hinv x n Hn) as [Hid _].
  exists (graph_of t), n. split_and!; [done | | done | done |].
  - simpl. apply list_elem_of_fmap. by exists (x, n).
  - rewrite Forall_forall in Hok. destruct (Hok (x, n) Hn) as [_ Hnode].
    unfold node_ok in Hnode. simpl in Hnode. rewrite Hid in Hnode.
    destruct Hnode as [[-> H0]|[(_ & Hneg & _ & Hh)|(_ & Hpos & _ & Hh)]].
    + exists Up. rewrite H0. simpl. constructor.
    + exists Up. simpl. by replace (Z.abs (node_depth n)) with (- node_depth n) by lia.
    + exists Down. simpl. by replace (Z.abs (node_depth n)) with (node_depth n) by lia.
Qed.

Lemma buildGraph_nearest_witness :
  exists g n,
    buildGraph Sample.chain (Sample.work "c" "third-0003" JAM) (Js.Int 2) = Some g
    /\ n ∈ graph_nodes g
    /\ node_id n = "a"
    /\ Z.abs (node_depth n) <= 2
    /\ exists dir', reach Sample.chain (Sample.work "c" "third-0003" JAM) dir' "a"
                      (Z.abs (node_depth n)).
Proof.
  apply (buildGraph_nearest Sample.chain (Sample.work "c" "third-0003" JAM)
           (Js.Int 2) Up "a" 2).
  - intros e He. simpl in He.
    repeat (apply elem_of_cons in He as [->|He]);
      [split; apply (bool_decide_unpack _); by vm_compute
      | split; apply (bool_decide_unpack _); by vm_compute
      | by apply elem_of_nil in He].
  - simpl. apply (hops_edge _ (Sample.edge "e1" "a" "b" FORK) "c" 1).
    + left.
    + apply (hops_edge _ (Sample.edge "e2" "b" "c" DERIVED) "c" 0).
      * right. left.
      * constructor.
  - simpl. lia.
Defined.

(* ===================================================================== *)
(** ** API keys *)
(* ===================================================================== *)

Lemma hasAllScopes_spec (requiredScopes : list string) (apiKey : ApiKey) :
  hasAllScopes requiredScopes apiKey = true
  <-> forall scope, scope ∈ requiredScopes -> scope ∈ apikey_scopes apiKey.
Proof.
  unfold hasAllScopes. rewrite forallb_forall. split.
  - intros H scope Hs. apply list_elem_of_In in Hs.
    specialize (H scope Hs). by apply bool_decide_eq_true in H.
  - intros H scope Hs. apply list_elem_of_In in Hs.
    by apply bool_decide_eq_true_2, H.
Qed.

Lemma scopes_checked (requiredScopes : list string) (apiKey : ApiKey) :
  (0 <? length requiredScopes)%nat && negb (hasAllScopes requiredScopes apiKey)
  = negb (hasAllScopes requiredScopes apiKey).
Proof. by destruct requiredScopes. Qed.

(** The key table after a validation differs only in [lastUsedAt]. *)
Lemma apiKey_touch_same (keys : list ApiKey) (id : string) (now : Z) :
  Forall2 (fun k k' => apikey_id k' = apikey_id k
                       /\ apikey_key k' = apikey_key k
                       /\ apikey_userId k' = apikey_userId k
                       /\ apikey_scopes k' = apikey_scopes k
                       /\ apikey_expiresAt k' = apikey_expiresAt k)
    keys (apiKey_touch keys id now).
Proof.
  induction keys as [|k keys IH]; simpl; [constructor|].
  destruct (bool_decide (apikey_id k = id)).
  - constructor; [done|]. by apply Forall2_diag.
  - constructor; [done | exact IH].
Qed.

(** The requests the wrapper lets through. *)
Lemma withApiKeyAuthParams_passed {A} (handler : ApiAuthContext -> A)
    (requiredScopes : list string) (now : Z) (tracked : bool)
    (header : option string) (keys : list ApiKey) (a : A) :
  (withApiKeyAuthParams handler requiredScopes now tracked header keys).1
  = Passed a
  <-> exists key row,
        header = Some key
        /\ String.prefix "sk_live_" key = true
        /\ find (fun k => bool_decide (apikey_key k = key)) keys = Some row
        /\ expired now row = false
        /\ (forall scope, scope ∈ requiredScopes -> scope ∈ apikey_scopes row)
        /\ a = handler {| ctx_userId := apikey_userId row;
                          ctx_scopes := apikey_scopes row |}.
Proof.
  unfold withApiKeyAuthParams, validateApiKey. split.
  - destruct header as [key|]; [|done].
    destruct (str_empty key) eqn:He; [done|]. simpl.
    destruct (String.prefix "sk_live_" key) eqn:Hp; simpl; [|done].
    destruct (find _ keys) as [row|] eqn:Hf; [|done].
    destruct (expired now row) eqn:Hx; [done|].
    rewrite scopes_checked.
    destruct (hasAllScopes requiredScopes row) eqn:Hs; simpl; [|done].
    intros [= <-]. exists key, row. split_and!; try done.
    by apply hasAllScopes_spec.
  - intros (key & row & -> & Hp & Hf & Hx & Hs & ->).
    assert (str_empty key = false) as -> by (by destruct key).
    simpl. rewrite Hp, Hf, Hx, scopes_checked. simpl.
    apply hasAllScopes_spec in Hs. by rewrite Hs.
Qed.

(** X21.  The API-key wrapper.  A wrapped handler runs exactly for a
    request whose [X-API-Key] header starts with [sk_live_], is the key of
    a stored row that has not expired, and whose row carries every required
    scope; the handler then gets the user and the scopes of that row.
    Every other request is refused without running the handler and without
    touching the key table: with 403 exactly when the key is stored and
    not expired but lacks a required scope, with 401 otherwise (no header,
    wrong format, unknown key, expired key, also when scopes are lacking
    as well).  A validation changes nothing of a key but [lastUsedAt]. *)
Theorem withApiKeyAuthParams_outcomes {A} (handler : ApiAuthContext -> A)
    (requiredScopes : list string) (now : Z) (tracked : bool)
    (header : option string) (keys : list ApiKey) :
  (forall a,
      (withApiKeyAuthParams handler requiredScopes now tracked header keys).1
      = Passed a
      <-> exists key row,
            header = Some key
            /\ String.prefix "sk_live_" key = true
            /\ find (fun k => bool_decide (apikey_key k = key)) keys = Some row
            /\ expired now row = false
            /\ (forall scope, scope ∈ requiredScopes ->
                              scope ∈ apikey_scopes row)
            /\ a = handler {| ctx_userId := apikey_userId row;
                              ctx_scopes := apikey_scopes row |})
  /\ (forall st e r av,
         (withApiKeyAuthParams handler requiredScopes now tracked header keys).1
         = Refused st e r av ->
         (withApiKeyAuthParams handler requiredScopes now tracked header keys).2
         = keys
         /\ (st = 401 \/ st = 403)
         /\ (st = 403
             <-> exists key row,
                   header = Some key
                   /\ String.prefix "sk_live_" key = true
                   /\ find (fun k => bool_decide (apikey_key k = key)) keys
                      = Some row
                   /\ expired now row = false
                   /\ exists scope, scope ∈ requiredScopes
                                    /\ scope ∉ apikey_scopes row))
  /\ Forall2 (fun k k' => apikey_id k' = apikey_id k
                          /\ apikey_key k' = apikey_key k
                          /\ apikey_userId k' = apikey_userId k
                          /\ apikey_scopes k' = apikey_scopes k
                          /\ apikey_expiresAt k' = apikey_expiresAt k)
       keys
       (withApiKeyAuthParams handler requiredScopes now tracked header keys).2.
Proof.
  split; [intros a; apply withApiKeyAuthParams_passed|].
  assert (forall row, hasAllScopes requiredScopes row = false ->
                      exists scope, scope ∈ requiredScopes
                                    /\ scope ∉ apikey_scopes row) as Hlack.
  { intros row. unfold hasAllScopes.
    induction requiredScopes as [|sc l IH]; simpl; [done|].
    case_bool_decide as Hsc; simpl.
    - intros H. destruct (IH H) as (scope & ? & ?). exists scope.
      split; [by right | done].
    - intros _. exists sc. split; [left | done]. }
  unfold withApiKeyAuthParams, validateApiKey.
  destruct header as [key|]; simpl.
  2: { split; [|by apply Forall2_diag].
       intros st e r av [= <- <- <- <-]. split_and!; [done | by left |].
       split; [done | by intros (? & ? & ? & _)]. }
  destruct (str_empty key) eqn:He; simpl.
  { split; [|by apply Forall2_diag].
    intros st e r av [= <- <- <- <-]. split_and!; [done | by left |].
    split; [done|]. intros (? & ? & [= <-] & Hp & _). by destruct key. }
  destruct (String.prefix "sk_live_" key) eqn:Hp; simpl.
  2: { split; [|by apply Forall2_diag].
       intros st e r av [= <- <- <- <-]. split_and!; [done | by left |].
       split; [done|]. intros (? & ? & [= <-] & Hp' & _). congruence. }
  destruct (find _ keys) as [row|] eqn:Hf; simpl.
  2: { split; [|by apply Forall2_diag].
       intros st e r av [= <- <- <- <-]. split_and!; [done | by left |].
       split; [done|]. intros (? & ? & [= <-] & _ & Hf' & _). congruence. }
  destruct (expired now row) eqn:Hx; simpl.
  { split; [|by apply Forall2_diag].
    intros st e r av [= <- <- <- <-]. split_and!; [done | by left |].
    split; [done|]. intros (? & ? & [= <-] & _ & Hf' & Hx' & _). congruence. }
  rewrite scopes_checked.
  destruct (hasAllScopes requiredScopes row) eqn:Hs; simpl.
  - split; [done|].
    destruct tracked; [apply apiKey_touch_same | by apply Forall2_diag].
  - split; [|by apply Forall2_diag].
    intros st e r av [= <- <- <- <-]. split_and!; [done | by right |].
    split; [|done]. intros _. exists key, row. split_and!; try done.
    by apply Hlack.
Qed.

(** X22.  No provenance without a key that may write.  When a request to
    the provenance route leaves the store changed, its [X-API-Key] header
    is the key of a stored row that has not expired and carries the scope
    [works:write]; every other request, whatever its body, leaves the
    store as it was. *)
Theorem POST_provenance_v1_guarded (env : Env) (fault : Fault) (tracked : bool)
    (header : option string) (workId : string) (body : option ProvenanceBody)
    (keys : list ApiKey) (s : Store) :
  (POST_provenance_v1 env fault tracked header workId body keys s).2 <> s ->
  exists key row,
    header = Some key
    /\ String.prefix "sk_live_" key = true
    /\ find (fun k => bool_decide (apikey_key k = key)) keys = Some row
    /\ expired (now env) row = false
    /\ WORKS_WRITE ∈ apikey_scopes row
    /\ (POST_provenance_v1 env fault tracked header workId body keys s).2
       = (POST_provenance env fault workId body s).2.
Proof.
  unfold POST_provenance_v1. intros Hs.
  destruct (withApiKeyAuthParams _ _ _ _ _ _) as [[[answer s']|st e r a] keys']
    eqn:Hw; simpl in *; [|done].
  apply (f_equal fst) in Hw. simpl in Hw.
  apply withApiKeyAuthParams_passed in Hw
    as (key & row & -> & Hp & Hf & Hx & Hsc & Ha).
  exists key, row. split_and!; try done.
  - apply Hsc. left.
  - by rewrite <- Ha.
Qed.

Lemma POST_provenance_v1_guarded_witness :
  exists key row,
    Some "sk_live_4f2a" = Some key
    /\ String.prefix "sk_live_" key = true
    /\ find (fun k => bool_decide (apikey_key k = key))
         [ {| apikey_id := "k1"; apikey_key := "sk_live_4f2a";
              apikey_userId := "u-o8"; apikey_scopes := ["works:write"];
              apikey_expiresAt := None; apikey_lastUsedAt := None |} ]
       = Some row
    /\ expired (now Sample.env) row = false
    /\ WORKS_WRITE ∈ apikey_scopes row
    /\ (POST_provenance_v1 Sample.env NoFault true (Some "sk_live_4f2a") "w3"
          (Some Sample.provenance)
          [ {| apikey_id := "k1"; apikey_key := "sk_live_4f2a";
               apikey_userId := "u-o8"; apikey_scopes := ["works:write"];
               apikey_expiresAt := None; apikey_lastUsedAt := None |} ]
          Sample.archive).2
       = (POST_provenance Sample.env NoFault "w3" (Some Sample.provenance)
            Sample.archive).2.
Proof.
  apply (POST_provenance_v1_guarded Sample.env NoFault true
           (Some "sk_live_4f2a") "w3" (Some Sample.provenance)).
  intros H. apply (f_equal o8Provenances) in H. vm_compute in H. discriminate.
Defined.

(** X23.  Key previews.  A key of 11 characters or fewer is shown whole.
    A longer key is shown as 14 characters, its first 7 and its last 4
    around three dots, and the preview depends on nothing else of the key.
    For a generated key (the prefix [sk_live_] and 64 hexadecimal digits)
    the preview is [sk_live...] and the last four digits: 60 of the 64
    digits of the secret never appear. *)
Theorem maskApiKey_preview (key : Js.text) :
  (Js.length key <= 11 -> maskApiKey key = key)
  /\ (11 < Js.length key ->
      Js.length (maskApiKey key) = 14
      /\ take 7 (maskApiKey key) = take 7 key
      /\ drop 10 (maskApiKey key) = drop (length key - 4) key
      /\ forall key',
           11 < Js.length key' ->
           take 7 key' = take 7 key ->
           drop (length key' - 4) key' = drop (length key - 4) key ->
           maskApiKey key' = maskApiKey key)
  /\ (forall hex,
         length hex = 64%nat ->
         maskApiKey (generateApiKey hex)
         = Js.of_string "sk_live..." ++ drop 60 hex).
Proof.
  assert (length (Js.of_string "...") = 3%nat) as H3 by reflexivity.
  unfold maskApiKey, Js.length. split; [|split].
  - intros H. apply Z.leb_le in H. by rewrite H.
  - intros H. assert ((Z.of_nat (length key) <=? 11) = false) as ->
      by (apply Z.leb_gt; lia).
    split_and!.
    + rewrite !length_app, length_take, length_drop, H3. lia.
    + apply take_app_length'. rewrite length_take. lia.
    + rewrite app_assoc. apply drop_app_length'.
      rewrite length_app, length_take, H3. lia.
    + intros key' H' H7 H4.
      assert ((Z.of_nat (length key') <=? 11) = false) as ->
        by (apply Z.leb_gt; lia).
      by rewrite H7, H4.
  - intros hex Hlen. unfold generateApiKey.
    assert ((Z.of_nat (length (Js.of_string "sk_live_" ++ hex)) <=? 11) = false)
      as ->.
    { apply Z.leb_gt. rewrite length_app, Hlen.
      change (length (Js.of_string "sk_live_")) with 8%nat. lia. }
    rewrite length_app, Hlen.
    change (length (Js.of_string "sk_live_") + 64 - 4)%nat with (8 + 60)%nat.
    rewrite <- drop_drop.
    change (drop 8 (Js.of_string "sk_live_" ++ hex)) with hex.
    reflexivity.
Qed.

(* ===================================================================== *)
(** ** Webhook delivery *)
(* ===================================================================== *)

Lemma subscription_update_middle (before after : list WebhookSubscription)
    (x : WebhookSubscription) (id : string)
    (data : WebhookSubscription -> WebhookSubscription) :
  sub_id x = id ->
  (forall y, y ∈ before -> sub_id y <> id) ->
  subscription_update (before ++ x :: after) id data
  = Some (before ++ data x :: after, data x).
Proof.
  intros Hx. induction before as [|y before IH]; intros Hb; simpl.
  - by rewrite bool_decide_eq_true_2.
  - rewrite bool_decide_eq_false_2 by (apply Hb; left).
    rewrite IH; [done|]. intros z Hz. apply Hb. by right.
Qed.

Lemma recordFailure_row (before after : list WebhookSubscription)
    (x : WebhookSubscription) (id : string) :
  sub_id x = id ->
  (forall y, y ∈ before -> sub_id y <> id) ->
  recordFailure id (before ++ x :: after) = before ++ failed_row x :: after.
Proof.
  intros Hx Hb. unfold recordFailure.
  rewrite subscription_update_middle by done. simpl.
  unfold failed_row. destruct (10 <=? sub_failures x + 1) eqn:Hten.
  - rewrite subscription_update_middle by done. reflexivity.
  - reflexivity.
Qed.

Lemma resetFailures_row (before after : list WebhookSubscription)
    (x : WebhookSubscription) (id : string) :
  sub_id x = id ->
  (forall y, y ∈ before -> sub_id y <> id) ->
  resetFailures id (before ++ x :: after)
  = before ++ set_failures (fun _ => 0) x :: after.
Proof.
  intros Hx Hb. unfold resetFailures.
  by rewrite subscription_update_middle.
Qed.

(** The loop of [deliverWebhook] from any attempt on: when it succeeds,
    what it leaves in the table, and what it sleeps. *)
Lemma deliver_loop_spec (fetch : nat -> FetchResult) (id : string)
    (M rem : nat) (subs : list WebhookSubscription) (slept : list Z) :
  (rem <= M)%nat ->
  (dlv_success (dlv_outcome (deliver_loop fetch id M rem subs slept)) = true
   <-> exists n, (M - rem <= n < M)%nat
                 /\ succeeded (fetch n) = true
                 /\ forall m, (M - rem <= m < n)%nat -> retried (fetch m) = true)
  /\ dlv_subs (deliver_loop fetch id M rem subs slept)
     = (if dlv_success (dlv_outcome (deliver_loop fetch id M rem subs slept))
        then resetFailures id subs else recordFailure id subs)
  /\ exists j,
       dlv_slept (deliver_loop fetch id M rem subs slept)
       = slept ++ ((fun a => default 0 (delays !! a)) <$> seq (M - rem) j)
       /\ (j = 0%nat \/ (M - rem + j <= M - 1)%nat).
Proof.
  revert slept. induction rem as [|r IH]; intros slept Hle.
  - simpl. split_and!.
    + split; [done|]. intros (n & Hn & _). lia.
    + done.
    + exists 0%nat. simpl. rewrite app_nil_r. split; [done | by left].
  - assert (M - r = S (M - S r))%nat as Hnext by lia.
    simpl. destruct (fetch (M - S r)%nat) as [st|msg] eqn:Hf.
    + destruct (response_ok st) eqn:Hok; simpl.
      { split_and!.
        - split; [|done]. intros _. exists (M - S r)%nat.
          split; [lia|]. rewrite Hf. simpl. split; [done|]. intros m Hm. lia.
        - done.
        - exists 0%nat. simpl. rewrite app_nil_r. split; [done | by left]. }
      destruct ((400 <=? st) && (st <? 500)) eqn:Hc; simpl.
      { split_and!.
        - split; [done|]. intros (n & Hn & Hs & Hr).
          destruct (decide (n = M - S r)%nat) as [->|Hne].
          + rewrite Hf in Hs. simpl in Hs. congruence.
          + specialize (Hr (M - S r)%nat ltac:(lia)). rewrite Hf in Hr.
            simpl in Hr. rewrite Hok, Hc in Hr. done.
        - done.
        - exists 0%nat. simpl. rewrite app_nil_r. split; [done | by left]. }
      destruct (IH (if (M - S r <? M - 1)%nat
                    then slept ++ [default 0 (delays !! (M - S r)%nat)]
                    else slept) ltac:(lia)) as (IHs & IHt & j & IHj & Hj).
      split_and!.
      * rewrite IHs. split; intros (n & Hn & Hs & Hr); exists n.
        -- split; [lia|]. split; [done|]. intros m Hm.
           destruct (decide (m = M - S r)%nat) as [->|Hne].
           ++ rewrite Hf. simpl. by rewrite Hok, Hc.
           ++ apply Hr. lia.
        -- assert (n <> M - S r)%nat.
           { intros ->. rewrite Hf in Hs. simpl in Hs. congruence. }
           split; [lia|]. split; [done|]. intros m Hm. apply Hr. lia.
      * exact IHt.
      * rewrite IHj. destruct (Nat.ltb_spec (M - S r) (M - 1)) as [Hlt|Hge].
        -- exists (S j). rewrite <- app_assoc. simpl. rewrite Hnext.
           split; [done | right; lia].
        -- exists 0%nat. assert (j = 0%nat) as -> by lia. split; [done | by left].
    + destruct (Nat.ltb_spec (M - S r) (M - 1)) as [Hlt|Hge].
      * destruct (IH (slept ++ [default 0 (delays !! (M - S r)%nat)])
                    ltac:(lia)) as (IHs & IHt & j & IHj & Hj).
        split_and!.
        -- rewrite IHs. split; intros (n & Hn & Hs & Hr); exists n.
           ++ split; [lia|]. split; [done|]. intros m Hm.
              destruct (decide (m = M - S r)%nat) as [->|Hne].
              ** by rewrite Hf.
              ** apply Hr. lia.
           ++ assert (n <> M - S r)%nat.
              { intros ->. rewrite Hf in Hs. simpl in Hs. congruence. }
              split; [lia|]. split; [done|]. intros m Hm. apply Hr. lia.
        -- exact IHt.
        -- exists (S j). rewrite IHj, <- app_assoc. simpl. rewrite Hnext.
           split; [done | right; lia].
      * simpl. split_and!.
        -- split; [done|]. intros (n & Hn & Hs & Hr).
           assert (n = M - S r)%nat as -> by lia.
           rewrite Hf in Hs. simpl in Hs. congruence.
        -- done.
        -- exists 0%nat. simpl. rewrite app_nil_r. split; [done | by left].
Qed.

(** X24.  One webhook delivery.  It makes at most three requests and
    succeeds exactly when one of them gets a 2xx response and every request
    before it was one that is tried again (a response that is neither 2xx
    nor 4xx, or an exception); a 4xx response ends it at once.  A
    successful delivery sets the failure count of the subscription to 0; a
    failed one adds 1 to it, once, and switches the subscription off when
    the count reaches 10; no other row changes.  Between requests it sleeps
    1 s, then 4 s: the third delay of the table, 16 s, is never slept. *)
Theorem deliverWebhook_outcomes (fetch : nat -> FetchResult) (id : string)
    (before after : list WebhookSubscription) (x : WebhookSubscription) :
  sub_id x = id ->
  (forall y, y ∈ before -> sub_id y <> id) ->
  (dlv_success (dlv_outcome (deliverWebhook fetch id (before ++ x :: after)))
   = true
   <-> exists n, (n < 3)%nat
                 /\ succeeded (fetch n) = true
                 /\ forall m, (m < n)%nat -> retried (fetch m) = true)
  /\ dlv_subs (deliverWebhook fetch id (before ++ x :: after))
     = before
       ++ (if dlv_success
                (dlv_outcome (deliverWebhook fetch id (before ++ x :: after)))
           then set_failures (fun _ => 0) x else failed_row x)
       :: after
  /\ dlv_slept (deliverWebhook fetch id (before ++ x :: after))
     `prefix_of` [1000; 4000].
Proof.
  intros Hx Hb. unfold deliverWebhook.
  destruct (deliver_loop_spec fetch id 3 3 (before ++ x :: after) [])
    as (Hs & Ht & j & Hj & Hbound); [lia|].
  split_and!.
  - rewrite Hs. split; intros (n & Hn & Hok & Hr); exists n.
    + split; [lia|]. split; [done|]. intros m Hm. apply Hr. lia.
    + split; [lia|]. split; [done|]. intros m Hm. apply Hr. lia.
  - rewrite Ht. destruct (dlv_success _).
    + by apply resetFailures_row.
    + by apply recordFailure_row.
  - rewrite Hj. destruct j as [|[|[|j]]]; simpl.
    + by exists [1000; 4000].
    + by exists [4000].
    + by exists [].
    + lia.
Qed.

Lemma deliverWebhook_outcomes_witness :
  dlv_subs
    (deliverWebhook (fun n => if (n =? 0)%nat then Responded 503 else Threw "timeout")
       "s1"
       [ {| sub_id := "s1"; sub_url := "https://hooks.example/a";
            sub_secret := "whsec_1"; sub_events := ["work.promoted"];
            sub_active := true; sub_failures := 9 |} ])
  = [ {| sub_id := "s1"; sub_url := "https://hooks.example/a";
         sub_secret := "whsec_1"; sub_events := ["work.promoted"];
         sub_active := false; sub_failures := 10 |} ].
Proof.
  destruct (deliverWebhook_outcomes
              (fun n => if (n =? 0)%nat then Responded 503 else Threw "timeout")
              "s1" [] []
              {| sub_id := "s1"; sub_url := "https://hooks.example/a";
                 sub_secret := "whsec_1"; sub_events := ["work.promoted"];
                 sub_active := true; sub_failures := 9 |})
    as (_ & H & _).
  - reflexivity.
  - intros y Hy. by apply elem_of_nil in Hy.
  - exact H.
Defined.

(** The outcome of a delivery does not depend on the table. *)
Lemma deliver_loop_outcome (fetch : nat -> FetchResult) (id : string)
    (M rem : nat) (subs subs' : list WebhookSubscription) (slept : list Z) :
  dlv_outcome (deliver_loop fetch id M rem subs slept)
  = dlv_outcome (deliver_loop fetch id M rem subs' slept).
Proof.
  revert slept. induction rem as [|r IH]; intros slept; simpl; [done|].
  destruct (fetch (M - S r)%nat) as [st|msg].
  - destruct (response_ok st); [done|].
    destruct ((400 <=? st) && (st <? 500)); [done|]. apply IH.
  - destruct (M - S r <? M - 1)%nat; [apply IH | done].
Qed.

(** A delivery on a table: its outcome is that of the delivery on the row
    alone, and only the row changes. *)
Lemma deliverWebhook_row (fetch : nat -> FetchResult) (id : string)
    (before after : list WebhookSubscription) (x : WebhookSubscription) :
  sub_id x = id ->
  (forall y, y ∈ before -> sub_id y <> id) ->
  dlv_outcome (deliverWebhook fetch id (before ++ x :: after))
  = dlv_outcome (deliverWebhook fetch id [x])
  /\ dlv_subs (deliverWebhook fetch id (before ++ x :: after))
     = before
       ++ (if dlv_success (dlv_outcome (deliverWebhook fetch id [x]))
           then set_failures (fun _ => 0) x else failed_row x)
       :: after.
Proof.
  intros Hx Hb. unfold deliverWebhook.
  pose proof (deliver_loop_outcome fetch id 3 3 (before ++ x :: after) [x] [])
    as Ho.
  split; [exact Ho|]. rewrite <- Ho.
  destruct (deliver_loop_spec fetch id 3 3 (before ++ x :: after) [])
    as (_ & Ht & _); [lia|].
  rewrite Ht. destruct (dlv_success _).
  - by apply resetFailures_row.
  - by apply recordFailure_row.
Qed.

Lemma insert_by_finish_perm (finish : string -> nat) (x : WebhookSubscription)
    (l : list WebhookSubscription) :
  insert_by_finish finish x l ≡ₚ x :: l.
Proof.
  induction l as [|y r IH]; simpl; [done|].
  destruct (finish (sub_id x) <=? finish (sub_id y))%nat; [done|].
  rewrite IH. apply Permutation_swap.
Qed.

Lemma finish_order_perm (finish : string -> nat) (l : list WebhookSubscription) :
  finish_order finish l ≡ₚ l.
Proof.
  unfold finish_order. induction l as [|x l IH]; simpl; [done|].
  by rewrite insert_by_finish_perm, IH.
Qed.

(** Deliveries made one after the other, in any order, to subscriptions of
    the table with distinct ids: each result is the one of the delivery on
    its row alone, and the table afterwards has the row of each
    subscription delivered to reset or advanced, and every other row as it
    was. *)
Lemma dispatch_fold (net : string -> nat -> FetchResult)
    (ts T : list WebhookSubscription) (results : list DeliveryResult) :
  NoDup (sub_id <$> T) ->
  NoDup (sub_id <$> ts) ->
  (forall x, x ∈ ts -> x ∈ T) ->
  foldl (fun acc subscription =>
           let d := deliverWebhook (net (sub_id subscription))
                      (sub_id subscription) acc.2 in
           (acc.1 ++ [ {| res_subscriptionId := sub_id subscription;
                          res_url := sub_url subscription;
                          res_outcome := dlv_outcome d |} ],
            dlv_subs d))
    (results, T) ts
  = (results
     ++ ((fun x =>
            {| res_subscriptionId := sub_id x; res_url := sub_url x;
               res_outcome :=
                 dlv_outcome (deliverWebhook (net (sub_id x)) (sub_id x) [x]) |})
         <$> ts),
     (fun x =>
        if bool_decide (sub_id x ∈ sub_id <$> ts) then
          if dlv_success
               (dlv_outcome (deliverWebhook (net (sub_id x)) (sub_id x) [x]))
          then set_failures (fun _ => 0) x else failed_row x
        else x) <$> T).
Proof.
  revert T results. induction ts as [|x ts IH]; intros T results HT Hts Hin.
  - simpl. rewrite app_nil_r. f_equal.
    induction T as [|y T IHT]; [done|]. rewrite fmap_cons.
    apply NoDup_cons in HT as [_ HT].
    rewrite <- IHT; [|done | intros z Hz; by apply elem_of_nil in Hz].
    done.
  - rewrite fmap_cons in Hts. apply NoDup_cons in Hts as [Hx Hts].
    destruct (list_elem_of_split T x (Hin x ltac:(left)))
      as (before & after & ->).
    assert (forall y, y ∈ before ++ after -> sub_id y <> sub_id x) as Hother.
    { intros y Hy Heq. rewrite fmap_app, fmap_cons in HT.
      apply NoDup_app in HT as (_ & Hba & Hafter).
      apply NoDup_cons in Hafter as [Hxa _].
      apply elem_of_app in Hy as [Hy|Hy].
      - apply (Hba (sub_id x)); [rewrite <- Heq; by apply list_elem_of_fmap_2 | left].
      - apply Hxa. rewrite <- Heq. by apply list_elem_of_fmap_2. }
    simpl.
    destruct (deliverWebhook_row (net (sub_id x)) (sub_id x) before after x
                eq_refl) as [Ho Ht].
    { intros y Hy. apply Hother. apply elem_of_app. by left. }
    rewrite Ht, Ho.
    set (x' := if dlv_success
                    (dlv_outcome (deliverWebhook (net (sub_id x)) (sub_id x) [x]))
               then set_failures (fun _ => 0) x else failed_row x) in *.
    assert (sub_id x' = sub_id x) as Hid
      by (unfold x'; by destruct (dlv_success _)).
    rewrite IH.
    + rewrite <- app_assoc. simpl. f_equal.
      rewrite !fmap_app, !fmap_cons. f_equal; [|f_equal].
      * apply Forall_fmap_ext_1, Forall_forall. intros y Hy.
        assert (sub_id y <> sub_id x) as Hne
          by (apply Hother; apply elem_of_app; by left).
        destruct (decide (sub_id y ∈ sub_id <$> ts)) as [Hy'|Hy'].
        -- rewrite !bool_decide_eq_true_2; [done | by right | done].
        -- rewrite !bool_decide_eq_false_2; [done | | done].
           intros H. apply elem_of_cons in H as [H|H]; done.
      * rewrite Hid. rewrite (bool_decide_eq_false_2 _ Hx).
        rewrite bool_decide_eq_true_2; [done | left].
      * apply Forall_fmap_ext_1, Forall_forall. intros y Hy.
        assert (sub_id y <> sub_id x) as Hne
          by (apply Hother; apply elem_of_app; by right).
        destruct (decide (sub_id y ∈ sub_id <$> ts)) as [Hy'|Hy'].
        -- rewrite !bool_decide_eq_true_2; [done | by right | done].
        -- rewrite !bool_decide_eq_false_2; [done | | done].
           intros H. apply elem_of_cons in H as [H|H]; done.
    + rewrite fmap_app, fmap_cons, Hid. by rewrite fmap_app, fmap_cons in HT.
    + exact Hts.
    + intros y Hy.
      assert (y ∈ before ++ x :: after) as HyT by (apply Hin; by right).
      assert (sub_id y <> sub_id x) as Hne.
      { intros Heq. apply Hx. rewrite <- Heq. by apply list_elem_of_fmap_2. }
      apply elem_of_app in HyT as [HyT|HyT]; [apply elem_of_app; by left|].
      apply elem_of_cons in HyT as [->|HyT]; [done|].
      apply elem_of_app. right. by right.
Qed.

(** X25.  Dispatching an event.  With distinct subscription ids, and in
    whatever order the parallel deliveries finish, every active
    subscription that lists the event gets exactly one delivery and no
    other subscription gets one: the results are, in some order, one per
    such subscription, each as its delivery would end on its own row alone
    (deliveries do not disturb each other).  The table afterwards does not
    depend on that order: it holds, for each subscription delivered to, its
    row with the failure count reset (success) or advanced (failure), and
    every other row as it was.  Sound rows stay sound (an active
    subscription has failed fewer than 10 times in a row), and a dispatch
    never switches a subscription back on. *)
Theorem dispatchWebhook_independent (net : string -> nat -> FetchResult)
    (finish : string -> nat) (event : string)
    (subs : list WebhookSubscription) :
  NoDup (sub_id <$> subs) ->
  (dispatchWebhook net finish event subs).1
  ≡ₚ (fun x =>
        {| res_subscriptionId := sub_id x; res_url := sub_url x;
           res_outcome :=
             dlv_outcome (deliverWebhook (net (sub_id x)) (sub_id x) [x]) |})
     <$> filter (fun x => subscribed event x = true) subs
  /\ (dispatchWebhook net finish event subs).2
     = (fun x =>
          if subscribed event x then
            if dlv_success
                 (dlv_outcome (deliverWebhook (net (sub_id x)) (sub_id x) [x]))
            then set_failures (fun _ => 0) x else failed_row x
          else x) <$> subs
  /\ (Forall sub_ok subs ->
      Forall sub_ok (dispatchWebhook net finish event subs).2)
  /\ Forall2 (fun x x' =>
                sub_id x' = sub_id x /\ sub_url x' = sub_url x
                /\ sub_secret x' = sub_secret x /\ sub_events x' = sub_events x
                /\ (sub_active x = false -> x' = x))
       subs (dispatchWebhook net finish event subs).2.
Proof.
  intros Hnd.
  set (targets := filter (fun x => subscribed event x = true) subs).
  assert (finish_order finish targets ≡ₚ targets) as Hperm
    by apply finish_order_perm.
  assert (NoDup (sub_id <$> finish_order finish targets)) as Hts.
  { rewrite Hperm. apply (sublist_NoDup _ (sub_id <$> subs)); [done|].
    apply fmap_sublist, sublist_filter. }
  assert (forall x, x ∈ finish_order finish targets -> x ∈ subs) as Hin.
  { intros x Hx. rewrite Hperm in Hx. by apply list_elem_of_filter in Hx as [_ ?]. }
  pose proof (dispatch_fold net (finish_order finish targets) subs [] Hnd Hts Hin)
    as Heq.
  simpl in Heq. unfold dispatchWebhook. fold targets. rewrite Heq. clear Heq.
  simpl.
  assert ((fun x =>
             if bool_decide (sub_id x ∈ sub_id <$> finish_order finish targets)
             then
               if dlv_success
                    (dlv_outcome (deliverWebhook (net (sub_id x)) (sub_id x) [x]))
               then set_failures (fun _ => 0) x else failed_row x
             else x) <$> subs
          = (fun x =>
               if subscribed event x then
                 if dlv_success
                      (dlv_outcome (deliverWebhook (net (sub_id x)) (sub_id x) [x]))
                 then set_failures (fun _ => 0) x else failed_row x
               else x) <$> subs) as ->.
  { apply Forall_fmap_ext_1, Forall_forall. intros y Hy.
    destruct (subscribed event y) eqn:Hsub.
    - rewrite bool_decide_eq_true_2; [done|].
      apply list_elem_of_fmap_2. rewrite Hperm. by apply list_elem_of_filter.
    - rewrite bool_decide_eq_false_2; [done|]. intros Hid.
      apply list_elem_of_fmap in Hid as (z & Hz & Hzin).
      rewrite Hperm in Hzin. apply list_elem_of_filter in Hzin as [HPz Hzs].
      rewrite (NoDup_fmap_eq sub_id subs y z Hnd Hy Hzs Hz) in Hsub. congruence. }
  split; [by rewrite Hperm|]. split; [done|]. split.
  - intros Hok. apply Forall_fmap. eapply Forall_impl; [exact Hok|].
    intros x [H0 Hact]. simpl.
    destruct (subscribed event x); [|by split].
    destruct (dlv_success _); unfold sub_ok, set_failures, failed_row; simpl.
    + split; [lia|]. intros _. lia.
    + split; [lia|]. destruct (10 <=? sub_failures x + 1) eqn:Hten; [done|].
      intros _. apply Z.leb_gt in Hten. lia.
  - apply Forall2_fmap_r, Forall2_diag. intros x. simpl.
    unfold subscribed. destruct (sub_active x); simpl.
    + destruct (bool_decide _); [|done]. by destruct (dlv_success _).
    + done.
Qed.

(** Three subscriptions to [work.canonized]: the first answers 404 and
    reaches ten failures, the second answers 204 and finishes first, the
    third is switched off. *)
Lemma dispatchWebhook_independent_witness :
  (dispatchWebhook
     (fun id n => if decide (id = "s1") then Responded 404 else Responded 204)
     (fun id => if decide (id = "s1") then 2%nat else 1%nat)
     "work.canonized"
     [ {| sub_id := "s1"; sub_url := "https://hooks.example/a";
          sub_secret := "whsec_1"; sub_events := ["work.canonized"];
          sub_active := true; sub_failures := 9 |};
       {| sub_id := "s2"; sub_url := "https://hooks.example/b";
          sub_secret := "whsec_2";
          sub_events := ["work.promoted"; "work.canonized"];
          sub_active := true; sub_failures := 3 |};
       {| sub_id := "s3"; sub_url := "https://hooks.example/c";
          sub_secret := "whsec_3"; sub_events := ["work.canonized"];
          sub_active := false; sub_failures := 10 |} ]).2
  = [ {| sub_id := "s1"; sub_url := "https://hooks.example/a";
         sub_secret := "whsec_1"; sub_events := ["work.canonized"];
         sub_active := false; sub_failures := 10 |};
      {| sub_id := "s2"; sub_url := "https://hooks.example/b";
         sub_secret := "whsec_2";
         sub_events := ["work.promoted"; "work.canonized"];
         sub_active := true; sub_failures := 0 |};
      {| sub_id := "s3"; sub_url := "https://hooks.example/c";
         sub_secret := "whsec_3"; sub_events := ["work.canonized"];
         sub_active := false; sub_failures := 10 |} ]
  /\ res_subscriptionId <$>
       (dispatchWebhook
          (fun id n => if decide (id = "s1") then Responded 404
                       else Responded 204)
          (fun id => if decide (id = "s1") then 2%nat else 1%nat)
          "work.canonized"
          [ {| sub_id := "s1"; sub_url := "https://hooks.example/a";
               sub_secret := "whsec_1"; sub_events := ["work.canonized"];
               sub_active := true; sub_failures := 9 |};
            {| sub_id := "s2"; sub_url := "https://hooks.example/b";
               sub_secret := "whsec_2";
               sub_events := ["work.promoted"; "work.canonized"];
               sub_active := true; sub_failures := 3 |};
            {| sub_id := "s3"; sub_url := "https://hooks.example/c";
               sub_secret := "whsec_3"; sub_events := ["work.canonized"];
               sub_active := false; sub_failures := 10 |} ]).1
     = ["s2"; "s1"].
Proof.
  split; [|reflexivity].
  destruct (dispatchWebhook_independent
              (fun id n => if decide (id = "s1") then Responded 404
                           else Responded 204)
              (fun id => if decide (id = "s1") then 2%nat else 1%nat)
              "work.canonized"
              [ {| sub_id := "s1"; sub_url := "https://hooks.example/a";
                   sub_secret := "whsec_1"; sub_events := ["work.canonized"];
                   sub_active := true; sub_failures := 9 |};
                {| sub_id := "s2"; sub_url := "https://hooks.example/b";
                   sub_secret := "whsec_2";
                   sub_events := ["work.promoted"; "work.canonized"];
                   sub_active := true; sub_failures := 3 |};
                {| sub_id := "s3"; sub_url := "https://hooks.example/c";
                   sub_secret := "whsec_3"; sub_events := ["work.canonized"];
                   sub_active := false; sub_failures := 10 |} ])
    as (_ & H & _).
  - apply (bool_decide_unpack _). by vm_compute.
  - rewrite H. reflexivity.
Defined.
